(** * Dependency planning and task execution of claude_code_mcp

    A shallow embedding of [task_dependencies.py] (graph builder, validator,
    execution planner) and of [task_executor.py] (subtask runner, task
    executor), with the properties of the specification stated over it.

    Conventions of the embedding:
    - a Python [dict] with optional keys is a record of [option] fields;
    - a Python exception is the [Raise] outcome of [result];
    - a Python [set] of strings is a [gset string]; the order in which
      CPython iterates over a set of strings depends on the hash seed, so
      it is a parameter ([SetOrder]) of every function that iterates;
    - the [networkx.DiGraph] keeps nodes and edges in insertion order,
      as its dictionaries do; [add_edge] creates the endpoints that are
      not nodes yet, and [find_cycle] is a depth-first search;
    - the executor's coroutines are state transformers over the executor
      object, the snapshots written to storage and the commands handed to
      the shell; what a command does is given by a [World];
    - the operating system is taken to work: writing a snapshot and
      spawning a shell do not raise by themselves, and different task ids
      name different status files. [OnDisk] gives the executor without
      the two assumptions on the storage directory. *)

From stdpp Require Import prelude strings pretty gmap relations.
From Stdlib.Strings Require Import Byte.

Set Warnings "-clear-no-such-hyp".

Local Open Scope string_scope.
Local Open Scope list_scope.

(** * Python outcomes *)

Module Py.

(** The exception classes the two modules raise or meet; [OSError]
    stands for its subclasses too ([FileNotFoundError], [PermissionError],
    ...). *)
Inductive exn : Type :=
  | ValueError (msg : string)
  | RuntimeError (msg : string)
  | KeyError (key : string)
  | UnicodeDecodeError (msg : string)
  | TaskDependencyError (msg : string)
  | OSError (msg : string).

(** [str(e)] *)
Definition str (e : exn) : string :=
  match e with
  | ValueError m | RuntimeError m | UnicodeDecodeError m
  | TaskDependencyError m | OSError m => m
  | KeyError k => "'" +:+ k +:+ "'"
  end.

(** What a call does: it returns, it raises, or the fuel given to a loop
    of the model ran out before the loop finished. *)
Inductive result (A : Type) : Type :=
  | Ok (a : A)
  | Raise (e : exn)
  | OutOfFuel.
Global Arguments Ok {A} a.
Global Arguments Raise {A} e.
Global Arguments OutOfFuel {A}.

Global Instance result_ret : MRet result := λ A a, Ok a.
Global Instance result_bind : MBind result := λ A B f m,
  match m with
  | Ok a => f a
  | Raise e => Raise e
  | OutOfFuel => OutOfFuel
  end.

Global Instance result_fmap : FMap result := λ A B f m,
  match m with
  | Ok a => Ok (f a)
  | Raise e => Raise e
  | OutOfFuel => OutOfFuel
  end.

Definition raises {A} (r : result A) : Prop := ∃ e, r = Raise e.

Global Instance raises_dec {A} (r : result A) : Decision (raises r).
Proof.
  destruct r as [a|e|]; [right|left|right]; unfold raises;
    [intros [? ?]; discriminate | eauto | intros [? ?]; discriminate].
Defined.

End Py.
Import Py.

(** * networkx.DiGraph, as far as the dependency manager uses it *)

Module nx.

(** Nodes carry the one attribute [execution_mode] (absent on a node that
    [add_edge] created); an edge [(u, v)] reads "v depends on u". *)
Record DiGraph : Type := {
  g_node : list (string * option string);
  g_edges : list (string * string);
}.

Definition empty : DiGraph := {| g_node := []; g_edges := [] |}.

(** [G.nodes], in insertion order *)
Definition nodes (G : DiGraph) : list string := (g_node G).*1.

(** [G.add_node(n, execution_mode=m)]: a new node is appended, the
    attribute of an existing one is overwritten in place. *)
Definition add_node (n : string) (execution_mode : string) (G : DiGraph) : DiGraph :=
  if decide (n ∈ nodes G) then
    {| g_node := (λ na : string * option string,
                    if decide (na.1 = n) then (n, Some execution_mode) else na)
                 <$> g_node G;
       g_edges := g_edges G |}
  else
    {| g_node := g_node G ++ [(n, Some execution_mode)];
       g_edges := g_edges G |}.

(** What [add_edge] does to an endpoint: a node that is not in the graph
    yet is created, with no attribute. *)
Definition touch_node (n : string) (G : DiGraph) : DiGraph :=
  if decide (n ∈ nodes G) then G
  else {| g_node := g_node G ++ [(n, None)]; g_edges := g_edges G |}.

(** [G.add_edge(u, v)]: both endpoints become nodes; an edge is kept once. *)
Definition add_edge (u v : string) (G : DiGraph) : DiGraph :=
  let G' := touch_node v (touch_node u G) in
  {| g_node := g_node G';
     g_edges := if decide ((u, v) ∈ g_edges G') then g_edges G'
                else g_edges G' ++ [(u, v)] |}.

(** [G.predecessors(v)] and [G.successors(u)] *)
Definition predecessors (G : DiGraph) (v : string) : list string :=
  (filter (λ e : string * string, e.2 = v) (g_edges G)).*1.

Definition successors (G : DiGraph) (u : string) : list string :=
  (filter (λ e : string * string, e.1 = u) (g_edges G)).*2.

(** [G.nodes[n]]: the attribute dictionary of [n], [KeyError] when [n] is
    not a node. *)
Definition node_attr (G : DiGraph) (n : string) : result (option string) :=
  match list_find (λ na : string * option string, na.1 = n) (g_node G) with
  | Some (_, na) => Ok na.2
  | None => Raise (KeyError n)
  end.

(** The depth-first search behind [find_cycle]: [path] holds the nodes of
    the active branch, innermost first; a successor that lies on the active
    branch closes a cycle. The search is written over a successor function
    so that it also runs on the reversed graph. *)
Fixpoint dfs (succ : string → list string) (fuel : nat)
    (path : list string) (v : string) : bool :=
  match fuel with
  | 0 => false
  | S fuel =>
      existsb (λ w, bool_decide (w ∈ v :: path) || dfs succ fuel (v :: path) w)
              (succ v)
  end.

(** [nx.find_cycle(G)]: [true] when a cycle is returned, [false] when
    [NetworkXNoCycle] is raised. A branch never holds a node twice, so a
    depth of [length (nodes G)] exhausts every branch. *)
Definition find_cycle (G : DiGraph) : bool :=
  existsb (dfs (successors G) (length (nodes G)) []) (nodes G).

(** ** Vocabulary of the specification *)

(** The invariant of a [DiGraph]: node keys are unique and every edge
    joins two nodes. *)
Record wf (G : DiGraph) : Prop := {
  wf_nodup : NoDup (nodes G);
  wf_edges : ∀ u v, (u, v) ∈ g_edges G → u ∈ nodes G ∧ v ∈ nodes G;
}.

Definition edge (G : DiGraph) : relation string := λ u v, (u, v) ∈ g_edges G.

(** A directed cycle: a non-empty closed walk along the edges. *)
Definition has_cycle (G : DiGraph) : Prop := ∃ v, tc (edge G) v v.

End nx.

(** * Task descriptors *)

(** A (sub)task dictionary: every key may be absent. *)
Record Task : Type := {
  t_id : option string;
  t_description : option string;
  t_command : option string;
  t_dependencies : option (list string);
  t_executionMode : option string;
}.

(** Iteration over a Python set of strings: some enumeration of its
    members, each once. *)
Record SetOrder : Type := {
  set_iter : gset string → list string;
  set_iter_perm : ∀ s, set_iter s ≡ₚ elements s;
}.

(** * task_dependencies.py *)

Module TaskDependencyManager.

Import nx.

Definition cycle_error : string := "Dependency cycle detected in tasks".

Definition missing_error (node predecessor : string) : string :=
  "Task " +:+ node +:+ " depends on missing task " +:+ predecessor.

Definition no_ready_error : string :=
  "Could not find next tasks to execute. This may indicate a cycle in the dependencies.".

Definition newline : string := String (Ascii.ascii_of_nat 10) "".

(** [add_task]: the node first, then one edge per dependency.
    networkx refuses [None] as a node. *)
Definition add_task (task_id : option string) (dependencies : list string)
    (execution_mode : string) (G : DiGraph) : result DiGraph :=
  match task_id with
  | None => Raise (ValueError "None cannot be a node")
  | Some t =>
      Ok (foldl (λ G dep, add_edge dep t G) (add_node t execution_mode G)
                dependencies)
  end.

(** [validate_dependencies]: the cycle check, then the scan for
    predecessors that are not nodes. *)
Definition validate_dependencies (G : DiGraph) : list string :=
  (if find_cycle G then [cycle_error] else []) ++
  (node ← nodes G;
   predecessor ← predecessors G node;
   if decide (predecessor ∈ nodes G) then []
   else [missing_error node predecessor]).

(** The first loop of [create_execution_plan], on a cleared graph. *)
Fixpoint add_tasks (tasks : list Task) (G : DiGraph) : result DiGraph :=
  match tasks with
  | [] => Ok G
  | task :: tasks =>
      G ← add_task (t_id task) (default [] (t_dependencies task))
                   (default "sequential" (t_executionMode task)) G;
      add_tasks tasks G
  end.

(** [remaining_tasks.remove(task_id)] *)
Definition set_remove (task_id : string) (remaining : gset string)
    : result (gset string) :=
  if decide (task_id ∈ remaining) then Ok (remaining ∖ {[task_id]})
  else Raise (KeyError task_id).

(** "Find tasks with no remaining dependencies" *)
Definition ready (G : DiGraph) (remaining : gset string) (task_id : string) : Prop :=
  list_to_set (predecessors G task_id) ∩ remaining = (∅ : gset string).

Global Instance ready_dec G remaining task_id : Decision (ready G remaining task_id).
Proof. unfold ready. apply _. Defined.

Definition ready_tasks (o : SetOrder) (G : DiGraph) (remaining : gset string)
    : list string :=
  filter (ready G remaining) (set_iter o remaining).

(** "Group the ready tasks by execution mode": the pair
    [(sequential_tasks, parallel_tasks)]. *)
Fixpoint group_by_mode (G : DiGraph) (ready_tasks : list string)
    (sequential_tasks parallel_tasks : list string)
    : result (list string * list string) :=
  match ready_tasks with
  | [] => Ok (sequential_tasks, parallel_tasks)
  | task_id :: ready_tasks =>
      attr ← node_attr G task_id;
      if decide (default "sequential" attr = "parallel")
      then group_by_mode G ready_tasks sequential_tasks (parallel_tasks ++ [task_id])
      else group_by_mode G ready_tasks (sequential_tasks ++ [task_id]) parallel_tasks
  end.

(** "Add sequential tasks individually" *)
Fixpoint add_sequential (sequential_tasks : list string)
    (execution_plan : list (list string)) (remaining : gset string)
    : result (list (list string) * gset string) :=
  match sequential_tasks with
  | [] => Ok (execution_plan, remaining)
  | task_id :: sequential_tasks =>
      remaining ← set_remove task_id remaining;
      add_sequential sequential_tasks (execution_plan ++ [[task_id]]) remaining
  end.

Fixpoint remove_all (tasks : list string) (remaining : gset string)
    : result (gset string) :=
  match tasks with
  | [] => Ok remaining
  | task_id :: tasks => remaining ← set_remove task_id remaining; remove_all tasks remaining
  end.

(** "Add parallel tasks as a group" *)
Definition add_parallel (parallel_tasks : list string)
    (execution_plan : list (list string)) (remaining : gset string)
    : result (list (list string) * gset string) :=
  match parallel_tasks with
  | [] => Ok (execution_plan, remaining)
  | _ => remaining ← remove_all parallel_tasks remaining;
         Ok (execution_plan ++ [parallel_tasks], remaining)
  end.

(** One pass of the body of [while remaining_tasks]. *)
Definition plan_round (o : SetOrder) (G : DiGraph)
    (execution_plan : list (list string)) (remaining : gset string)
    : result (list (list string) * gset string) :=
  let ready_tasks := ready_tasks o G remaining in
  if decide (ready_tasks = []) then Raise (TaskDependencyError no_ready_error)
  else
    '(sequential_tasks, parallel_tasks) ← group_by_mode G ready_tasks [] [];
    '(execution_plan, remaining) ←
        add_sequential sequential_tasks execution_plan remaining;
    add_parallel parallel_tasks execution_plan remaining.

(** [while remaining_tasks: ...] *)
Fixpoint plan_loop (o : SetOrder) (G : DiGraph) (fuel : nat)
    (execution_plan : list (list string)) (remaining : gset string)
    : result (list (list string)) :=
  if decide (remaining = ∅) then Ok execution_plan
  else match fuel with
       | 0 => OutOfFuel
       | S fuel =>
           '(execution_plan, remaining) ← plan_round o G execution_plan remaining;
           plan_loop o G fuel execution_plan remaining
       end.

(** [create_execution_plan] once the graph is built: validation, then the
    loop. Every round that does not raise takes a task out of
    [remaining_tasks], so one unit of fuel per node is enough
    ([create_execution_plan_total]). *)
Definition plan_graph (o : SetOrder) (G : DiGraph) : result (list (list string)) :=
  let errors := validate_dependencies G in
  if decide (errors = []) then
    plan_loop o G (length (nodes G)) [] (list_to_set (nodes G))
  else Raise (TaskDependencyError (String.concat newline errors)).

Definition create_execution_plan (o : SetOrder) (tasks : list Task)
    : result (list (list string)) :=
  G ← add_tasks tasks empty;
  plan_graph o G.

(** ** Vocabulary of the specification *)

(** The ids the descriptors declare, and the dependency relation they
    state: [depends tasks d t] when a descriptor with id [t] lists [d]. *)
Definition declared (tasks : list Task) : list string := omap t_id tasks.

Definition depends (tasks : list Task) : relation string := λ d t,
  ∃ task, task ∈ tasks ∧ t_id task = Some t ∧ d ∈ default [] (t_dependencies task).

Definition has_id (task : Task) : Prop := is_Some (t_id task).

(** The execution mode the planner reads off a node. *)
Definition mode (G : DiGraph) (t : string) : string :=
  match node_attr G t with
  | Ok attr => default "sequential" attr
  | _ => "sequential"
  end.

(** The stages a round appends for a given ready list: a singleton per
    ready task that is not parallel, in the order of the ready list, then
    the parallel ready tasks as one stage when there are any. *)
Definition round_stages (G : DiGraph) (ready_tasks : list string)
    : list (list string) :=
  ((λ t, [t]) <$> filter (λ t, mode G t ≠ "parallel") ready_tasks) ++
  (if decide (filter (λ t, mode G t = "parallel") ready_tasks = []) then []
   else [filter (λ t, mode G t = "parallel") ready_tasks]).

(** [earlier plan d t]: [d] is in a stage strictly before one that holds [t]. *)
Definition earlier (plan : list (list string)) (d t : string) : Prop :=
  ∃ i j si sj,
    plan !! i = Some si ∧ plan !! j = Some sj ∧ d ∈ si ∧ t ∈ sj ∧ (i < j)%nat.

(** The invariant of [while remaining_tasks]: the plan and the remaining
    set split the nodes, and whatever is planned has its predecessors in
    strictly earlier stages. *)
Record plan_inv (G : DiGraph) (plan : list (list string)) (R : gset string)
    : Prop := {
  inv_nodup : NoDup (concat plan);
  inv_cover : ∀ x, x ∈ nodes G ↔ x ∈ concat plan ∨ x ∈ R;
  inv_disjoint : ∀ x, x ∈ concat plan → x ∉ R;
  inv_earlier : ∀ j sj t p,
    plan !! j = Some sj → t ∈ sj → edge G p t →
    ∃ i si, plan !! i = Some si ∧ p ∈ si ∧ (i < j)%nat;
}.

(** The execution mode a task list states for an id: that of the last
    descriptor with the id, [sequential] when it gives none or when no
    descriptor has the id. *)
Definition stated_mode (tasks : list Task) (t : string) : string :=
  match last (filter (λ task, t_id task = Some t) tasks) with
  | Some task => default "sequential" (t_executionMode task)
  | None => "sequential"
  end.

(** [mode], on the list of nodes. *)
Definition lookup_mode (l : list (string * option string)) (t : string) : string :=
  match list_find (λ na : string * option string, na.1 = t) l with
  | Some (_, na) => default "sequential" na.2
  | None => "sequential"
  end.

End TaskDependencyManager.

(** Two enumerations of a set: the order [elements] computes, and its
    reverse. *)
Program Definition elements_order : SetOrder :=
  {| set_iter := elements |}.
Next Obligation. done. Qed.

Program Definition reverse_order : SetOrder :=
  {| set_iter := λ s, reverse (elements s) |}.
Next Obligation. intros s. apply reverse_Permutation. Qed.

(** * task_executor.py *)

Module TaskExecutor.

(** ** Data *)

Inductive TaskStatus : Type := PENDING | RUNNING | COMPLETED | FAILED | CANCELLED.

Global Instance TaskStatus_eq_dec : EqDecision TaskStatus.
Proof. solve_decision. Defined.

(** An entry of [task_status["subtasks"]]. *)
Record SubtaskStatus : Type := {
  s_id : string;
  s_status : TaskStatus;
  s_output : option string;
  s_error : option string;
}.

(** The [task_status] dictionary of [execute_task]. *)
Record TaskRecord : Type := {
  r_taskId : string;
  r_status : TaskStatus;
  r_subtasks : list SubtaskStatus;
  r_executionMode : string;
  r_startTime : string;
  r_endTime : option string;
  r_error : option string;
}.

(** The [task_data] dictionary given to [execute_task]. *)
Record TaskData : Type := {
  td_id : option string;
  td_subtasks : option (list Task);
  td_executionMode : option string;
}.

(** What [proc.communicate()] and [proc.returncode] give once the child
    has terminated. *)
Record Process : Type := {
  returncode : Z;
  stdout : list byte;
  stderr : list byte;
}.

(** The world outside the executor: what the [n]-th command handed to the
    shell does, and the clock. *)
Record World : Type := {
  shell : nat → string → Process;
  time_time : Z;
  isoformat_now : nat → string;
}.

(** The executor object and what it has done so far. [storage] lists the
    snapshots written under [storage_dir], oldest first: the file
    [<task_id>.json] holds the last one written for [task_id]. [spawned]
    lists the commands handed to the shell, oldest first. [clock] counts
    the readings of [datetime.now()]. Storage and the shell are taken to
    work: a write or a spawn does not itself raise. *)
Record Executor : Type := {
  dependency_manager : bool;
  active_tasks : gmap string TaskRecord;
  storage : list (string * TaskRecord);
  spawned : list string;
  clock : nat;
}.

(** ** Coroutines as state transformers that may raise *)

Definition M (A : Type) : Type := Executor → result A * Executor.

Global Instance M_ret : MRet M := λ A a s, (Ok a, s).
Global Instance M_bind : MBind M := λ A B f m s,
  match m s with
  | (Ok a, s') => f a s'
  | (Raise e, s') => (Raise e, s')
  | (OutOfFuel, s') => (OutOfFuel, s')
  end.

Definition raise {A} (e : exn) : M A := λ s, (Raise e, s).

Definition lift {A} (r : result A) : M A := λ s, (r, s).

(** [try: m except Exception as e: handler e] *)
Definition try_except {A} (m : M A) (handler : exn → M A) : M A := λ s,
  match m s with
  | (Raise e, s') => handler e s'
  | rs => rs
  end.

(** [try: m finally: final] *)
Definition try_finally {A} (m : M A) (final : M ()) : M A := λ s,
  match m s with
  | (OutOfFuel, s') => (OutOfFuel, s')
  | (r, s') =>
      match final s' with
      | (Ok _, s'') => (r, s'')
      | (Raise e, s'') => (Raise e, s'')
      | (OutOfFuel, s'') => (OutOfFuel, s'')
      end
  end.

Definition get_active (task_id : string) : M (option TaskRecord) := λ s,
  (Ok (active_tasks s !! task_id), s).

Definition set_active (task_id : string) (record : TaskRecord) : M () := λ s,
  (Ok (), {| dependency_manager := dependency_manager s;
             active_tasks := <[task_id := record]> (active_tasks s);
             storage := storage s;
             spawned := spawned s;
             clock := clock s |}).

(** [datetime.now().isoformat()] *)
Definition now (w : World) : M string := λ s,
  (Ok (isoformat_now w (clock s)),
   {| dependency_manager := dependency_manager s;
      active_tasks := active_tasks s;
      storage := storage s;
      spawned := spawned s;
      clock := S (clock s) |}).

(** [asyncio.create_subprocess_shell(command, ...)] followed by
    [proc.communicate()] *)
Definition create_subprocess_shell (w : World) (command : string) : M Process := λ s,
  (Ok (shell w (length (spawned s)) command),
   {| dependency_manager := dependency_manager s;
      active_tasks := active_tasks s;
      storage := storage s;
      spawned := spawned s ++ [command];
      clock := clock s |}).

(** ** bytes.decode() *)

Definition in_range (lo hi b : N) : bool := ((lo <=? b) && (b <=? hi))%N.

Definition continuation (b : N) : bool := in_range 0x80 0xBF b.

(** Well-formed UTF-8 (RFC 3629): no overlong forms, no surrogates,
    nothing above U+10FFFF. *)
Fixpoint utf8_valid (bs : list N) : bool :=
  match bs with
  | [] => true
  | b0 :: bs1 =>
      if (b0 <=? 0x7F)%N then utf8_valid bs1
      else if in_range 0xC2 0xDF b0 then
        match bs1 with
        | b1 :: bs2 => continuation b1 && utf8_valid bs2
        | _ => false
        end
      else if in_range 0xE0 0xEF b0 then
        match bs1 with
        | b1 :: b2 :: bs3 =>
            (if (b0 =? 0xE0)%N then in_range 0xA0 0xBF b1
             else if (b0 =? 0xED)%N then in_range 0x80 0x9F b1
             else continuation b1)
            && continuation b2 && utf8_valid bs3
        | _ => false
        end
      else if in_range 0xF0 0xF4 b0 then
        match bs1 with
        | b1 :: b2 :: b3 :: bs4 =>
            (if (b0 =? 0xF0)%N then in_range 0x90 0xBF b1
             else if (b0 =? 0xF4)%N then in_range 0x80 0x8F b1
             else continuation b1)
            && continuation b2 && continuation b3 && utf8_valid bs4
        | _ => false
        end
      else false
  end.

(** [data.decode()]: strict UTF-8. A Python [str] is held as the string of
    its UTF-8 bytes; the text of the decoding error (offending byte,
    position, reason) is not modelled. *)
Definition decode (data : list byte) : result string :=
  if utf8_valid (Byte.to_N <$> data) then Ok (String.string_of_list_byte data)
  else Raise (UnicodeDecodeError "'utf-8' codec can't decode bytes").

(** ** The executor's methods *)

(** [_save_task_status]: the snapshot of [status] is written to
    [<task_id>.json]. *)
Definition _save_task_status (task_id : string) (status : TaskRecord) : M () := λ s,
  (Ok (), {| dependency_manager := dependency_manager s;
             active_tasks := active_tasks s;
             storage := storage s ++ [(task_id, status)];
             spawned := spawned s;
             clock := clock s |}).

(** The loop of [_update_subtask_status]: the first entry with the id is
    updated, then [break]. *)
Fixpoint update_entry (subtasks : list SubtaskStatus) (subtask_id : string)
    (status : TaskStatus) (output error : option string) : list SubtaskStatus :=
  match subtasks with
  | [] => []
  | subtask :: subtasks =>
      if decide (s_id subtask = subtask_id) then
        {| s_id := s_id subtask;
           s_status := status;
           s_output := match output with Some _ => output | None => s_output subtask end;
           s_error := match error with Some _ => error | None => s_error subtask end |}
        :: subtasks
      else subtask :: update_entry subtasks subtask_id status output error
  end.

Definition with_subtasks (record : TaskRecord) (subtasks : list SubtaskStatus)
    : TaskRecord :=
  {| r_taskId := r_taskId record;
     r_status := r_status record;
     r_subtasks := subtasks;
     r_executionMode := r_executionMode record;
     r_startTime := r_startTime record;
     r_endTime := r_endTime record;
     r_error := r_error record |}.

Definition _update_subtask_status (task_id subtask_id : string)
    (status : TaskStatus) (output error : option string) : M () :=
  active ← get_active task_id;
  match active with
  | None => mret ()
  | Some record =>
      let record :=
        with_subtasks record
          (update_entry (r_subtasks record) subtask_id status output error) in
      set_active task_id record;;
      _save_task_status task_id record
  end.

(** [_execute_subtask]: the pair [(output, exitCode)] of the dictionary it
    returns. *)
Definition _execute_subtask (w : World) (subtask : Task) : M (string * Z) :=
  match t_command subtask with
  | None => raise (ValueError "Subtask command is required")
  | Some command =>
      if decide (command = "") then
        raise (ValueError "Subtask command is required")
      else
        proc ← create_subprocess_shell w command;
        if decide (returncode proc ≠ 0%Z) then
          text ← lift (decode (stderr proc));
          raise (RuntimeError ("Command failed with exit code "
                               +:+ pretty (returncode proc) +:+ ": " +:+ text))
        else
          output ← lift (decode (stdout proc));
          mret (output, returncode proc)
  end.

(** [f"subtask-{i}"] *)
Definition default_subtask_id (i : nat) : string := "subtask-" +:+ pretty i.

Definition subtask_id_of (i : nat) (subtask : Task) : string :=
  default (default_subtask_id i) (t_id subtask).

(** The [try]/[except] around one subtask that records its outcome and
    goes on: the body of [_execute_subtask_wrapper], and of the loop of
    [_execute_sequential]. *)
Definition _execute_subtask_wrapper (w : World) (task_id subtask_id : string)
    (subtask : Task) : M () :=
  try_except
    (result ← _execute_subtask w subtask;
     _update_subtask_status task_id subtask_id COMPLETED (Some result.1) None)
    (λ e, _update_subtask_status task_id subtask_id FAILED None (Some (str e))).

(** [_execute_sequential], from position [i] of [enumerate(subtasks)]. *)
Fixpoint _execute_sequential (w : World) (task_id : string) (i : nat)
    (subtasks : list Task) : M () :=
  match subtasks with
  | [] => mret ()
  | subtask :: subtasks =>
      let subtask_id := subtask_id_of i subtask in
      _update_subtask_status task_id subtask_id RUNNING None None;;
      _execute_subtask_wrapper w task_id subtask_id subtask;;
      _execute_sequential w task_id (S i) subtasks
  end.

(** [asyncio.gather] over the created tasks. The coroutines of a group touch different
    entries of the record; their interleaving is resolved in launch order,
    each running to its end once the whole group has been launched. *)
Fixpoint gather (tasks : list (M ())) : M () :=
  match tasks with
  | [] => mret ()
  | task :: tasks => task;; gather tasks
  end.

(** The launch loop of [_execute_parallel]: every subtask is marked
    RUNNING and its coroutine created. *)
Fixpoint launch_all (w : World) (task_id : string) (i : nat)
    (subtasks : list Task) (tasks : list (M ())) : M (list (M ())) :=
  match subtasks with
  | [] => mret tasks
  | subtask :: subtasks =>
      let subtask_id := subtask_id_of i subtask in
      _update_subtask_status task_id subtask_id RUNNING None None;;
      launch_all w task_id (S i) subtasks
        (tasks ++ [_execute_subtask_wrapper w task_id subtask_id subtask])
  end.

Definition _execute_parallel (w : World) (task_id : string)
    (subtasks : list Task) : M () :=
  tasks ← launch_all w task_id 0 subtasks [];
  gather tasks.

(** [bool(subtask)] for a dictionary: it has some key. *)
Definition truthy (subtask : Task) : bool :=
  bool_decide (is_Some (t_id subtask) ∨ is_Some (t_description subtask) ∨
               is_Some (t_command subtask) ∨ is_Some (t_dependencies subtask) ∨
               is_Some (t_executionMode subtask)).

(** The dictionary comprehension of [_execute_with_dependencies]: a later
    subtask with the same id replaces an earlier one. *)
Definition subtask_map (subtasks : list Task) : gmap string Task :=
  list_to_map (reverse (imap (λ i subtask, (subtask_id_of i subtask, subtask))
                             subtasks)).

(** The launch loop of a group of several subtasks. *)
Fixpoint launch_group (w : World) (task_id : string)
    (subtask_map : gmap string Task) (group : list string)
    (tasks : list (M ())) : M (list (M ())) :=
  match group with
  | [] => mret tasks
  | subtask_id :: group =>
      match subtask_map !! subtask_id with
      | Some subtask =>
          if truthy subtask then
            _update_subtask_status task_id subtask_id RUNNING None None;;
            launch_group w task_id subtask_map group
              (tasks ++ [_execute_subtask_wrapper w task_id subtask_id subtask])
          else launch_group w task_id subtask_map group tasks
      | None => launch_group w task_id subtask_map group tasks
      end
  end.

(** One group of the plan. A failure in a group of one is recorded and
    raised again. *)
Definition execute_group (w : World) (task_id : string)
    (subtask_map : gmap string Task) (group : list string) : M () :=
  match group with
  | [subtask_id] =>
      match subtask_map !! subtask_id with
      | Some subtask =>
          if truthy subtask then
            _update_subtask_status task_id subtask_id RUNNING None None;;
            try_except
              (result ← _execute_subtask w subtask;
               _update_subtask_status task_id subtask_id COMPLETED
                 (Some result.1) None)
              (λ e, _update_subtask_status task_id subtask_id FAILED None
                      (Some (str e));;
                    raise e)
          else mret ()
      | None => mret ()
      end
  | _ =>
      tasks ← launch_group w task_id subtask_map group [];
      gather tasks
  end.

Fixpoint execute_groups (w : World) (task_id : string)
    (subtask_map : gmap string Task) (execution_plan : list (list string))
    : M () :=
  match execution_plan with
  | [] => mret ()
  | group :: execution_plan =>
      execute_group w task_id subtask_map group;;
      execute_groups w task_id subtask_map execution_plan
  end.

Definition _execute_with_dependencies (w : World) (task_id : string)
    (subtasks : list Task) (execution_plan : list (list string)) : M () :=
  execute_groups w task_id (subtask_map subtasks) execution_plan.

(** "Extract dependencies": the defaults [execute_task] writes into the
    subtask dictionaries before planning. *)
Definition normalize (execution_mode : string) (i : nat) (subtask : Task) : Task :=
  {| t_id := Some (subtask_id_of i subtask);
     t_description := t_description subtask;
     t_command := t_command subtask;
     t_dependencies := Some (default [] (t_dependencies subtask));
     t_executionMode := Some (default execution_mode (t_executionMode subtask)) |}.

(** "Simple execution based on mode" *)
Definition execute_simple (w : World) (task_id : string)
    (execution_mode : string) (subtasks : list Task) : M () :=
  if decide (execution_mode = "parallel") then _execute_parallel w task_id subtasks
  else _execute_sequential w task_id 0 subtasks.

(** The body of the outer [try] of [execute_task], up to the line that
    marks the task completed: subtask processing. *)
Definition process_subtasks (w : World) (o : SetOrder) (task_id : string)
    (execution_mode : string) (subtasks : list Task) : M () := λ s,
  if dependency_manager s then
    let subtasks := imap (normalize execution_mode) subtasks in
    try_except
      (execution_plan ←
         lift (TaskDependencyManager.create_execution_plan o subtasks);
       _execute_with_dependencies w task_id subtasks execution_plan)
      (λ e, execute_simple w task_id execution_mode subtasks) s
  else execute_simple w task_id execution_mode subtasks s.

(** The first part of [execute_task]: defaults and the initial record. *)
Definition task_id_of (w : World) (task_data : TaskData) : string :=
  default ("task-" +:+ pretty (time_time w)) (td_id task_data).

Definition subtasks_of (task_data : TaskData) : list Task :=
  default [] (td_subtasks task_data).

Definition execution_mode_of (task_data : TaskData) : string :=
  default "sequential" (td_executionMode task_data).

Definition initial_status (w : World) (task_data : TaskData) (startTime : string)
    : TaskRecord :=
  {| r_taskId := task_id_of w task_data;
     r_status := RUNNING;
     r_subtasks :=
       imap (λ i st, {| s_id := subtask_id_of i st; s_status := PENDING;
                        s_output := None; s_error := None |})
            (subtasks_of task_data);
     r_executionMode := execution_mode_of task_data;
     r_startTime := startTime;
     r_endTime := None;
     r_error := None |}.

(** [task_status] is the dictionary stored under [task_id] in
    [active_tasks]: an assignment to one of its keys changes the stored
    record. [task_status0] is the record as first built; nothing takes the
    entry out of [active_tasks] during the call. *)
Definition update_task_status (task_id : string) (task_status0 : TaskRecord)
    (f : TaskRecord → TaskRecord) : M TaskRecord :=
  active ← get_active task_id;
  let task_status := f (default task_status0 active) in
  set_active task_id task_status;;
  mret task_status.

Definition set_status (status : TaskStatus) (error : option string)
    (record : TaskRecord) : TaskRecord :=
  {| r_taskId := r_taskId record;
     r_status := status;
     r_subtasks := r_subtasks record;
     r_executionMode := r_executionMode record;
     r_startTime := r_startTime record;
     r_endTime := r_endTime record;
     r_error := match error with Some _ => error | None => r_error record end |}.

Definition set_endTime (endTime : string) (record : TaskRecord) : TaskRecord :=
  {| r_taskId := r_taskId record;
     r_status := r_status record;
     r_subtasks := r_subtasks record;
     r_executionMode := r_executionMode record;
     r_startTime := r_startTime record;
     r_endTime := Some endTime;
     r_error := r_error record |}.

(** "Initialize task status" and "Store initial status" *)
Definition begin_task (w : World) (task_data : TaskData) : M TaskRecord :=
  startTime ← now w;
  let task_status := initial_status w task_data startTime in
  set_active (task_id_of w task_data) task_status;;
  _save_task_status (task_id_of w task_data) task_status;;
  mret task_status.

(** [return task_status] *)
Definition read_task_status (task_id : string) (task_status0 : TaskRecord)
    : M TaskRecord :=
  active ← get_active task_id;
  mret (default task_status0 active).

(** [try: ... except Exception as e: ... finally: ...] of [execute_task],
    around the subtask processing. *)
Definition try_processing (w : World) (task_id : string)
    (task_status0 : TaskRecord) (processing : M ()) : M TaskRecord :=
  try_finally
    (try_except
       (processing;;
        update_task_status task_id task_status0 (set_status COMPLETED None);;
        mret ())
       (λ e, update_task_status task_id task_status0
               (set_status FAILED (Some (str e)));;
             mret ()))
    (endTime ← now w;
     task_status ← update_task_status task_id task_status0 (set_endTime endTime);
     _save_task_status task_id task_status);;
  read_task_status task_id task_status0.

Definition execute_task (w : World) (o : SetOrder) (task_data : TaskData)
    : M TaskRecord :=
  task_status0 ← begin_task w task_data;
  try_processing w (task_id_of w task_data) task_status0
    (process_subtasks w o (task_id_of w task_data)
       (execution_mode_of task_data) (subtasks_of task_data)).

(** [get_task_status]: the active record, else the last snapshot on disk. *)
Definition read_file (task_id : string) (storage : list (string * TaskRecord))
    : option TaskRecord :=
  snd <$> last (filter (λ entry : string * TaskRecord, entry.1 = task_id) storage).

Definition get_task_status (task_id : string) : M (option TaskRecord) := λ s,
  (Ok (match active_tasks s !! task_id with
       | Some record => Some record
       | None => read_file task_id (storage s)
       end), s).

(** ** Vocabulary of the specification *)

(** A coroutine that always returns, and one that returns or raises. *)
Definition always_ok {A} (m : M A) : Prop := ∀ s, ∃ a s', m s = (Ok a, s').

Definition ok_or_raise {A} (m : M A) : Prop := ∀ s, (m s).1 ≠ OutOfFuel.

(** A coroutine that keeps a property of the executor. *)
Definition preserves (P : Executor → Prop) {A} (m : M A) : Prop :=
  ∀ s, P s → P (m s).2.

(** The status a snapshot records for a subtask. *)
Definition subtask_status_in (record : TaskRecord) (subtask_id : string)
    : option TaskStatus :=
  (λ found : nat * SubtaskStatus, s_status found.2) <$>
    list_find (λ st, s_id st = subtask_id) (r_subtasks record).

(** The statuses recorded for a subtask, in the order of the snapshots
    written for its task. *)
Definition status_history (task_id subtask_id : string)
    (storage : list (string * TaskRecord)) : list TaskStatus :=
  omap (λ entry : string * TaskRecord,
          if decide (entry.1 = task_id)
          then subtask_status_in entry.2 subtask_id else None)
       storage.

(** PENDING → RUNNING → terminal *)
Definition rank (status : TaskStatus) : nat :=
  match status with
  | PENDING => 0
  | RUNNING => 1
  | COMPLETED | FAILED | CANCELLED => 2
  end.

Definition forward_only (history : list TaskStatus) : Prop :=
  ∀ i j a b, (i < j)%nat → history !! i = Some a → history !! j = Some b →
             (rank a ≤ rank b)%nat.

(** The command a subtask gives the runner, if it gives one. *)
Definition command_of (subtask : Task) : option string :=
  match t_command subtask with
  | Some command => if decide (command = "") then None else Some command
  | None => None
  end.

(** C9 as the specification words it: the runner fails exactly when the
    command is absent or empty, or the process exits with a non-zero
    code. *)
Definition runner_fails_iff (w : World) (subtask : Task) (s : Executor) : Prop :=
  raises (_execute_subtask w subtask s).1 ↔
    match command_of subtask with
    | None => True
    | Some command => returncode (shell w (length (spawned s)) command) ≠ 0%Z
    end.

(** ** Vocabulary of the further properties *)

(** The executor after the first part of [execute_task]: the initial
    record is in [active_tasks] and on disk, and the clock has been read
    once. *)
Definition begun (w : World) (task_data : TaskData) (s : Executor) : Executor :=
  let task_status := initial_status w task_data (isoformat_now w (clock s)) in
  {| dependency_manager := dependency_manager s;
     active_tasks := <[task_id_of w task_data := task_status]> (active_tasks s);
     storage := storage s ++ [(task_id_of w task_data, task_status)];
     spawned := spawned s;
     clock := S (clock s) |}.

(** An entry as [execute_task] first writes it. *)
Definition untouched (entry : SubtaskStatus) : Prop :=
  s_status entry = PENDING ∧ s_output entry = None ∧ s_error entry = None.

(** An entry that has reached its end: COMPLETED with an output, or FAILED
    with an error. *)
Definition settled (entry : SubtaskStatus) : Prop :=
  (s_status entry = COMPLETED ∧ is_Some (s_output entry)) ∨
  (s_status entry = FAILED ∧ is_Some (s_error entry)).

(** What the entry under an id may look like while the subtasks of
    [running] are in flight and those of [waiting] have not been started:
    only those may be RUNNING, respectively PENDING. *)
Definition entry_ok (running waiting : gset string) (entry : SubtaskStatus)
    : Prop :=
  match s_status entry with
  | PENDING => s_id entry ∈ waiting ∧ s_output entry = None ∧ s_error entry = None
  | RUNNING => s_id entry ∈ running
  | COMPLETED => is_Some (s_output entry)
  | FAILED => is_Some (s_error entry)
  | CANCELLED => False
  end.

(** The entries of a record, read from the front: an entry whose id was
    [seen] before it is out of the reach of [_update_subtask_status]. *)
Fixpoint entries_ok (running waiting seen : gset string)
    (entries : list SubtaskStatus) : Prop :=
  match entries with
  | [] => True
  | entry :: entries =>
      (if decide (s_id entry ∈ seen) then untouched entry
       else entry_ok running waiting entry) ∧
      entries_ok running waiting ({[s_id entry]} ∪ seen) entries
  end.

Definition tracks (task_id : string) (running waiting : gset string)
    (s : Executor) : Prop :=
  ∃ record, active_tasks s !! task_id = Some record ∧
            entries_ok running waiting ∅ (r_subtasks record).

(** A coroutine started where [P] holds returns where [Q] holds or raises
    where [E] holds. *)
Definition triple {A} (P : Executor → Prop) (m : M A)
    (Q E : Executor → Prop) : Prop :=
  ∀ s, P s → match (m s).1 with
             | Ok _ => Q (m s).2
             | Raise _ => E (m s).2
             | OutOfFuel => False
             end.

(** The ids [enumerate(subtasks)] gives the subtasks, from position [i]. *)
Definition subtask_ids (i : nat) (subtasks : list Task) : list string :=
  imap (λ j, subtask_id_of (i + j)) subtasks.

(** A coroutine that settles the entry of [sid]. *)
Definition settles (task_id : string) (task : M ()) (sid : string) : Prop :=
  ∀ running waiting,
    triple (tracks task_id running waiting) task
      (tracks task_id (running ∖ {[sid]}) waiting) (λ _, False).

(** The ids of a group that name a subtask of the dictionary
    [_execute_with_dependencies] builds. *)
Definition named (subtask_map : gmap string Task) (group : list string)
    : gset string :=
  list_to_set (filter (λ sid, is_Some (subtask_map !! sid)) group).

(** A shell in which every command exits with 0 and writes UTF-8. *)
Definition succeeds (w : World) : Prop :=
  ∀ n command,
    returncode (shell w n command) = 0%Z ∧
    utf8_valid (Byte.to_N <$> stdout (shell w n command)) = true.

(** The executor has handed [commands] to the shell and no entry of the
    task is FAILED. *)
Definition unfailed (task_id : string) (commands : list string) (s : Executor)
    : Prop :=
  spawned s = commands ∧
  ∃ record, active_tasks s !! task_id = Some record ∧
            Forall (λ entry, s_status entry ≠ FAILED) (r_subtasks record).

(** A coroutine that hands one command to the shell and does not fail. *)
Definition runs_command (task_id : string) (task : M ()) (command : string)
    : Prop :=
  ∀ commands,
    triple (unfailed task_id commands) task
      (unfailed task_id (commands ++ [command])) (λ _, False).

(** The command of the subtask an id names. *)
Definition command_in (subtask_map : gmap string Task) (sid : string)
    : option string :=
  subtask_map !! sid ≫= command_of.

(** [commands] are the commands of the stages of [plan], stage after
    stage, those of one stage in some order. *)
Definition stagewise (subtask_map : gmap string Task) (plan : list (list string))
    (commands : list string) : Prop :=
  ∃ blocks,
    Forall2 (λ stage block, block ≡ₚ omap (command_in subtask_map) stage)
            plan blocks ∧
    commands = concat blocks.

End TaskExecutor.

(** * task_dependencies.py: the static helper on [task_data] *)

Module TaskDependencyHelpers.

Import TaskExecutor.

(** [TaskDependencyManager.get_task_dependencies]: the dictionary from
    each subtask's id ([None] when it has none) to its dependency list, a
    later subtask with the same id replacing an earlier one. *)
Definition get_task_dependencies (task_data : TaskData)
    : gmap (option string) (list string) :=
  foldl (λ dependencies subtask,
           <[t_id subtask := default [] (t_dependencies subtask)]> dependencies)
        ∅ (default [] (td_subtasks task_data)).

End TaskDependencyHelpers.

(** * The status endpoint of mcp_integration.py *)

Module mcp_integration.

Import TaskExecutor.

(** The three dictionaries [handle_task_status] returns. *)
Inductive Response : Type :=
  | Found (status : TaskRecord)   (* success: True, status: ... *)
  | NotFound (error : string)     (* success: False, error: ... *)
  | Failed (error : string).      (* error: ..., status: error *)

(** [TaskExecutor()]: a new executor object over the storage directory. *)
Definition new_executor (disk : list (string * TaskRecord)) : Executor :=
  {| dependency_manager := true; active_tasks := ∅; storage := disk;
     spawned := []; clock := 0 |}.

(** [handle_task_status]; [taskId] is [request.get(taskId)], a string
    when it is there, and [disk] what the storage directory holds. *)
Definition handle_task_status (taskId : option string)
    (disk : list (string * TaskRecord)) : Response :=
  match taskId with
  | Some task_id =>
      if decide (task_id = "") then
        Failed (str (ValueError "taskId parameter is required"))
      else
        match (get_task_status task_id (new_executor disk)).1 with
        | Ok (Some status) => Found status
        | Ok None => NotFound ("Task " +:+ task_id +:+ " not found")
        | Raise e => Failed (str e)
        | OutOfFuel => Failed ""
        end
  | None => Failed (str (ValueError "taskId parameter is required"))
  end.

End mcp_integration.

(** * task_executor.py over its storage directory *)

(** [TaskExecutor] above takes every write to succeed and different task
    ids to name different status files. Neither holds of every task id:
    [_save_task_status] opens [storage_dir / f"{task_id}.json"], which
    raises for [a/b] when [storage_dir] has no directory [a], and names
    one file for [a] and [./a]. [OnDisk] is the same code with the storage
    directory as a parameter; [TaskExecutor] is [OnDisk] over a directory
    in which every file can be written and ids name files one to one. *)

Module OnDisk.

Import TaskExecutor.

(** What the storage directory makes of a task id: the file that
    [storage_dir / f"{task_id}.json"] names, and the exception that
    opening a file for writing raises, if it raises. *)
Record Directory : Type := {
  status_file : string → string;
  open_w : string → option exn;
}.

Section directory.
Context (d : Directory).

(** [_save_task_status]: [open(status_file, 'w')] raises, or the snapshot
    of [status] is written. *)
Definition _save_task_status (task_id : string) (status : TaskRecord) : M () := λ s,
  match open_w d (status_file d task_id) with
  | Some e => (Raise e, s)
  | None =>
      (Ok (), {| dependency_manager := dependency_manager s;
                 active_tasks := active_tasks s;
                 storage := storage s ++ [(task_id, status)];
                 spawned := spawned s;
                 clock := clock s |})
  end.

Definition _update_subtask_status (task_id subtask_id : string)
    (status : TaskStatus) (output error : option string) : M () :=
  active ← get_active task_id;
  match active with
  | None => mret ()
  | Some record =>
      let record :=
        with_subtasks record
          (update_entry (r_subtasks record) subtask_id status output error) in
      set_active task_id record;;
      _save_task_status task_id record
  end.

Definition _execute_subtask_wrapper (w : World) (task_id subtask_id : string)
    (subtask : Task) : M () :=
  try_except
    (result ← _execute_subtask w subtask;
     _update_subtask_status task_id subtask_id COMPLETED (Some result.1) None)
    (λ e, _update_subtask_status task_id subtask_id FAILED None (Some (str e))).

Fixpoint _execute_sequential (w : World) (task_id : string) (i : nat)
    (subtasks : list Task) : M () :=
  match subtasks with
  | [] => mret ()
  | subtask :: subtasks =>
      let subtask_id := subtask_id_of i subtask in
      _update_subtask_status task_id subtask_id RUNNING None None;;
      _execute_subtask_wrapper w task_id subtask_id subtask;;
      _execute_sequential w task_id (S i) subtasks
  end.

Fixpoint launch_all (w : World) (task_id : string) (i : nat)
    (subtasks : list Task) (tasks : list (M ())) : M (list (M ())) :=
  match subtasks with
  | [] => mret tasks
  | subtask :: subtasks =>
      let subtask_id := subtask_id_of i subtask in
      _update_subtask_status task_id subtask_id RUNNING None None;;
      launch_all w task_id (S i) subtasks
        (tasks ++ [_execute_subtask_wrapper w task_id subtask_id subtask])
  end.

Definition _execute_parallel (w : World) (task_id : string)
    (subtasks : list Task) : M () :=
  tasks ← launch_all w task_id 0 subtasks [];
  gather tasks.

Fixpoint launch_group (w : World) (task_id : string)
    (subtask_map : gmap string Task) (group : list string)
    (tasks : list (M ())) : M (list (M ())) :=
  match group with
  | [] => mret tasks
  | subtask_id :: group =>
      match subtask_map !! subtask_id with
      | Some subtask =>
          if truthy subtask then
            _update_subtask_status task_id subtask_id RUNNING None None;;
            launch_group w task_id subtask_map group
              (tasks ++ [_execute_subtask_wrapper w task_id subtask_id subtask])
          else launch_group w task_id subtask_map group tasks
      | None => launch_group w task_id subtask_map group tasks
      end
  end.

Definition execute_group (w : World) (task_id : string)
    (subtask_map : gmap string Task) (group : list string) : M () :=
  match group with
  | [subtask_id] =>
      match subtask_map !! subtask_id with
      | Some subtask =>
          if truthy subtask then
            _update_subtask_status task_id subtask_id RUNNING None None;;
            try_except
              (result ← _execute_subtask w subtask;
               _update_subtask_status task_id subtask_id COMPLETED
                 (Some result.1) None)
              (λ e, _update_subtask_status task_id subtask_id FAILED None
                      (Some (str e));;
                    raise e)
          else mret ()
      | None => mret ()
      end
  | _ =>
      tasks ← launch_group w task_id subtask_map group [];
      gather tasks
  end.

Fixpoint execute_groups (w : World) (task_id : string)
    (subtask_map : gmap string Task) (execution_plan : list (list string))
    : M () :=
  match execution_plan with
  | [] => mret ()
  | group :: execution_plan =>
      execute_group w task_id subtask_map group;;
      execute_groups w task_id subtask_map execution_plan
  end.

Definition _execute_with_dependencies (w : World) (task_id : string)
    (subtasks : list Task) (execution_plan : list (list string)) : M () :=
  execute_groups w task_id (subtask_map subtasks) execution_plan.

Definition execute_simple (w : World) (task_id : string)
    (execution_mode : string) (subtasks : list Task) : M () :=
  if decide (execution_mode = "parallel") then _execute_parallel w task_id subtasks
  else _execute_sequential w task_id 0 subtasks.

Definition process_subtasks (w : World) (o : SetOrder) (task_id : string)
    (execution_mode : string) (subtasks : list Task) : M () := λ s,
  if dependency_manager s then
    let subtasks := imap (normalize execution_mode) subtasks in
    try_except
      (execution_plan ←
         lift (TaskDependencyManager.create_execution_plan o subtasks);
       _execute_with_dependencies w task_id subtasks execution_plan)
      (λ e, execute_simple w task_id execution_mode subtasks) s
  else execute_simple w task_id execution_mode subtasks s.

(** "Store initial status": the write is in front of the [try]. *)
Definition begin_task (w : World) (task_data : TaskData) : M TaskRecord :=
  startTime ← now w;
  let task_status := initial_status w task_data startTime in
  set_active (task_id_of w task_data) task_status;;
  _save_task_status (task_id_of w task_data) task_status;;
  mret task_status.

(** The [try] of [execute_task]; the write of its [finally] is not
    guarded. *)
Definition try_processing (w : World) (task_id : string)
    (task_status0 : TaskRecord) (processing : M ()) : M TaskRecord :=
  try_finally
    (try_except
       (processing;;
        update_task_status task_id task_status0 (set_status COMPLETED None);;
        mret ())
       (λ e, update_task_status task_id task_status0
               (set_status FAILED (Some (str e)));;
             mret ()))
    (endTime ← now w;
     task_status ← update_task_status task_id task_status0 (set_endTime endTime);
     _save_task_status task_id task_status);;
  read_task_status task_id task_status0.

Definition execute_task (w : World) (o : SetOrder) (task_data : TaskData)
    : M TaskRecord :=
  task_status0 ← begin_task w task_data;
  try_processing w (task_id_of w task_data) task_status0
    (process_subtasks w o (task_id_of w task_data)
       (execution_mode_of task_data) (subtasks_of task_data)).

(** [get_task_status]: the active record under the id, else the last
    snapshot written to the file the id names. *)
Definition read_file (task_id : string) (storage : list (string * TaskRecord))
    : option TaskRecord :=
  snd <$> last (filter (λ entry : string * TaskRecord,
                          status_file d entry.1 = status_file d task_id)
                       storage).

Definition get_task_status (task_id : string) : M (option TaskRecord) := λ s,
  (Ok (match active_tasks s !! task_id with
       | Some record => Some record
       | None => read_file task_id (storage s)
       end), s).

End directory.

(** The directory [TaskExecutor] assumes. *)
Definition working : Directory :=
  {| status_file := λ task_id, task_id; open_w := λ _, None |}.

End OnDisk.

(** * Scenarios *)

Module Scenarios.

Import nx TaskDependencyManager TaskExecutor.

Definition descriptor (task_id : string) (dependencies : list string)
    (execution_mode : string) : Task :=
  {| t_id := Some task_id; t_description := None; t_command := None;
     t_dependencies := Some dependencies;
     t_executionMode := Some execution_mode |}.

(** Scenario A: 2 and 3 parallel. *)
Definition scenario_A : list Task :=
  [descriptor "1" [] "sequential"; descriptor "2" ["1"] "parallel";
   descriptor "3" ["1"] "parallel"; descriptor "4" ["2"; "3"] "sequential"].

(** Scenario B: the same shape, all sequential. *)
Definition scenario_B : list Task :=
  [descriptor "1" [] "sequential"; descriptor "2" ["1"] "sequential";
   descriptor "3" ["1"] "sequential"; descriptor "4" ["2"; "3"] "sequential"].

(** Scenario D: the cycle 1 → 2 → 3 → 1. *)
Definition scenario_D : list Task :=
  [descriptor "1" ["3"] "sequential"; descriptor "2" ["1"] "sequential";
   descriptor "3" ["2"] "sequential"].

(** The task list of Test 3, for [create_execution_plan]. *)
Definition test_3_tasks : list Task :=
  [{| t_id := Some "task-1"; t_description := None; t_command := None;
      t_dependencies := Some []; t_executionMode := None |};
   {| t_id := Some "task-2"; t_description := None; t_command := None;
      t_dependencies := Some ["task-1"]; t_executionMode := None |};
   {| t_id := Some "task-3"; t_description := None; t_command := None;
      t_dependencies := Some ["missing-task"]; t_executionMode := None |}].

(** Test 3 of [_validate_task_dependencies]: three [add_task] calls, the
    last one naming a task that is never added. *)
Definition test_3_graph : result DiGraph :=
  G ← add_task (Some "task-1") [] "sequential" empty;
  G ← add_task (Some "task-2") ["task-1"] "sequential" G;
  add_task (Some "task-3") ["missing-task"] "sequential" G.

(** The graph of Scenario A. *)
Definition graph_A : DiGraph :=
  {| g_node := [("1", Some "sequential"); ("2", Some "parallel");
                ("3", Some "parallel"); ("4", Some "sequential")];
     g_edges := [("1", "2"); ("1", "3"); ("2", "4"); ("3", "4")] |}.

(** An executor that has not run anything yet. *)
Definition fresh_executor (dependency_manager : bool) : Executor :=
  {| dependency_manager := dependency_manager; active_tasks := ∅;
     storage := []; spawned := []; clock := 0 |}.

Definition subtask (subtask_id command : string) (dependencies : list string)
    : Task :=
  {| t_id := Some subtask_id; t_description := None; t_command := Some command;
     t_dependencies := Some dependencies; t_executionMode := None |}.

Definition bytes (s : string) : list byte := String.list_byte_of_string s.

(** A shell in which [exit 1] exits with code 1 and a message on standard
    error, and any other command exits with 0 and echoes its own text. *)
Definition exit_1_world : World :=
  {| shell := λ _ command,
       if decide (command = "exit 1")
       then {| returncode := 1; stdout := []; stderr := bytes "boom" |}
       else {| returncode := 0; stdout := bytes command; stderr := [] |};
     time_time := 1747735530;
     isoformat_now := λ n, "2025-05-20T10:15:3" +:+ pretty n |}.

(** Two sequential subtasks, the second depending on the first, the first
    one failing. The plan is [[a], [b]]. *)
Definition fail_then_dependent : TaskData :=
  {| td_id := Some "t";
     td_subtasks := Some [subtask "a" "exit 1" []; subtask "b" "echo b" ["a"]];
     td_executionMode := Some "sequential" |}.

(** A shell whose command exits with 0 after writing the single byte
    0xff, which is not UTF-8. *)
Definition binary_output_world : World :=
  {| shell := λ _ _, {| returncode := 0; stdout := [xff]; stderr := [] |};
     time_time := 1747735530;
     isoformat_now := λ n, "2025-05-20T10:15:3" +:+ pretty n |}.

(** Two subtasks that wait for each other. *)
Definition mutual_dependency : TaskData :=
  {| td_id := Some "t";
     td_subtasks := Some [subtask "a" "echo a" ["b"]; subtask "b" "echo b" ["a"]];
     td_executionMode := Some "sequential" |}.

(** A shell in which every command succeeds and prints [ok]. *)
Definition ok_world : World :=
  {| shell := λ _ _, {| returncode := 0; stdout := bytes "ok"; stderr := [] |};
     time_time := 1747735530;
     isoformat_now := λ n, "2025-05-20T10:15:3" +:+ pretty n |}.

(** Two subtasks, the second waiting for the first. *)
Definition build_then_test : TaskData :=
  {| td_id := Some "t";
     td_subtasks := Some [subtask "build" "make" []; subtask "test" "make test" ["build"]];
     td_executionMode := Some "sequential" |}.

(** A storage directory without subdirectories, for task ids that have
    no empty segment and no [.] segment: the status file of [a/b] is in a
    directory that does not exist, and opening it raises
    [FileNotFoundError]. *)
Definition no_subdirectory : OnDisk.Directory :=
  {| OnDisk.status_file := λ task_id, "task_data/" +:+ task_id +:+ ".json";
     OnDisk.open_w := λ file,
       if decide (file = "task_data/a/b.json")
       then Some (OSError ("[Errno 2] No such file or directory: '"
                           +:+ file +:+ "'"))
       else None |}.

(** A task without subtasks whose id has a slash. *)
Definition nested_id : TaskData :=
  {| td_id := Some "a/b"; td_subtasks := Some [];
     td_executionMode := Some "sequential" |}.

End Scenarios.

(* ================================================================== *)
(** * Properties of the graph operations *)

Module nx_facts.

Import nx.

Lemma wf_empty : wf empty.
Proof. split; [constructor | intros u v H; inversion H]. Qed.

Lemma elem_of_predecessors G u v : u ∈ predecessors G v ↔ edge G u v.
Proof.
  unfold predecessors, edge. rewrite list_elem_of_fmap. split.
  - intros [[a b] [-> [Hb Hin]%list_elem_of_filter]]. simpl in *. by subst.
  - intros H. exists (u, v). split; [done|]. by apply list_elem_of_filter.
Qed.

Lemma elem_of_successors G u v : v ∈ successors G u ↔ edge G u v.
Proof.
  unfold successors, edge. rewrite list_elem_of_fmap. split.
  - intros [[a b] [-> [Hb Hin]%list_elem_of_filter]]. simpl in *. by subst.
  - intros H. exists (u, v). split; [done|]. by apply list_elem_of_filter.
Qed.

Lemma nodes_add_node_old n m G : n ∈ nodes G → nodes (add_node n m G) = nodes G.
Proof.
  intros Hn. unfold add_node. rewrite decide_True by done.
  unfold nodes; simpl. rewrite <- list_fmap_compose.
  apply list_fmap_ext. intros i [a b] _. simpl. by case_decide; subst.
Qed.

Lemma nodes_add_node_new n m G : n ∉ nodes G → nodes (add_node n m G) = nodes G ++ [n].
Proof.
  intros Hn. unfold add_node. rewrite decide_False by done.
  unfold nodes; simpl. by rewrite fmap_app.
Qed.

Lemma elem_of_nodes_add_node x n m G :
  x ∈ nodes (add_node n m G) ↔ x = n ∨ x ∈ nodes G.
Proof.
  destruct (decide (n ∈ nodes G)) as [Hn|Hn].
  - rewrite nodes_add_node_old by done. naive_solver.
  - rewrite nodes_add_node_new by done. set_solver.
Qed.

Lemma edges_add_node n m G : g_edges (add_node n m G) = g_edges G.
Proof. unfold add_node. by case_decide. Qed.

Lemma wf_add_node n m G : wf G → wf (add_node n m G).
Proof.
  intros [Hnd He]. split.
  - destruct (decide (n ∈ nodes G)) as [Hn|Hn].
    + by rewrite nodes_add_node_old.
    + rewrite nodes_add_node_new by done. apply NoDup_app.
      split_and!; [done | set_solver | apply NoDup_singleton].
  - intros u v. rewrite edges_add_node, !elem_of_nodes_add_node. naive_solver.
Qed.

Lemma elem_of_nodes_touch_node x n G :
  x ∈ nodes (touch_node n G) ↔ x = n ∨ x ∈ nodes G.
Proof.
  unfold touch_node. case_decide; [naive_solver|].
  unfold nodes; simpl. rewrite fmap_app. set_solver.
Qed.

Lemma edges_touch_node n G : g_edges (touch_node n G) = g_edges G.
Proof. unfold touch_node. by case_decide. Qed.

Lemma wf_touch_node n G : wf G → wf (touch_node n G).
Proof.
  intros [Hnd He]. split.
  - unfold touch_node. case_decide; [done|]. unfold nodes in *; simpl.
    rewrite fmap_app. apply NoDup_app.
    split_and!; [done | set_solver | apply NoDup_singleton].
  - intros u v. rewrite edges_touch_node, !elem_of_nodes_touch_node. naive_solver.
Qed.

Lemma elem_of_nodes_add_edge x u v G :
  x ∈ nodes (add_edge u v G) ↔ x = u ∨ x = v ∨ x ∈ nodes G.
Proof.
  unfold add_edge, nodes at 1; simpl. fold (nodes (touch_node v (touch_node u G))).
  rewrite !elem_of_nodes_touch_node. naive_solver.
Qed.

Lemma elem_of_edges_add_edge e u v G :
  e ∈ g_edges (add_edge u v G) ↔ e = (u, v) ∨ e ∈ g_edges G.
Proof.
  unfold add_edge; simpl. rewrite !edges_touch_node.
  case_decide; set_solver.
Qed.

Lemma wf_add_edge u v G : wf G → wf (add_edge u v G).
Proof.
  intros HG. pose proof (wf_touch_node v _ (wf_touch_node u _ HG)) as [Hnd He].
  split; [done|].
  intros a b. rewrite elem_of_edges_add_edge, !elem_of_nodes_add_edge.
  intros [[= -> ->]|Hab]; [naive_solver|].
  destruct HG as [_ HG]. naive_solver.
Qed.

(** ** The depth-first search finds a cycle exactly when there is one *)

Section dfs.
Context (succ : string → list string).

Local Abbreviation E := (λ u v : string, v ∈ succ u).

(** Soundness: every node of the active branch reaches its tip, so a
    successor of the tip on the branch closes a walk. *)
Lemma dfs_sound fuel path v :
  (∀ w, w ∈ v :: path → rtc E w v) →
  dfs succ fuel path v = true → ∃ x, tc E x x.
Proof.
  revert path v. induction fuel as [|fuel IH]; intros path v Hchain; simpl;
    [done|].
  intros (w & Hw%list_elem_of_In & Hor)%existsb_exists.
  apply orb_true_iff in Hor as [Hback%bool_decide_eq_true|Hrec].
  - exists w. eapply tc_rtc_l; [by apply Hchain|]. by apply tc_once.
  - apply (IH (v :: path) w); [|done].
    intros x [->|Hx]%elem_of_cons; [done|].
    eapply rtc_r; [by apply Hchain|done].
Qed.

(** Completeness: inside a set in which every member has a successor in
    the set, the search can always step on, and the branch cannot grow
    beyond the nodes there are. *)
Lemma dfs_complete (universe : list string) (P : string → Prop) :
  (∀ x, P x → ∃ y, y ∈ succ x ∧ P y) →
  (∀ x, P x → x ∈ universe) →
  ∀ fuel path v,
    P v → NoDup (v :: path) → (∀ x, x ∈ path → x ∈ universe) →
    (length universe ≤ fuel + length path)%nat →
    dfs succ fuel path v = true.
Proof.
  intros Hstep Huniv. induction fuel as [|fuel IH];
    intros path v Hv Hnd Hpath Hlen; simpl.
  - assert (v :: path ⊆+ universe) as Hsub%submseteq_length.
    { apply NoDup_submseteq; [done|].
      intros x [->|Hx]%elem_of_cons; auto. }
    simpl in *. lia.
  - destruct (Hstep v Hv) as (y & Hy & HSy).
    apply existsb_exists. exists y. split; [by apply list_elem_of_In|].
    destruct (decide (y ∈ v :: path)) as [Hin|Hnin].
    + by rewrite bool_decide_eq_true_2.
    + rewrite bool_decide_eq_false_2 by done. simpl.
      apply IH; [done| by constructor | |simpl; lia].
      intros x [->|Hx]%elem_of_cons; auto.
Qed.
End dfs.

Lemma tc_impl {A} (R R' : relation A) x y :
  (∀ a b, R a b → R' a b) → tc R x y → tc R' x y.
Proof.
  intros HR. induction 1 as [x y H|x y z H _ IH].
  - apply tc_once; auto.
  - eapply tc_l; eauto.
Qed.

Lemma tc_flip {A} (R : relation A) x y : tc (flip R) x y → tc R y x.
Proof.
  induction 1 as [x y H|x y z H _ IH].
  - by apply tc_once.
  - eapply tc_r; eauto.
Qed.

(** A node on a cycle has a successor on a cycle. *)
Lemma cycle_step G y : tc (edge G) y y → ∃ z, edge G y z ∧ tc (edge G) z z.
Proof.
  intros Hy. inversion Hy as [? ? H|? z ? H Hz]; subst.
  - eauto.
  - exists z. split; [done|]. eapply tc_r; eauto.
Qed.

Lemma cycle_node G y : wf G → tc (edge G) y y → y ∈ nodes G.
Proof.
  intros [_ He] Hy. apply cycle_step in Hy as (z & Hz & _).
  by apply He in Hz as [? _].
Qed.

(** [find_cycle] returns a cycle exactly when the graph has one. *)
Lemma find_cycle_spec G : wf G → find_cycle G = true ↔ has_cycle G.
Proof.
  intros HG. unfold find_cycle, has_cycle. split.
  - intros (v & _ & Hdfs)%existsb_exists.
    apply dfs_sound in Hdfs as [x Hx].
    + exists x. eapply tc_impl; [|exact Hx].
      intros a b. apply elem_of_successors.
    + intros w ->%list_elem_of_singleton. done.
  - intros [x Hx]. apply existsb_exists. exists x.
    split; [by apply list_elem_of_In, cycle_node|].
    apply (dfs_complete _ (nodes G) (λ y, tc (edge G) y y)); simpl;
      [| by intros; apply cycle_node | done | apply NoDup_singleton
       | by intros ? ?%elem_of_nil | lia].
    intros y (z & Hz & Hzz)%cycle_step. exists z.
    split; [by apply elem_of_successors | done].
Qed.

Lemma find_cycle_false G : wf G → find_cycle G = false ↔ ¬ has_cycle G.
Proof.
  intros HG. rewrite <- find_cycle_spec by done. by destruct (find_cycle G).
Qed.

(** A non-empty set of nodes in which every member has a predecessor in
    the set lies on, or downstream of, a cycle. *)
Lemma closed_under_predecessors_cycle G (R : gset string) :
  R ≠ ∅ →
  (∀ x, x ∈ R → ∃ p, edge G p x ∧ p ∈ R) →
  has_cycle G.
Proof.
  intros [v Hv]%set_choose_L Hpred.
  assert (dfs (predecessors G) (length (elements R)) [] v = true) as Hdfs.
  { apply (dfs_complete _ (elements R) (λ y, y ∈ R)); simpl;
      [| by intros; apply elem_of_elements | done | apply NoDup_singleton
       | by intros ? ?%elem_of_nil | lia].
    intros x (p & Hp & HpR)%Hpred. exists p.
    split; [by apply elem_of_predecessors | done]. }
  apply dfs_sound in Hdfs as [x Hx].
  - exists x. apply tc_flip. eapply tc_impl; [|exact Hx].
    intros a b. simpl. apply elem_of_predecessors.
  - intros w ->%list_elem_of_singleton. done.
Qed.

End nx_facts.

(** * Properties of the dependency manager *)

Module TaskDependencyManager_facts.

Import nx nx_facts TaskDependencyManager.

(** ** Building the graph *)

Lemma add_edges_spec t deps G :
  let G' := foldl (λ G dep, add_edge dep t G) G deps in
  (wf G → wf G') ∧
  (∀ e, e ∈ g_edges G' ↔ e ∈ g_edges G ∨ ∃ d, d ∈ deps ∧ e = (d, t)) ∧
  (∀ x, x ∈ nodes G' ↔ x ∈ nodes G ∨ (deps ≠ [] ∧ x = t) ∨ x ∈ deps).
Proof.
  revert G. induction deps as [|d deps IH]; intros G; simpl.
  - split_and!; [done|set_solver|set_solver].
  - destruct (IH (add_edge d t G)) as (Hwf & He & Hn). split_and!.
    + intros HG. by apply Hwf, wf_add_edge.
    + intros e. rewrite He, elem_of_edges_add_edge. set_solver.
    + intros x. rewrite Hn, elem_of_nodes_add_edge.
      destruct deps; set_solver.
Qed.

Lemma add_task_spec t deps m G :
  ∃ G', add_task (Some t) deps m G = Ok G' ∧
    (wf G → wf G') ∧
    (∀ e, e ∈ g_edges G' ↔ e ∈ g_edges G ∨ ∃ d, d ∈ deps ∧ e = (d, t)) ∧
    (∀ x, x ∈ nodes G' ↔ x ∈ nodes G ∨ x = t ∨ x ∈ deps).
Proof.
  eexists. split; [done|].
  destruct (add_edges_spec t deps (add_node t m G)) as (Hwf & He & Hn).
  split_and!.
  - intros HG. by apply Hwf, wf_add_node.
  - intros e. by rewrite He, edges_add_node.
  - intros x. rewrite Hn, elem_of_nodes_add_node. naive_solver.
Qed.

Lemma elem_of_declared t tasks :
  t ∈ declared tasks ↔ ∃ task, task ∈ tasks ∧ t_id task = Some t.
Proof. unfold declared. by rewrite list_elem_of_omap. Qed.

Lemma depends_cons task tasks d t :
  depends (task :: tasks) d t ↔
    (t_id task = Some t ∧ d ∈ default [] (t_dependencies task)) ∨ depends tasks d t.
Proof. unfold depends. set_solver. Qed.

(** What the graph holds once every descriptor has been added. *)
Lemma add_tasks_Ok tasks G G' :
  add_tasks tasks G = Ok G' →
  (wf G → wf G') ∧
  (∀ u v, edge G' u v ↔ edge G u v ∨ depends tasks u v) ∧
  (∀ x, x ∈ nodes G' ↔
        x ∈ nodes G ∨ x ∈ declared tasks ∨ ∃ t, depends tasks x t).
Proof.
  revert G. induction tasks as [|task tasks IH]; intros G; simpl.
  - intros [= <-]. unfold depends, declared. split_and!; [done|set_solver|].
    intros x. simpl. set_solver.
  - destruct (t_id task) as [t|] eqn:Hid; [|done].
    destruct (add_task_spec t (default [] (t_dependencies task))
                (default "sequential" (t_executionMode task)) G)
      as (G1 & -> & Hwf1 & He1 & Hn1). simpl.
    intros (Hwf & He & Hn)%IH. split_and!.
    + auto.
    + intros u v. rewrite He. unfold edge. rewrite He1, depends_cons.
      split; [|naive_solver].
      intros [[?|(d & ? & [= -> ->])]|?]; auto.
    + intros x. rewrite Hn, Hn1. setoid_rewrite depends_cons.
      unfold declared; simpl. rewrite Hid; simpl. rewrite elem_of_cons.
      split; [naive_solver|].
      intros [?|[[->|?]|[t' [[? ?]|?]]]]; eauto 8.
Qed.

Lemma add_tasks_has_id tasks G :
  Forall has_id tasks → ∃ G', add_tasks tasks G = Ok G'.
Proof.
  intros H. revert G. induction H as [|task tasks [t Ht] _ IH]; intros G; simpl.
  - eauto.
  - rewrite Ht. simpl. apply IH.
Qed.

Lemma add_tasks_not_OutOfFuel tasks G : add_tasks tasks G ≠ OutOfFuel.
Proof.
  revert G. induction tasks as [|task tasks IH]; intros G; simpl; [done|].
  destruct (t_id task); simpl; [apply IH | done].
Qed.

(** ** One planning round *)

Lemma node_attr_Ok G x : x ∈ nodes G → ∃ attr, node_attr G x = Ok attr.
Proof.
  intros [[a b] [-> Hin]]%list_elem_of_fmap. unfold node_attr. simpl.
  destruct (list_find_elem_of (λ na : string * option string, na.1 = a)
              (g_node G) (a, b)) as [[i [a' b']] ->]; [done..|]. eauto.
Qed.

Lemma group_by_mode_Ok G l sequential_tasks parallel_tasks :
  (∀ x, x ∈ l → x ∈ nodes G) →
  group_by_mode G l sequential_tasks parallel_tasks =
    Ok (sequential_tasks ++ filter (λ t, mode G t ≠ "parallel") l,
        parallel_tasks ++ filter (λ t, mode G t = "parallel") l).
Proof.
  revert sequential_tasks parallel_tasks.
  induction l as [|x l IH]; intros sq pl Hl; simpl.
  - by rewrite !app_nil_r.
  - destruct (node_attr_Ok G x) as [attr Hattr]; [apply Hl; left|].
    assert (mode G x = default "sequential" attr) as Hmode
      by (unfold mode; by rewrite Hattr).
    rewrite Hattr. simpl. rewrite !filter_cons, <- Hmode.
    destruct (decide (mode G x = "parallel")) as [Hm|Hm];
      rewrite IH by (intros; apply Hl; by right).
    + rewrite decide_False by naive_solver. by rewrite <- app_assoc.
    + rewrite decide_True by done. by rewrite <- app_assoc.
Qed.

Lemma set_remove_Ok x (R : gset string) : x ∈ R → set_remove x R = Ok (R ∖ {[x]}).
Proof. intros. unfold set_remove. by rewrite decide_True. Qed.

Lemma add_sequential_Ok l plan (R : gset string) :
  NoDup l → (∀ x, x ∈ l → x ∈ R) →
  add_sequential l plan R = Ok (plan ++ ((λ t, [t]) <$> l), R ∖ list_to_set l).
Proof.
  revert plan R. induction l as [|x l IH]; intros plan R Hnd Hl; simpl.
  - rewrite app_nil_r. do 2 f_equal. set_solver.
  - apply NoDup_cons in Hnd as [Hx Hnd].
    rewrite set_remove_Ok by (apply Hl; left). simpl.
    rewrite IH; [|done|].
    + rewrite <- app_assoc. do 2 f_equal. set_solver.
    + intros y Hy. apply elem_of_difference. split; [apply Hl; by right|].
      set_solver.
Qed.

Lemma remove_all_Ok l (R : gset string) :
  NoDup l → (∀ x, x ∈ l → x ∈ R) → remove_all l R = Ok (R ∖ list_to_set l).
Proof.
  revert R. induction l as [|x l IH]; intros R Hnd Hl; simpl.
  - f_equal. set_solver.
  - apply NoDup_cons in Hnd as [Hx Hnd].
    rewrite set_remove_Ok by (apply Hl; left). simpl.
    rewrite IH; [|done|].
    + f_equal. set_solver.
    + intros y Hy. apply elem_of_difference. split; [apply Hl; by right|].
      set_solver.
Qed.

Lemma add_parallel_Ok l plan (R : gset string) :
  NoDup l → (∀ x, x ∈ l → x ∈ R) →
  add_parallel l plan R =
    Ok (plan ++ (if decide (l = []) then [] else [l]), R ∖ list_to_set l).
Proof.
  intros Hnd Hl. unfold add_parallel. destruct l as [|x l].
  - simpl. rewrite app_nil_r. do 2 f_equal. set_solver.
  - by rewrite remove_all_Ok.
Qed.

Lemma elem_of_ready_tasks o G R x :
  x ∈ ready_tasks o G R ↔ ready G R x ∧ x ∈ R.
Proof.
  unfold ready_tasks. rewrite list_elem_of_filter, (set_iter_perm o R).
  by rewrite elem_of_elements.
Qed.

Lemma NoDup_ready_tasks o G R : NoDup (ready_tasks o G R).
Proof.
  unfold ready_tasks. apply NoDup_filter. rewrite (set_iter_perm o R).
  apply NoDup_elements.
Qed.

(** The ready list depends on the enumeration only up to its order. *)
Lemma ready_tasks_perm o G R :
  ready_tasks o G R ≡ₚ filter (ready G R) (elements R).
Proof. unfold ready_tasks. by rewrite (set_iter_perm o R). Qed.

(** What a round does when some task is ready. *)
Lemma plan_round_Ok o G plan (R : gset string) :
  (∀ x, x ∈ R → x ∈ nodes G) →
  ready_tasks o G R ≠ [] →
  plan_round o G plan R =
    Ok (plan ++ round_stages G (ready_tasks o G R),
        R ∖ list_to_set (ready_tasks o G R)).
Proof.
  intros HR Hne. unfold plan_round. rewrite decide_False by done.
  pose proof (NoDup_ready_tasks o G R) as Hnd.
  assert (∀ x, x ∈ ready_tasks o G R → x ∈ R) as Hsub
    by (by intros x [_ ?]%elem_of_ready_tasks).
  rewrite group_by_mode_Ok by auto. simpl.
  rewrite add_sequential_Ok;
    [|by apply NoDup_filter|by intros x [_ ?]%list_elem_of_filter; auto].
  simpl. rewrite add_parallel_Ok; [|by apply NoDup_filter|].
  - unfold round_stages. rewrite <- app_assoc. do 2 f_equal.
    apply set_eq. intros x. rewrite !elem_of_difference, !elem_of_list_to_set,
      !list_elem_of_filter.
    destruct (decide (mode G x = "parallel")); naive_solver.
  - intros x [Hp Hx]%list_elem_of_filter. apply elem_of_difference.
    split; [auto|]. rewrite elem_of_list_to_set, list_elem_of_filter.
    naive_solver.
Qed.

Lemma concat_round_stages G l :
  concat (round_stages G l) ≡ₚ l.
Proof.
  unfold round_stages. rewrite concat_app.
  assert (∀ k : list string, concat ((λ t, [t]) <$> k) = k) as Hsingle.
  { induction k as [|y k IH]; simpl; [done|]. by f_equal. }
  rewrite Hsingle.
  assert (concat (if decide (filter (λ t, mode G t = "parallel") l = [])
                  then [] else [filter (λ t, mode G t = "parallel") l])
          = filter (λ t, mode G t = "parallel") l) as ->.
  { case_decide as H; simpl; [by rewrite H | by rewrite app_nil_r]. }
  induction l as [|x l IH]; [done|].
  rewrite !filter_cons. destruct (decide (mode G x = "parallel")).
  - rewrite decide_False by naive_solver.
    rewrite <- Permutation_middle. by f_equiv.
  - rewrite decide_True by naive_solver. simpl. by f_equiv.
Qed.

(** ** The planning loop *)

Lemma elem_of_concat (ls : list (list string)) x :
  x ∈ concat ls ↔ ∃ i l, ls !! i = Some l ∧ x ∈ l.
Proof.
  rewrite list_elem_of_In, in_concat. split.
  - intros (l & [i Hi]%list_elem_of_In%list_elem_of_lookup & Hx%list_elem_of_In).
    eauto.
  - intros (i & l & Hi%list_elem_of_lookup_2%list_elem_of_In & Hx%list_elem_of_In).
    eauto.
Qed.

Lemma plan_inv_init G : plan_inv G [] (list_to_set (nodes G)).
Proof.
  split; simpl.
  - constructor.
  - intros x. rewrite elem_of_list_to_set. set_solver.
  - by intros x ?%elem_of_nil.
  - by intros j sj t p ?.
Qed.

Lemma ready_nonempty o G (R : gset string) :
  ¬ has_cycle G → R ≠ ∅ → ready_tasks o G R ≠ [].
Proof.
  intros Hacyc HR Hnil. apply Hacyc.
  apply (closed_under_predecessors_cycle G R HR).
  intros x Hx.
  assert (¬ ready G R x) as Hnr.
  { intros Hr. assert (x ∈ ready_tasks o G R) as Hin
      by by apply elem_of_ready_tasks.
    rewrite Hnil in Hin. by apply elem_of_nil in Hin. }
  unfold ready in Hnr. apply set_choose_L in Hnr as [p Hp].
  apply elem_of_intersection in Hp as [Hp%elem_of_list_to_set HpR].
  exists p. split; [by apply elem_of_predecessors | done].
Qed.

Lemma plan_inv_round o G plan (R : gset string) :
  wf G → plan_inv G plan R →
  plan_inv G (plan ++ round_stages G (ready_tasks o G R))
             (R ∖ list_to_set (ready_tasks o G R)).
Proof.
  intros HG [Hnd Hcov Hdis Hearly].
  pose proof (concat_round_stages G (ready_tasks o G R)) as Hperm.
  split.
  - rewrite concat_app. apply NoDup_app. split_and!; [done| |].
    + intros x Hx. rewrite Hperm. intros [_ HxR]%elem_of_ready_tasks.
      by apply (Hdis x).
    + rewrite Hperm. apply NoDup_ready_tasks.
  - intros x. rewrite concat_app, elem_of_app, Hperm, Hcov,
      elem_of_difference, elem_of_list_to_set, !elem_of_ready_tasks.
    destruct (decide (ready G R x)); naive_solver.
  - intros x. rewrite concat_app, elem_of_app, Hperm,
      elem_of_difference, elem_of_list_to_set.
    intros [Hx|Hx]; [|naive_solver]. intros [HxR _]. by apply (Hdis x).
  - intros j sj t p Hj Ht Hpt.
    destruct (decide (j < length plan)%nat) as [Hlt|Hge].
    + rewrite lookup_app_l in Hj by done.
      destruct (Hearly j sj t p Hj Ht Hpt) as (i & si & Hi & Hp & Hij).
      exists i, si. split_and!; [|done..].
      rewrite lookup_app_l; [done|lia].
    + rewrite lookup_app_r in Hj by lia.
      assert (t ∈ ready_tasks o G R) as [Hready HtR]%elem_of_ready_tasks.
      { rewrite <- Hperm. apply elem_of_concat. eauto. }
      assert (p ∉ R) as HpR.
      { intros HpR. unfold ready in Hready.
        assert (p ∈ (list_to_set (predecessors G t) : gset string) ∩ R) as Hin.
        { apply elem_of_intersection. split; [|done].
          by apply elem_of_list_to_set, elem_of_predecessors. }
        rewrite Hready in Hin. by apply not_elem_of_empty in Hin. }
      assert (p ∈ concat plan) as (i & si & Hi & Hp)%elem_of_concat.
      { destruct (wf_edges G HG p t Hpt) as [Hpn _].
        apply Hcov in Hpn as [?|?]; done. }
      exists i, si. split_and!; [|done|].
      * rewrite lookup_app_l; [done|]. by eapply lookup_lt_Some.
      * apply lookup_lt_Some in Hi. lia.
Qed.

(** On an acyclic graph the loop returns, within the fuel, a plan that
    satisfies the invariant with nothing remaining. *)
Lemma plan_loop_Ok o G :
  wf G → ¬ has_cycle G →
  ∀ fuel plan (R : gset string),
    (size R ≤ fuel)%nat → plan_inv G plan R →
    ∃ plan', plan_loop o G fuel plan R = Ok plan' ∧ plan_inv G plan' ∅.
Proof.
  intros HG Hacyc. induction fuel as [|fuel IH]; intros plan R Hsize Hinv.
  - simpl. case_decide as HR; [subst; eauto|].
    exfalso. apply HR, leibniz_equiv, size_empty_inv. lia.
  - simpl. case_decide as HR; [subst; eauto|].
    pose proof (ready_nonempty o G R Hacyc HR) as Hne.
    rewrite plan_round_Ok; [simpl|by intros x ?; apply Hinv; right|done].
    apply IH; [|by apply plan_inv_round].
    destruct (ready_tasks o G R) as [|x l] eqn:Hrt; [done|].
    assert (x ∈ R) as HxR.
    { assert (x ∈ ready_tasks o G R) as [_ ?]%elem_of_ready_tasks; [|done].
      rewrite Hrt. left. }
    assert (R ∖ list_to_set (x :: l) ⊂ R) as Hlt%subset_size; [|lia].
    set_solver.
Qed.

(** ** Validation *)

Lemma bind_nil {A B} (f : A → list B) (l : list A) :
  (∀ x, x ∈ l → f x = []) → l ≫= f = [].
Proof.
  induction l as [|x l IH]; intros Hf; [done|].
  rewrite bind_cons, Hf, IH; [done| |left].
  intros y Hy. apply Hf. by right.
Qed.

(** Every endpoint of an edge is a node, so the scan for missing
    predecessors never finds one: the result is the cycle message or
    nothing. *)
Lemma validate_dependencies_wf G :
  wf G →
  validate_dependencies G = if find_cycle G then [cycle_error] else [].
Proof.
  intros HG. unfold validate_dependencies.
  rewrite (bind_nil _ (nodes G)); [by rewrite app_nil_r|].
  intros node _. apply bind_nil. intros p Hp%elem_of_predecessors.
  apply (wf_edges G HG) in Hp as [Hp _]. by rewrite decide_True.
Qed.

Lemma validate_dependencies_nil G :
  wf G → validate_dependencies G = [] ↔ ¬ has_cycle G.
Proof.
  intros HG. rewrite validate_dependencies_wf, <- find_cycle_false by done.
  by destruct (find_cycle G).
Qed.

(** No task list makes the validator report a missing dependency. *)
Lemma validate_dependencies_no_missing tasks G node predecessor :
  add_tasks tasks empty = Ok G →
  missing_error node predecessor ∉ validate_dependencies G.
Proof.
  intros (HG & _)%add_tasks_Ok.
  rewrite validate_dependencies_wf by (apply HG, wf_empty).
  destruct (find_cycle G); [|by intros ?%elem_of_nil].
  intros Hin%list_elem_of_singleton. discriminate Hin.
Qed.

(** ** The planner on a validated graph *)

Lemma plan_graph_Ok o G :
  wf G → ¬ has_cycle G →
  ∃ plan, plan_graph o G = Ok plan ∧ plan_inv G plan ∅.
Proof.
  intros HG Hacyc. unfold plan_graph.
  rewrite (proj2 (validate_dependencies_nil G HG) Hacyc). simpl.
  apply plan_loop_Ok; [done..| |apply plan_inv_init].
  rewrite size_list_to_set; [done|apply HG].
Qed.

Lemma plan_graph_cycle o G :
  wf G → has_cycle G →
  plan_graph o G = Raise (TaskDependencyError cycle_error).
Proof.
  intros HG Hcyc. unfold plan_graph.
  rewrite validate_dependencies_wf by done.
  by rewrite (proj2 (find_cycle_spec G HG) Hcyc).
Qed.

(** The planner never runs out of fuel, and the only exceptions it raises
    are networkx's refusal of a [None] id and the dependency error. *)
Lemma create_execution_plan_total o tasks :
  (∃ plan, create_execution_plan o tasks = Ok plan) ∨
  (∃ e, create_execution_plan o tasks = Raise e).
Proof.
  unfold create_execution_plan.
  destruct (add_tasks tasks empty) as [G|e|] eqn:HG; simpl; [|eauto|].
  - apply add_tasks_Ok in HG as [HG _]. specialize (HG wf_empty).
    destruct (find_cycle G) eqn:Hc.
    + right. apply find_cycle_spec in Hc; [|done].
      rewrite plan_graph_cycle by done. eauto.
    + left. apply find_cycle_false in Hc; [|done].
      destruct (plan_graph_Ok o G HG Hc) as (plan & -> & _). eauto.
  - by apply add_tasks_not_OutOfFuel in HG.
Qed.

End TaskDependencyManager_facts.

(** * Properties of the task executor *)

Module TaskExecutor_facts.

Import nx nx_facts TaskDependencyManager TaskDependencyManager_facts TaskExecutor.

Lemma always_ok_ok_or_raise {A} (m : M A) : always_ok m → ok_or_raise m.
Proof. intros H s. by destruct (H s) as (a & s' & ->). Qed.

Lemma always_ok_ret {A} (a : A) : always_ok (mret a).
Proof. intros s. by exists a, s. Qed.

Lemma always_ok_bind {A B} (m : M A) (f : A → M B) :
  always_ok m → (∀ a, always_ok (f a)) → always_ok (m ≫= f).
Proof.
  intros Hm Hf s. destruct (Hm s) as (a & s' & Hms).
  destruct (Hf a s') as (b & s'' & Hfs). exists b, s''.
  unfold mbind, M_bind. by rewrite Hms.
Qed.

Lemma ok_or_raise_bind {A B} (m : M A) (f : A → M B) :
  ok_or_raise m → (∀ a, ok_or_raise (f a)) → ok_or_raise (m ≫= f).
Proof.
  intros Hm Hf s. specialize (Hm s). unfold mbind, M_bind.
  destruct (m s) as [[a|e|] s']; simpl in *; [apply Hf|done..].
Qed.

Lemma ok_or_raise_raise {A} e : ok_or_raise (raise e : M A).
Proof. by intros s. Qed.

Lemma always_ok_try_except {A} (m : M A) (handler : exn → M A) :
  ok_or_raise m → (∀ e, always_ok (handler e)) → always_ok (try_except m handler).
Proof.
  intros Hm Hh s. specialize (Hm s). unfold try_except.
  destruct (m s) as [[a|e|] s']; simpl in *; [eauto|apply Hh|done].
Qed.

Lemma ok_or_raise_try_except {A} (m : M A) (handler : exn → M A) :
  ok_or_raise m → (∀ e, ok_or_raise (handler e)) →
  ok_or_raise (try_except m handler).
Proof.
  intros Hm Hh s. specialize (Hm s). unfold try_except.
  destruct (m s) as [[a|e|] s'] eqn:Hms; simpl in *; [done|apply Hh|done].
Qed.

Lemma always_ok_save task_id status : always_ok (_save_task_status task_id status).
Proof. intros s. by eexists _, _. Qed.

Lemma always_ok_set_active task_id record : always_ok (set_active task_id record).
Proof. intros s. by eexists _, _. Qed.

Lemma always_ok_update task_id subtask_id status output error :
  always_ok (_update_subtask_status task_id subtask_id status output error).
Proof.
  apply always_ok_bind; [by intros s; eexists _, _|].
  intros [record|]; [|apply always_ok_ret].
  apply always_ok_bind; [apply always_ok_set_active|].
  intros _. apply always_ok_save.
Qed.

Lemma ok_or_raise_lift {A} (r : result A) : r ≠ OutOfFuel → ok_or_raise (lift r).
Proof. by intros H s. Qed.

Lemma decode_not_OutOfFuel data : decode data ≠ OutOfFuel.
Proof. unfold decode. by case_match. Qed.

Lemma ok_or_raise_execute_subtask w subtask : ok_or_raise (_execute_subtask w subtask).
Proof.
  unfold _execute_subtask. destruct (t_command subtask) as [command|];
    [|apply ok_or_raise_raise].
  case_decide; [apply ok_or_raise_raise|].
  apply ok_or_raise_bind; [by intros s|]. intros proc.
  case_decide.
  - apply ok_or_raise_bind; [apply ok_or_raise_lift, decode_not_OutOfFuel|].
    intros ?. apply ok_or_raise_raise.
  - apply ok_or_raise_bind; [apply ok_or_raise_lift, decode_not_OutOfFuel|].
    intros ?. by intros s.
Qed.

Lemma always_ok_wrapper w task_id subtask_id subtask :
  always_ok (_execute_subtask_wrapper w task_id subtask_id subtask).
Proof.
  apply always_ok_try_except.
  - apply ok_or_raise_bind; [apply ok_or_raise_execute_subtask|].
    intros ?. apply always_ok_ok_or_raise, always_ok_update.
  - intros e. apply always_ok_update.
Qed.

Lemma always_ok_sequential w task_id i subtasks :
  always_ok (_execute_sequential w task_id i subtasks).
Proof.
  revert i. induction subtasks as [|subtask subtasks IH]; intros i; simpl.
  - apply always_ok_ret.
  - apply always_ok_bind; [apply always_ok_update|]. intros _.
    apply always_ok_bind; [apply always_ok_wrapper|]. intros _. apply IH.
Qed.

Lemma always_ok_gather tasks : Forall always_ok tasks → always_ok (gather tasks).
Proof.
  induction 1 as [|task tasks Htask _ IH]; simpl.
  - apply always_ok_ret.
  - apply always_ok_bind; [done|]. by intros _.
Qed.

Lemma launch_all_ok w task_id i subtasks tasks s :
  Forall always_ok tasks →
  ∃ tasks' s', launch_all w task_id i subtasks tasks s = (Ok tasks', s') ∧
               Forall always_ok tasks'.
Proof.
  revert i tasks s. induction subtasks as [|subtask subtasks IH];
    intros i tasks s Htasks; simpl.
  - by exists tasks, s.
  - destruct (always_ok_update task_id (subtask_id_of i subtask) RUNNING None None s)
      as ([] & s1 & Hs1).
    unfold mbind at 1, M_bind at 1. rewrite Hs1.
    apply IH. apply Forall_app. split; [done|].
    apply Forall_singleton, always_ok_wrapper.
Qed.

Lemma always_ok_parallel w task_id subtasks :
  always_ok (_execute_parallel w task_id subtasks).
Proof.
  intros s. unfold _execute_parallel.
  destruct (launch_all_ok w task_id 0 subtasks [] s) as (tasks & s1 & Hs1 & Htasks);
    [constructor|].
  unfold mbind, M_bind. rewrite Hs1. by apply always_ok_gather.
Qed.

Lemma always_ok_simple w task_id execution_mode subtasks :
  always_ok (execute_simple w task_id execution_mode subtasks).
Proof.
  unfold execute_simple. case_decide;
    [apply always_ok_parallel | apply always_ok_sequential].
Qed.

Lemma launch_group_ok w task_id m group tasks s :
  Forall always_ok tasks →
  ∃ tasks' s', launch_group w task_id m group tasks s = (Ok tasks', s') ∧
               Forall always_ok tasks'.
Proof.
  revert tasks s. induction group as [|subtask_id group IH];
    intros tasks s Htasks; simpl.
  - by exists tasks, s.
  - destruct (m !! subtask_id) as [subtask|]; [|by apply IH].
    destruct (truthy subtask); [|by apply IH].
    destruct (always_ok_update task_id subtask_id RUNNING None None s)
      as ([] & s1 & Hs1).
    unfold mbind at 1, M_bind at 1. rewrite Hs1.
    apply IH. apply Forall_app. split; [done|].
    apply Forall_singleton, always_ok_wrapper.
Qed.

Lemma ok_or_raise_several w task_id m group :
  ok_or_raise (tasks ← launch_group w task_id m group []; gather tasks).
Proof.
  apply always_ok_ok_or_raise. intros s.
  destruct (launch_group_ok w task_id m group [] s) as (tasks & s1 & Hs1 & Htasks);
    [constructor|].
  unfold mbind, M_bind. rewrite Hs1. by apply always_ok_gather.
Qed.

Lemma ok_or_raise_group w task_id m group :
  ok_or_raise (execute_group w task_id m group).
Proof.
  unfold execute_group.
  destruct group as [|subtask_id [|? ?]]; [apply ok_or_raise_several| |
    apply ok_or_raise_several].
  destruct (m !! subtask_id) as [subtask|]; [|by intros s].
  destruct (truthy subtask); [|by intros s].
  apply ok_or_raise_bind; [apply always_ok_ok_or_raise, always_ok_update|].
  intros _. apply ok_or_raise_try_except.
  - apply ok_or_raise_bind; [apply ok_or_raise_execute_subtask|].
    intros ?. apply always_ok_ok_or_raise, always_ok_update.
  - intros e. apply ok_or_raise_bind;
      [apply always_ok_ok_or_raise, always_ok_update|].
    intros _. apply ok_or_raise_raise.
Qed.

Lemma ok_or_raise_groups w task_id m execution_plan :
  ok_or_raise (execute_groups w task_id m execution_plan).
Proof.
  induction execution_plan as [|group execution_plan IH]; simpl.
  - by intros s.
  - apply ok_or_raise_bind; [apply ok_or_raise_group|]. by intros _.
Qed.

(** Subtask processing always returns: whatever the dependency-driven
    path raises is caught, and the simple modes record failures without
    raising. *)
Lemma always_ok_process_subtasks w o task_id execution_mode subtasks :
  always_ok (process_subtasks w o task_id execution_mode subtasks).
Proof.
  intros s. unfold process_subtasks.
  destruct (dependency_manager s); [|apply always_ok_simple].
  apply always_ok_try_except; [|intros e; apply always_ok_simple].
  apply ok_or_raise_bind.
  - apply ok_or_raise_lift.
    by destruct (create_execution_plan_total o
                   (imap (normalize execution_mode) subtasks))
      as [[plan ->]|[e ->]].
  - intros plan. apply ok_or_raise_groups.
Qed.

(** ** The record of a task stays in [active_tasks] *)

Section preserves.
Context (P : Executor → Prop).

Lemma preserves_ret {A} (a : A) : preserves P (mret a : M A).
Proof. by intros s. Qed.

Lemma preserves_raise {A} e : preserves P (raise e : M A).
Proof. by intros s. Qed.

Lemma preserves_lift {A} (r : result A) : preserves P (lift r).
Proof. by intros s. Qed.

Lemma preserves_bind {A B} (m : M A) (f : A → M B) :
  preserves P m → (∀ a, preserves P (f a)) → preserves P (m ≫= f).
Proof.
  intros Hm Hf s Hs. specialize (Hm s Hs). unfold mbind, M_bind.
  destruct (m s) as [[a|e|] s']; simpl in *; [by apply Hf|done..].
Qed.

Lemma preserves_try_except {A} (m : M A) (handler : exn → M A) :
  preserves P m → (∀ e, preserves P (handler e)) →
  preserves P (try_except m handler).
Proof.
  intros Hm Hh s Hs. specialize (Hm s Hs). unfold try_except.
  destruct (m s) as [[a|e|] s']; simpl in *; [done|by apply Hh|done].
Qed.

Lemma preserves_gather tasks : Forall (preserves P) tasks → preserves P (gather tasks).
Proof.
  induction 1 as [|task tasks Htask _ IH]; simpl.
  - apply preserves_ret.
  - apply preserves_bind; [done|]. by intros _.
Qed.
End preserves.

Section active.
Context (task_id : string).

Local Abbreviation active := (λ s : Executor, is_Some (active_tasks s !! task_id)).

Lemma active_update id subtask_id status output error :
  preserves active (_update_subtask_status id subtask_id status output error).
Proof.
  apply preserves_bind; [by intros s|].
  intros [record|]; [|apply preserves_ret].
  apply preserves_bind; [|by intros ? ?].
  intros s Hs. simpl. by apply lookup_insert_is_Some', or_intror.
Qed.

Lemma active_execute_subtask w subtask :
  preserves active (_execute_subtask w subtask).
Proof.
  unfold _execute_subtask. destruct (t_command subtask) as [command|];
    [|apply preserves_raise].
  case_decide; [apply preserves_raise|].
  apply preserves_bind; [by intros s|]. intros proc.
  case_decide; (apply preserves_bind; [apply preserves_lift|]); intros ?;
    [apply preserves_raise | apply preserves_ret].
Qed.

Lemma active_wrapper w id subtask_id subtask :
  preserves active (_execute_subtask_wrapper w id subtask_id subtask).
Proof.
  apply preserves_try_except.
  - apply preserves_bind; [apply active_execute_subtask|].
    intros ?. apply active_update.
  - intros e. apply active_update.
Qed.

Lemma active_sequential w id i subtasks :
  preserves active (_execute_sequential w id i subtasks).
Proof.
  revert i. induction subtasks as [|subtask subtasks IH]; intros i; simpl.
  - apply preserves_ret.
  - apply preserves_bind; [apply active_update|]. intros _.
    apply preserves_bind; [apply active_wrapper|]. intros _. apply IH.
Qed.

Lemma active_launch_all w id i subtasks tasks s :
  Forall (preserves active) tasks → active s →
  active (launch_all w id i subtasks tasks s).2 ∧
  ∀ tasks', (launch_all w id i subtasks tasks s).1 = Ok tasks' →
            Forall (preserves active) tasks'.
Proof.
  revert i tasks s. induction subtasks as [|subtask subtasks IH];
    intros i tasks s Htasks Hs; simpl.
  - split; [done|]. by intros ? [= <-].
  - pose proof (active_update id (subtask_id_of i subtask) RUNNING None None s Hs)
      as Hs1.
    destruct (always_ok_update id (subtask_id_of i subtask) RUNNING None None s)
      as ([] & s1 & Heq).
    unfold mbind at 1 2, M_bind at 1 2. rewrite Heq in *. simpl in Hs1.
    apply IH; [|done]. apply Forall_app. split; [done|].
    apply Forall_singleton, active_wrapper.
Qed.

Lemma active_parallel w id subtasks :
  preserves active (_execute_parallel w id subtasks).
Proof.
  intros s Hs. unfold _execute_parallel, mbind, M_bind.
  destruct (active_launch_all w id 0 subtasks [] s) as [Hs1 Htasks];
    [constructor|done|].
  destruct (launch_all w id 0 subtasks [] s) as [[tasks| |] s1]; simpl in *;
    [|done..].
  apply preserves_gather; [|done]. by apply Htasks.
Qed.

Lemma active_simple w id execution_mode subtasks :
  preserves active (execute_simple w id execution_mode subtasks).
Proof.
  unfold execute_simple. case_decide;
    [apply active_parallel | apply active_sequential].
Qed.

Lemma active_launch_group w id m group tasks s :
  Forall (preserves active) tasks → active s →
  active (launch_group w id m group tasks s).2 ∧
  ∀ tasks', (launch_group w id m group tasks s).1 = Ok tasks' →
            Forall (preserves active) tasks'.
Proof.
  revert tasks s. induction group as [|subtask_id group IH];
    intros tasks s Htasks Hs; simpl.
  - split; [done|]. by intros ? [= <-].
  - destruct (m !! subtask_id) as [subtask|]; [|by apply IH].
    destruct (truthy subtask); [|by apply IH].
    pose proof (active_update id subtask_id RUNNING None None s Hs) as Hs1.
    destruct (always_ok_update id subtask_id RUNNING None None s)
      as ([] & s1 & Heq).
    unfold mbind at 1 2, M_bind at 1 2. rewrite Heq in *. simpl in Hs1.
    apply IH; [|done]. apply Forall_app. split; [done|].
    apply Forall_singleton, active_wrapper.
Qed.

Lemma active_several w id m group :
  preserves active (tasks ← launch_group w id m group []; gather tasks).
Proof.
  intros s Hs. unfold mbind, M_bind.
  destruct (active_launch_group w id m group [] s) as [Hs1 Htasks];
    [constructor|done|].
  destruct (launch_group w id m group [] s) as [[tasks| |] s1]; simpl in *;
    [|done..].
  apply preserves_gather; [|done]. by apply Htasks.
Qed.

Lemma active_group w id m group : preserves active (execute_group w id m group).
Proof.
  unfold execute_group.
  destruct group as [|subtask_id [|? ?]]; [apply active_several| |
    apply active_several].
  destruct (m !! subtask_id) as [subtask|]; [|apply preserves_ret].
  destruct (truthy subtask); [|apply preserves_ret].
  apply preserves_bind; [apply active_update|].
  intros _. apply preserves_try_except.
  - apply preserves_bind; [apply active_execute_subtask|].
    intros ?. apply active_update.
  - intros e. apply preserves_bind; [apply active_update|].
    intros _. apply preserves_raise.
Qed.

Lemma active_groups w id m execution_plan :
  preserves active (execute_groups w id m execution_plan).
Proof.
  induction execution_plan as [|group execution_plan IH]; simpl.
  - apply preserves_ret.
  - apply preserves_bind; [apply active_group|]. by intros _.
Qed.

Lemma active_process_subtasks w o id execution_mode subtasks :
  preserves active (process_subtasks w o id execution_mode subtasks).
Proof.
  intros s Hs. unfold process_subtasks.
  destruct (dependency_manager s); [|by apply active_simple].
  apply preserves_try_except; [|intros e; apply active_simple|done].
  apply preserves_bind; [apply preserves_lift|].
  intros plan. apply active_groups.
Qed.
End active.

(** [task_status] and [active_tasks[task_id]] are one object all through
    [execute_task]: the entry made on entry is still there when subtask
    processing is over, so [update_task_status] never falls back on the
    record as first built. *)
Lemma task_status_stays_active w o task_data s :
  let task_id := task_id_of w task_data in
  let s0 := (begin_task w task_data s).2 in
  is_Some (active_tasks s0 !! task_id) ∧
  is_Some (active_tasks
             (process_subtasks w o task_id (execution_mode_of task_data)
                (subtasks_of task_data) s0).2 !! task_id).
Proof.
  intros task_id s0.
  assert (is_Some (active_tasks s0 !! task_id)) as Hs0.
  { unfold s0, begin_task, mbind, M_bind. simpl. by rewrite lookup_insert_eq. }
  split; [done|]. by apply active_process_subtasks.
Qed.

End TaskExecutor_facts.

(** * The executor over its storage directory and the executor above *)

Module OnDisk_facts.

Import TaskExecutor.

(** [TaskExecutor] is [OnDisk] over the working directory. *)
Lemma on_disk_working :
  OnDisk.execute_task OnDisk.working = execute_task ∧
  OnDisk.get_task_status OnDisk.working = get_task_status.
Proof. split; reflexivity. Qed.

Lemma bind_at {A B} (m m' : M A) (f : A → M B) s :
  m s = m' s → (m ≫= f) s = (m' ≫= f) s.
Proof. unfold mbind, M_bind. by intros ->. Qed.

Lemma try_except_at {A} (m m' : M A) (handler : exn → M A) s :
  m s = m' s → try_except m handler s = try_except m' handler s.
Proof. unfold try_except. by intros ->. Qed.

Lemma try_finally_at {A} (m m' : M A) (final : M ()) s :
  m s = m' s → try_finally m final s = try_finally m' final s.
Proof. unfold try_finally. by intros ->. Qed.

(** Where the status file of a task can be written, the code that works
    on the task does what it does in [TaskExecutor]. *)
Section writable.
Context (d : OnDisk.Directory) (task_id : string).
Context (writable : OnDisk.open_w d (OnDisk.status_file d task_id) = None).

Lemma on_disk_save : OnDisk._save_task_status d task_id = _save_task_status task_id.
Proof.
  unfold OnDisk._save_task_status, _save_task_status. by rewrite writable.
Qed.

Lemma on_disk_update :
  OnDisk._update_subtask_status d task_id = _update_subtask_status task_id.
Proof.
  unfold OnDisk._update_subtask_status, _update_subtask_status.
  by rewrite on_disk_save.
Qed.

Lemma on_disk_wrapper w :
  OnDisk._execute_subtask_wrapper d w task_id = _execute_subtask_wrapper w task_id.
Proof.
  unfold OnDisk._execute_subtask_wrapper, _execute_subtask_wrapper.
  by rewrite on_disk_update.
Qed.

Lemma on_disk_sequential w i subtasks :
  OnDisk._execute_sequential d w task_id i subtasks =
    _execute_sequential w task_id i subtasks.
Proof.
  revert i. induction subtasks as [|subtask subtasks IH]; intros i; [done|].
  cbn [OnDisk._execute_sequential _execute_sequential].
  by rewrite on_disk_update, on_disk_wrapper, IH.
Qed.

Lemma on_disk_launch_all w i subtasks tasks :
  OnDisk.launch_all d w task_id i subtasks tasks =
    launch_all w task_id i subtasks tasks.
Proof.
  revert i tasks. induction subtasks as [|subtask subtasks IH]; intros i tasks;
    [done|].
  cbn [OnDisk.launch_all launch_all].
  by rewrite on_disk_update, on_disk_wrapper, IH.
Qed.

Lemma on_disk_parallel w subtasks :
  OnDisk._execute_parallel d w task_id subtasks = _execute_parallel w task_id subtasks.
Proof.
  unfold OnDisk._execute_parallel, _execute_parallel.
  by rewrite on_disk_launch_all.
Qed.

Lemma on_disk_simple w execution_mode subtasks :
  OnDisk.execute_simple d w task_id execution_mode subtasks =
    execute_simple w task_id execution_mode subtasks.
Proof.
  unfold OnDisk.execute_simple, execute_simple.
  by rewrite on_disk_parallel, on_disk_sequential.
Qed.

Lemma on_disk_launch_group w m group tasks :
  OnDisk.launch_group d w task_id m group tasks =
    launch_group w task_id m group tasks.
Proof.
  revert tasks. induction group as [|sid group IH]; intros tasks; [done|].
  cbn [OnDisk.launch_group launch_group].
  destruct (m !! sid) as [subtask|]; [|done].
  destruct (truthy subtask); [|done].
  by rewrite on_disk_update, on_disk_wrapper, IH.
Qed.

Lemma on_disk_group w m group :
  OnDisk.execute_group d w task_id m group = execute_group w task_id m group.
Proof.
  unfold OnDisk.execute_group, execute_group.
  destruct group as [|sid [|sid' group]];
    rewrite ?on_disk_launch_group, ?on_disk_update; done.
Qed.

Lemma on_disk_groups w m execution_plan :
  OnDisk.execute_groups d w task_id m execution_plan =
    execute_groups w task_id m execution_plan.
Proof.
  induction execution_plan as [|group execution_plan IH]; [done|].
  cbn [OnDisk.execute_groups execute_groups]. by rewrite on_disk_group, IH.
Qed.

Lemma on_disk_process_subtasks w o execution_mode subtasks s :
  OnDisk.process_subtasks d w o task_id execution_mode subtasks s =
    process_subtasks w o task_id execution_mode subtasks s.
Proof.
  unfold OnDisk.process_subtasks, process_subtasks.
  destruct (dependency_manager s); [|by rewrite on_disk_simple].
  rewrite on_disk_simple.
  unfold OnDisk._execute_with_dependencies, _execute_with_dependencies.
  unfold try_except, mbind, M_bind, lift.
  destruct (TaskDependencyManager.create_execution_plan _ _); [|done..].
  by rewrite on_disk_groups.
Qed.

Lemma on_disk_begin_task w task_data :
  task_id_of w task_data = task_id →
  OnDisk.begin_task d w task_data = begin_task w task_data.
Proof.
  intros Hid. unfold OnDisk.begin_task, begin_task.
  by rewrite Hid, on_disk_save.
Qed.

Lemma on_disk_try_processing w task_status0 (processing processing' : M ()) s :
  processing s = processing' s →
  OnDisk.try_processing d w task_id task_status0 processing s =
    try_processing w task_id task_status0 processing' s.
Proof.
  intros Hp. unfold OnDisk.try_processing, try_processing.
  rewrite on_disk_save.
  by apply bind_at, try_finally_at, try_except_at, bind_at.
Qed.
End writable.

Lemma on_disk_execute_task d w o task_data s :
  OnDisk.open_w d (OnDisk.status_file d (task_id_of w task_data)) = None →
  OnDisk.execute_task d w o task_data s = execute_task w o task_data s.
Proof.
  intros Hd. unfold OnDisk.execute_task, execute_task.
  rewrite (on_disk_begin_task d _ Hd) by done.
  unfold mbind at 1 2, M_bind at 1 2.
  destruct (begin_task w task_data s) as [[task_status0| |] s0]; [|done..].
  apply on_disk_try_processing; [done|]. by apply on_disk_process_subtasks.
Qed.

(** Where it cannot be written, [execute_task] raises what the first
    write raises, with the initial record left in [active_tasks]. *)
Lemma on_disk_unwritable d w o task_data s e :
  OnDisk.open_w d (OnDisk.status_file d (task_id_of w task_data)) = Some e →
  OnDisk.execute_task d w o task_data s =
    (Raise e,
     {| dependency_manager := dependency_manager s;
        active_tasks :=
          <[task_id_of w task_data :=
              initial_status w task_data (isoformat_now w (clock s))]>
            (active_tasks s);
        storage := storage s;
        spawned := spawned s;
        clock := S (clock s) |}).
Proof.
  intros Hd. unfold OnDisk.execute_task, OnDisk.begin_task,
    OnDisk._save_task_status, mbind, M_bind. simpl. by rewrite Hd.
Qed.

End OnDisk_facts.

(** * The specification of the planner and the validator *)

Module PlannerSpec.

Import nx nx_facts TaskDependencyManager TaskDependencyManager_facts Scenarios.

(** What the graph of a task list looks like, in terms of the list. *)
Lemma graph_of_tasks tasks G :
  add_tasks tasks empty = Ok G →
  wf G ∧
  (∀ u v, edge G u v ↔ depends tasks u v) ∧
  (∀ x, x ∈ nodes G ↔ x ∈ declared tasks ∨ ∃ t, depends tasks x t).
Proof.
  intros (Hwf & He & Hn)%add_tasks_Ok. split_and!.
  - apply Hwf, wf_empty.
  - intros u v. rewrite He. unfold edge, empty; simpl. set_solver.
  - intros x. rewrite Hn. unfold nodes, empty; simpl. set_solver.
Qed.

Lemma has_cycle_depends tasks G :
  add_tasks tasks empty = Ok G →
  has_cycle G ↔ ∃ t, tc (depends tasks) t t.
Proof.
  intros (_ & He & _)%graph_of_tasks. unfold has_cycle.
  split; intros [t Ht]; exists t; (eapply tc_impl; [|exact Ht]);
    intros a b; apply He.
Qed.

(** Acyclicity and closedness of a concrete task list can be read off the
    graph by computation. *)
Lemma acyclic_by_find_cycle tasks G :
  add_tasks tasks empty = Ok G → find_cycle G = false →
  ∀ t, ¬ tc (depends tasks) t t.
Proof.
  intros HG Hfc t Ht. pose proof HG as (Hwf & _)%graph_of_tasks.
  apply (find_cycle_false G Hwf) in Hfc. apply Hfc.
  apply (has_cycle_depends tasks G HG). eauto.
Qed.

Lemma cyclic_by_find_cycle tasks G :
  add_tasks tasks empty = Ok G → find_cycle G = true → has_cycle G.
Proof.
  intros (Hwf & _)%graph_of_tasks Hfc. by apply find_cycle_spec.
Qed.

Lemma closed_by_nodes tasks G :
  add_tasks tasks empty = Ok G →
  Forall (λ x, x ∈ declared tasks) (nodes G) →
  ∀ d t, depends tasks d t → d ∈ declared tasks.
Proof.
  intros (_ & _ & Hn)%graph_of_tasks Hall d t Hdt.
  rewrite Forall_forall in Hall. apply Hall, Hn. eauto.
Qed.

Lemma has_id_descriptors tasks :
  forallb (λ task, bool_decide (is_Some (t_id task))) tasks = true →
  Forall has_id tasks.
Proof.
  intros H. apply Forall_forall. intros task Hin%list_elem_of_In.
  rewrite forallb_forall in H. by apply H, bool_decide_eq_true in Hin.
Qed.

(** C1. For every list of task descriptors whose dependency relation is
    acyclic and names only declared ids, [create_execution_plan] returns a
    stage list whose concatenation holds every task id exactly once, and
    each dependency of a task is in a strictly earlier stage than the
    task. *)
Theorem create_execution_plan_sound (o : SetOrder) (tasks : list Task) :
  Forall has_id tasks →
  (∀ d t, depends tasks d t → d ∈ declared tasks) →
  (∀ t, ¬ tc (depends tasks) t t) →
  ∃ plan,
    create_execution_plan o tasks = Ok plan ∧
    NoDup (concat plan) ∧
    (∀ t, t ∈ declared tasks ↔ t ∈ concat plan) ∧
    (∀ d t, depends tasks d t → earlier plan d t).
Proof.
  intros Hids Hclosed Hacyc.
  destruct (add_tasks_has_id tasks empty Hids) as [G HG].
  pose proof (graph_of_tasks tasks G HG) as (Hwf & He & Hn).
  assert (¬ has_cycle G) as HacycG.
  { rewrite (has_cycle_depends tasks G HG). intros [t Ht]. by apply (Hacyc t). }
  destruct (plan_graph_Ok o G Hwf HacycG) as (plan & Hplan & [Hnd Hcov _ Hearly]).
  exists plan. unfold create_execution_plan. rewrite HG. simpl.
  split_and!; [done..| |].
  - intros t. split.
    + intros Hd. assert (t ∈ nodes G) as [?|?%not_elem_of_empty]%Hcov;
        [apply Hn; auto|done..].
    + intros Hp. assert (t ∈ nodes G) as [?|[t' ?]]%Hn;
        [apply Hcov; auto|done|eauto].
  - intros d t Hdt.
    assert (t ∈ concat plan) as (j & sj & Hj & Ht)%elem_of_concat.
    { destruct Hdt as (task & ? & ? & _).
      assert (t ∈ nodes G) as [?|?%not_elem_of_empty]%Hcov; [|done..].
      apply Hn. left. apply elem_of_declared. eauto. }
    destruct (Hearly j sj t d Hj Ht) as (i & si & Hi & Hd & Hij);
      [by apply He|].
    by exists i, j, si, sj.
Qed.

Lemma create_execution_plan_sound_witness :
  ∃ plan,
    create_execution_plan elements_order scenario_A = Ok plan ∧
    NoDup (concat plan) ∧
    (∀ t, t ∈ declared scenario_A ↔ t ∈ concat plan) ∧
    (∀ d t, depends scenario_A d t → earlier plan d t).
Proof.
  apply create_execution_plan_sound.
  - apply has_id_descriptors. vm_compute. reflexivity.
  - eapply closed_by_nodes; [vm_compute; reflexivity|].
    apply Forall_forall. intros x Hx.
    apply (bool_decide_unpack _).
    revert x Hx. apply Forall_forall. apply (bool_decide_unpack _).
    vm_compute. reflexivity.
  - eapply acyclic_by_find_cycle; vm_compute; reflexivity.
Defined.

(** C2. A dependency id that no descriptor declares should make
    [validate_dependencies] report a missing-dependency error naming the
    dependent and the missing id. It does not: on Test 3 of the module's
    own [_validate_task_dependencies], which asserts that such an error is
    reported for [task-3] and [missing-task], the validator returns the
    empty list, because [add_edge] has made [missing-task] a node by the
    time the scan looks for it; planning is not refused either, and the
    plan holds a stage for [missing-task]. *)
Theorem missing_dependency_not_reported :
  validate_dependencies <$> test_3_graph = Ok [] ∧
  (λ G, bool_decide ("missing-task" ∈ nodes G)) <$> test_3_graph = Ok true ∧
  add_tasks test_3_tasks empty = test_3_graph ∧
  (λ plan, bool_decide (["missing-task"] ∈ plan))
    <$> create_execution_plan elements_order test_3_tasks = Ok true.
Proof. split_and!; vm_compute; reflexivity. Qed.

(** C3. On a graph with a directed cycle, [validate_dependencies]
    returns exactly the one cycle message, however many cycles there are,
    and [create_execution_plan] raises the dependency error. *)
Theorem cycle_is_refused (o : SetOrder) (tasks : list Task) (G : DiGraph) :
  add_tasks tasks empty = Ok G →
  has_cycle G →
  validate_dependencies G = [cycle_error] ∧
  create_execution_plan o tasks = Raise (TaskDependencyError cycle_error).
Proof.
  intros HG Hcyc. pose proof HG as (Hwf & _)%graph_of_tasks. split.
  - rewrite validate_dependencies_wf by done.
    by rewrite (proj2 (find_cycle_spec G Hwf) Hcyc).
  - unfold create_execution_plan. rewrite HG. simpl.
    by apply plan_graph_cycle.
Qed.

Lemma cycle_is_refused_witness :
  ∃ G, add_tasks scenario_D empty = Ok G ∧ has_cycle G ∧
       validate_dependencies G = [cycle_error] ∧
       create_execution_plan reverse_order scenario_D
         = Raise (TaskDependencyError cycle_error).
Proof.
  eexists. split; [vm_compute; reflexivity|].
  match goal with
  | |- has_cycle ?G ∧ _ =>
      assert (has_cycle G) as Hcyc
        by (eapply (cyclic_by_find_cycle scenario_D); vm_compute; reflexivity)
  end.
  split; [exact Hcyc|].
  apply (cycle_is_refused reverse_order scenario_D); [vm_compute; reflexivity|].
  exact Hcyc.
Defined.

(** C5. On a graph that passed validation every non-empty remaining set
    holds a ready task, so the branch that raises "Could not find next
    tasks to execute" is never taken, and the planner returns a plan. *)
Theorem validated_graph_is_planned (o : SetOrder) (tasks : list Task) (G : DiGraph) :
  add_tasks tasks empty = Ok G →
  validate_dependencies G = [] →
  (∀ R : gset string, R ≠ ∅ → ready_tasks o G R ≠ []) ∧
  (∃ plan, create_execution_plan o tasks = Ok plan) ∧
  create_execution_plan o tasks ≠ Raise (TaskDependencyError no_ready_error).
Proof.
  intros HG Hvalid. pose proof HG as (Hwf & _)%graph_of_tasks.
  apply (validate_dependencies_nil G Hwf) in Hvalid.
  destruct (plan_graph_Ok o G Hwf Hvalid) as (plan & Hplan & _).
  unfold create_execution_plan. rewrite HG. simpl. rewrite Hplan.
  split_and!; [|eauto|done].
  intros R HR. by apply ready_nonempty.
Qed.

Lemma validated_graph_is_planned_witness :
  ∃ G, add_tasks scenario_B empty = Ok G ∧ validate_dependencies G = [] ∧
    (∀ R : gset string, R ≠ ∅ → ready_tasks elements_order G R ≠ []) ∧
    (∃ plan, create_execution_plan elements_order scenario_B = Ok plan) ∧
    create_execution_plan elements_order scenario_B
      ≠ Raise (TaskDependencyError no_ready_error).
Proof.
  eexists. split; [vm_compute; reflexivity|].
  split; [vm_compute; reflexivity|].
  apply (validated_graph_is_planned elements_order scenario_B);
    vm_compute; reflexivity.
Defined.

(** ** Rounds on a given graph, for any enumeration order *)

Lemma create_execution_plan_valid o tasks G :
  add_tasks tasks empty = Ok G → validate_dependencies G = [] →
  create_execution_plan o tasks =
    plan_loop o G (length (nodes G)) [] (list_to_set (nodes G)).
Proof.
  intros HG Hvalid. unfold create_execution_plan. rewrite HG. simpl.
  unfold plan_graph. by rewrite Hvalid.
Qed.

Lemma plan_loop_round o G fuel plan (R : gset string) :
  R ≠ ∅ → Forall (λ x, x ∈ nodes G) (elements R) →
  filter (ready G R) (elements R) ≠ [] →
  ∃ ready_tasks,
    ready_tasks ≡ₚ filter (ready G R) (elements R) ∧
    plan_loop o G (S fuel) plan R =
      plan_loop o G fuel (plan ++ round_stages G ready_tasks)
                         (R ∖ list_to_set ready_tasks).
Proof.
  intros HR Hn Hne. exists (ready_tasks o G R).
  split; [apply ready_tasks_perm|].
  simpl. rewrite decide_False by done. rewrite plan_round_Ok; [done| |].
  - intros x Hx%elem_of_elements. rewrite Forall_forall in Hn. auto.
  - intros Hnil. apply Hne, Permutation_nil_r.
    by rewrite <- ready_tasks_perm, Hnil.
Qed.

Lemma plan_loop_done o G fuel plan (R : gset string) :
  R = ∅ → plan_loop o G fuel plan R = Ok plan.
Proof. intros ->. by destruct fuel. Qed.

Ltac by_computation := vm_compute; reflexivity.
Ltac decide_by_computation := apply (bool_decide_unpack _); by_computation.

(** One round of the loop on closed data: the ready list is known up to
    its order. *)
Ltac plan_round_step ready_tasks Hperm :=
  match goal with
  | |- context [plan_loop ?o ?G (S ?fuel) ?plan ?R] =>
      let Hstep := fresh "Hstep" in
      destruct (plan_loop_round o G fuel plan R)
        as (ready_tasks & Hperm & Hstep);
      [decide_by_computation | decide_by_computation | decide_by_computation |];
      rewrite Hstep; clear Hstep
  end.

Ltac compute_in H :=
  match type of H with
  | _ ≡ₚ ?l => let v := eval vm_compute in l in
               replace l with v in H by by_computation
  end.

Ltac compute_round_stages :=
  match goal with
  | |- context [round_stages ?G ?l] =>
      let v := eval vm_compute in (round_stages G l) in
      replace (round_stages G l) with v by by_computation
  end.

Ltac plan_finish :=
  rewrite plan_loop_done by decide_by_computation; simpl.

Lemma scenario_A_plan o :
  ∃ g, create_execution_plan o scenario_A = Ok [["1"]; g; ["4"]] ∧ g ≡ₚ ["2"; "3"].
Proof.
  erewrite create_execution_plan_valid; [|by_computation..].
  match goal with |- context [length ?l] => change (length l) with 4%nat end.
  plan_round_step r1 H1. compute_in H1.
  apply Permutation_singleton_r in H1 as ->. compute_round_stages.
  plan_round_step r2 H2. compute_in H2.
  symmetry in H2. apply Permutation_length_2_inv in H2 as [-> | ->];
    compute_round_stages.
  - plan_round_step r3 H3. compute_in H3.
    apply Permutation_singleton_r in H3 as ->. compute_round_stages.
    plan_finish. eexists. split; [reflexivity|]. apply perm_swap.
  - plan_round_step r3 H3. compute_in H3.
    apply Permutation_singleton_r in H3 as ->. compute_round_stages.
    plan_finish. eexists. split; [reflexivity|]. reflexivity.
Qed.

Lemma scenario_B_plan o :
  ∃ a b, create_execution_plan o scenario_B = Ok [["1"]; [a]; [b]; ["4"]] ∧
         [a; b] ≡ₚ ["2"; "3"].
Proof.
  erewrite create_execution_plan_valid; [|by_computation..].
  match goal with |- context [length ?l] => change (length l) with 4%nat end.
  plan_round_step r1 H1. compute_in H1.
  apply Permutation_singleton_r in H1 as ->. compute_round_stages.
  plan_round_step r2 H2. compute_in H2.
  symmetry in H2. apply Permutation_length_2_inv in H2 as [-> | ->];
    compute_round_stages.
  - plan_round_step r3 H3. compute_in H3.
    apply Permutation_singleton_r in H3 as ->. compute_round_stages.
    plan_finish. eexists _, _. split; [reflexivity|]. apply perm_swap.
  - plan_round_step r3 H3. compute_in H3.
    apply Permutation_singleton_r in H3 as ->. compute_round_stages.
    plan_finish. eexists _, _. split; [reflexivity|]. reflexivity.
Qed.

(** C4 (amended). In every planning round the ready tasks are split by
    the mode of their node: each ready task that is not parallel becomes a
    stage of its own, in the order of the ready list, and then the
    parallel ready tasks are appended as one stage. The ready list follows
    the iteration order of the remaining set, which is not fixed: Scenario
    A yields [[1], g, [4]] with g holding 2 and 3 in some order, Scenario B
    yields four singleton stages, 1 first, 4 last, 2 and 3 in between in
    either order, and each of the two orders is the plan under some
    enumeration. *)
Theorem planning_round_by_mode (o : SetOrder) :
  (∀ G plan (R : gset string),
     (∀ x, x ∈ R → x ∈ nodes G) →
     ready_tasks o G R ≠ [] →
     plan_round o G plan R =
       Ok (plan ++ round_stages G (ready_tasks o G R),
           R ∖ list_to_set (ready_tasks o G R))) ∧
  (∃ g, create_execution_plan o scenario_A = Ok [["1"]; g; ["4"]] ∧
        g ≡ₚ ["2"; "3"]) ∧
  (∃ a b, create_execution_plan o scenario_B = Ok [["1"]; [a]; [b]; ["4"]] ∧
          [a; b] ≡ₚ ["2"; "3"]) ∧
  create_execution_plan reverse_order scenario_B
    = Ok [["1"]; ["2"]; ["3"]; ["4"]] ∧
  create_execution_plan elements_order scenario_B
    = Ok [["1"]; ["3"]; ["2"]; ["4"]].
Proof.
  split_and!.
  - intros G plan R. apply plan_round_Ok.
  - apply scenario_A_plan.
  - apply scenario_B_plan.
  - by_computation.
  - by_computation.
Qed.

Lemma planning_round_by_mode_witness :
  plan_round reverse_order graph_A [["1"]] {["2"; "3"; "4"]}
    = Ok ([["1"]] ++ round_stages graph_A
                       (ready_tasks reverse_order graph_A {["2"; "3"; "4"]}),
          {["2"; "3"; "4"]} ∖
            list_to_set (ready_tasks reverse_order graph_A {["2"; "3"; "4"]})).
Proof.
  apply (proj1 (planning_round_by_mode reverse_order)).
  - intros x Hx%elem_of_elements. revert x Hx. apply Forall_forall.
    decide_by_computation.
  - decide_by_computation.
Defined.

(** C4, as stated, fails: under the enumeration [elements_order] the
    two middle stages of Scenario B come out as 3 then 2. *)
Lemma scenario_B_order_counterexample :
  ¬ (∀ o, create_execution_plan o scenario_B
            = Ok [["1"]; ["2"]; ["3"]; ["4"]]).
Proof.
  intros H. specialize (H elements_order). vm_compute in H. discriminate H.
Qed.

End PlannerSpec.

(** * The specification of the executor and the runner *)

Module ExecutorSpec.

Import TaskDependencyManager TaskDependencyManager_facts TaskExecutor TaskExecutor_facts
  OnDisk_facts Scenarios.

(** ** The frame of [execute_task] *)

(** Whatever the processing does short of diverging, the frame returns
    the record stored under the task id, terminal, closed, and written to
    storage last. *)
Lemma try_processing_outcome w task_id task_status0 (processing : M ()) s0 :
  (processing s0).1 ≠ OutOfFuel →
  ∃ record s',
    try_processing w task_id task_status0 processing s0 = (Ok record, s') ∧
    r_status record
      = (if decide (raises (processing s0).1) then FAILED else COMPLETED) ∧
    is_Some (r_endTime record) ∧
    active_tasks s' !! task_id = Some record ∧
    last (storage s') = Some (task_id, record).
Proof.
  intros Hfuel. unfold try_processing, try_finally, try_except.
  unfold mbind at 1, M_bind at 1. unfold mbind at 1, M_bind at 1.
  destruct (processing s0) as [[[]|e|] s1] eqn:Hp; simpl in *; [| |done];
    unfold read_task_status, mbind, M_bind, get_active; simpl;
    rewrite !lookup_insert_eq; simpl;
    (eexists _, _; split_and!; [reflexivity|..]); simpl.
  all: first [done | by eexists | by rewrite lookup_insert_eq
               | by rewrite last_snoc].
Qed.

Lemma begin_task_outcome w task_data s :
  ∃ task_status0 s0, begin_task w task_data s = (Ok task_status0, s0).
Proof. unfold begin_task, mbind, M_bind. simpl. by eexists _, _. Qed.

Lemma read_file_last task_id record storage :
  last storage = Some (task_id, record) →
  read_file task_id storage = Some record.
Proof.
  intros Hlast. unfold read_file.
  destruct storage as [|e l _] using rev_ind; [done|].
  rewrite last_snoc in Hlast. injection Hlast as ->.
  rewrite filter_app, filter_cons, decide_True by done.
  by rewrite filter_nil, last_snoc.
Qed.

(** C6. The statuses recorded for a subtask should only move forward,
    PENDING, RUNNING, then COMPLETED or FAILED. They do not: in
    [fail_then_dependent] the failure of [a] in its singleton stage is
    raised again ("to stop execution", as the source says), leaves
    [_execute_with_dependencies], is caught by the handler that
    [execute_task] puts around planning and execution, and the fallback
    runs every subtask again, so [a] goes from FAILED back to RUNNING. *)
Theorem status_set_back_to_running :
  let s' := (execute_task exit_1_world elements_order fail_then_dependent
               (fresh_executor true)).2 in
  status_history "t" "a" (storage s')
    = [PENDING; RUNNING; FAILED; RUNNING; FAILED; FAILED; FAILED; FAILED] ∧
  ¬ forward_only (status_history "t" "a" (storage s')).
Proof.
  assert (status_history "t" "a"
            (storage (execute_task exit_1_world elements_order
                        fail_then_dependent (fresh_executor true)).2)
          = [PENDING; RUNNING; FAILED; RUNNING; FAILED; FAILED; FAILED; FAILED])
    as Hhistory by (vm_compute; reflexivity).
  split; [exact Hhistory|].
  rewrite Hhistory. intros Hforward.
  specialize (Hforward 2%nat 3%nat FAILED RUNNING). simpl in Hforward.
  specialize (Hforward ltac:(lia) eq_refl eq_refl). lia.
Qed.

(** Inside [_execute_with_dependencies] a group that raises ends the
    walk over the plan: the groups after it are not touched. *)
Lemma failed_group_stops_plan w task_id m group execution_plan s e s' :
  execute_group w task_id m group s = (Raise e, s') →
  execute_groups w task_id m (group :: execution_plan) s = (Raise e, s').
Proof. intros H. simpl. unfold mbind, M_bind. by rewrite H. Qed.

(** C7. After a failure in a singleton stage no subtask of a later stage
    should be started. In [fail_then_dependent] the plan is [[a], [b]] and
    [a] fails. [_execute_with_dependencies] does stop there: it raises with
    [b] still PENDING and one command spawned. The handler of
    [execute_task] around it then runs the fallback, which runs [a] again
    and starts [b], a subtask of the later stage, after the failure. *)
Theorem later_stage_started_after_failure :
  let subtasks := imap (normalize "sequential") (subtasks_of fail_then_dependent) in
  let started := (begin_task exit_1_world fail_then_dependent
                    (fresh_executor true)).2 in
  let by_plan := _execute_with_dependencies exit_1_world "t" subtasks
                   [["a"]; ["b"]] started in
  let s' := (execute_task exit_1_world elements_order fail_then_dependent
               (fresh_executor true)).2 in
  create_execution_plan elements_order subtasks = Ok [["a"]; ["b"]] ∧
  raises by_plan.1 ∧
  spawned by_plan.2 = ["exit 1"] ∧
  status_history "t" "b" (storage by_plan.2) = [PENDING; PENDING; PENDING] ∧
  spawned s' = ["exit 1"; "exit 1"; "echo b"] ∧
  status_history "t" "a" (storage s')
    = [PENDING; RUNNING; FAILED; RUNNING; FAILED; FAILED; FAILED; FAILED] ∧
  status_history "t" "b" (storage s')
    = [PENDING; PENDING; PENDING; PENDING; PENDING; RUNNING; COMPLETED;
       COMPLETED].
Proof.
  split_and!; try (vm_compute; reflexivity).
  eexists. vm_compute. reflexivity.
Qed.

(** C8. The overall status returned by [execute_task] is FAILED exactly
    when an exception left the subtask processing, and COMPLETED
    otherwise; a subtask that ended FAILED does not change it. The first
    part states it for the [try] of [execute_task] around any processing
    that returns or raises, the second for [execute_task] itself, the third
    shows a run that is COMPLETED with a FAILED subtask. *)
Theorem overall_status_policy :
  (∀ w task_id task_status0 (processing : M ()) s0,
     (processing s0).1 ≠ OutOfFuel →
     ∃ record s',
       try_processing w task_id task_status0 processing s0 = (Ok record, s') ∧
       (r_status record = FAILED ↔ raises (processing s0).1) ∧
       (r_status record = COMPLETED ↔ ¬ raises (processing s0).1)) ∧
  (∀ w o task_data s, ∃ task_status0 s0 record s',
     begin_task w task_data s = (Ok task_status0, s0) ∧
     execute_task w o task_data s = (Ok record, s') ∧
     let processing :=
       (process_subtasks w o (task_id_of w task_data)
          (execution_mode_of task_data) (subtasks_of task_data) s0).1 in
     (r_status record = FAILED ↔ raises processing) ∧
     (r_status record = COMPLETED ↔ ¬ raises processing)) ∧
  (∃ record s',
     execute_task exit_1_world elements_order fail_then_dependent
       (fresh_executor false) = (Ok record, s') ∧
     r_status record = COMPLETED ∧
     ∃ st, st ∈ r_subtasks record ∧ s_status st = FAILED).
Proof.
  split_and!.
  - intros w task_id task_status0 processing s0 Hfuel.
    destruct (try_processing_outcome w task_id task_status0 processing s0 Hfuel)
      as (record & s' & Hrun & Hstatus & _).
    exists record, s'. split; [done|].
    rewrite Hstatus. case_decide; split_and!; naive_solver.
  - intros w o task_data s.
    destruct (begin_task_outcome w task_data s) as (task_status0 & s0 & Hbegin).
    pose proof (always_ok_ok_or_raise _
      (always_ok_process_subtasks w o (task_id_of w task_data)
         (execution_mode_of task_data) (subtasks_of task_data)) s0) as Hfuel.
    destruct (try_processing_outcome w (task_id_of w task_data) task_status0
                _ s0 Hfuel) as (record & s' & Hrun & Hstatus & _).
    exists task_status0, s0, record, s'. split_and!; [done| |].
    + unfold execute_task, mbind, M_bind. by rewrite Hbegin.
    + simpl. rewrite Hstatus. case_decide; split_and!; naive_solver.
  - eexists _, _. split_and!; [vm_compute; reflexivity|done|].
    eexists. split; [left|done].
Qed.

Lemma overall_status_policy_witness :
  ∃ record s',
    try_processing exit_1_world "t" (initial_status exit_1_world fail_then_dependent "")
      (raise (RuntimeError "no space left on device")) (fresh_executor true)
      = (Ok record, s') ∧
    r_status record = FAILED.
Proof.
  destruct (proj1 overall_status_policy exit_1_world "t"
              (initial_status exit_1_world fail_then_dependent "")
              (raise (RuntimeError "no space left on device"))
              (fresh_executor true))
    as (record & s' & Hrun & Hfailed & _); [done|].
  exists record, s'. split; [exact Hrun|].
  apply Hfailed. by eexists.
Defined.

(** In the model, where storage and the shell do not fail, nothing leaves
    the subtask processing, so the overall status is always COMPLETED. *)
Lemma execute_task_completed w o task_data s :
  ∃ record s', execute_task w o task_data s = (Ok record, s') ∧
               r_status record = COMPLETED.
Proof.
  destruct (begin_task_outcome w task_data s) as (task_status0 & s0 & Hbegin).
  destruct (always_ok_process_subtasks w o (task_id_of w task_data)
              (execution_mode_of task_data) (subtasks_of task_data) s0)
    as ([] & s1 & Hp).
  destruct (try_processing_outcome w (task_id_of w task_data) task_status0
              (process_subtasks w o (task_id_of w task_data)
                 (execution_mode_of task_data) (subtasks_of task_data)) s0)
    as (record & s' & Hrun & Hstatus & _); [by rewrite Hp|].
  exists record, s'. split.
  - unfold execute_task, mbind, M_bind. by rewrite Hbegin.
  - rewrite Hstatus, Hp. done.
Qed.

Lemma on_disk_read_file_last d task_id record storage :
  last storage = Some (task_id, record) →
  OnDisk.read_file d task_id storage = Some record.
Proof.
  intros Hlast. unfold OnDisk.read_file.
  destruct storage as [|e l _] using rev_ind; [done|].
  rewrite last_snoc in Hlast. injection Hlast as ->.
  rewrite filter_app, filter_cons, decide_True by done.
  by rewrite filter_nil, last_snoc.
Qed.

(** C10. For every task descriptor whose status file can be opened for
    writing, [execute_task] returns a record; its overall status is
    COMPLETED or FAILED, its end time is set, and it is the snapshot the
    storage holds for the task id when the call returns. An empty subtask
    list gives COMPLETED. *)
Theorem execute_task_returns_terminal_record (d : OnDisk.Directory) (w : World)
    (o : SetOrder) (task_data : TaskData) (s : Executor) :
  OnDisk.open_w d (OnDisk.status_file d (task_id_of w task_data)) = None →
  ∃ record s',
    OnDisk.execute_task d w o task_data s = (Ok record, s') ∧
    (r_status record = COMPLETED ∨ r_status record = FAILED) ∧
    is_Some (r_endTime record) ∧
    OnDisk.read_file d (task_id_of w task_data) (storage s') = Some record ∧
    (subtasks_of task_data = [] → r_status record = COMPLETED).
Proof.
  intros Hd. rewrite (on_disk_execute_task d w o task_data s Hd).
  destruct (begin_task_outcome w task_data s) as (task_status0 & s0 & Hbegin).
  pose proof (always_ok_ok_or_raise _
    (always_ok_process_subtasks w o (task_id_of w task_data)
       (execution_mode_of task_data) (subtasks_of task_data)) s0) as Hfuel.
  destruct (try_processing_outcome w (task_id_of w task_data) task_status0
              _ s0 Hfuel) as (record & s' & Hrun & Hstatus & Hend & _ & Hlast).
  destruct (execute_task_completed w o task_data s) as (record' & s'' & Hrun' & Hc).
  assert (execute_task w o task_data s = (Ok record, s')) as Hexec
    by (unfold execute_task, mbind, M_bind; by rewrite Hbegin).
  exists record, s'. split_and!; [done| |done| |].
  - rewrite Hstatus. case_decide; auto.
  - by apply on_disk_read_file_last.
  - intros _. congruence.
Qed.

Lemma execute_task_returns_terminal_record_witness :
  ∃ record s',
    OnDisk.execute_task no_subdirectory exit_1_world elements_order
      fail_then_dependent (fresh_executor true) = (Ok record, s') ∧
    (r_status record = COMPLETED ∨ r_status record = FAILED) ∧
    is_Some (r_endTime record) ∧
    OnDisk.read_file no_subdirectory (task_id_of exit_1_world fail_then_dependent)
      (storage s') = Some record ∧
    (subtasks_of fail_then_dependent = [] → r_status record = COMPLETED).
Proof.
  apply (execute_task_returns_terminal_record no_subdirectory exit_1_world
           elements_order fail_then_dependent (fresh_executor true)).
  vm_compute. reflexivity.
Defined.

(** The status file of the task id [a/b] is in a directory that does not
    exist: the first write, which is in front of the [try], raises, and
    [execute_task] returns no record. Nothing is written, and the record
    it left in [active_tasks] is RUNNING. *)
Lemma unwritable_status_file_counterexample :
  let outcome := OnDisk.execute_task no_subdirectory ok_world elements_order
                   nested_id (fresh_executor true) in
  outcome.1 = Raise (OSError
    "[Errno 2] No such file or directory: 'task_data/a/b.json'") ∧
  storage outcome.2 = [] ∧
  r_status <$> active_tasks outcome.2 !! "a/b" = Some RUNNING.
Proof.
  rewrite (on_disk_unwritable no_subdirectory ok_world elements_order nested_id
             (fresh_executor true) _ eq_refl).
  split_and!; [reflexivity..|].
  simpl. by rewrite lookup_insert_eq.
Qed.

(** ** The runner *)

(** What the runner does once it has a command. *)
Lemma _execute_subtask_command w subtask s command :
  command_of subtask = Some command →
  let proc := shell w (length (spawned s)) command in
  (_execute_subtask w subtask s).1 =
    (if decide (returncode proc ≠ 0%Z) then
       text ← decode (stderr proc);
       Raise (RuntimeError ("Command failed with exit code "
                +:+ pretty (returncode proc) +:+ ": " +:+ text))
     else
       output ← decode (stdout proc);
       Ok (output, returncode proc)) ∧
  spawned (_execute_subtask w subtask s).2 = spawned s ++ [command].
Proof.
  unfold command_of, _execute_subtask.
  destruct (t_command subtask) as [command'|]; [|done].
  case_decide; [done|]. intros [= ->].
  set (proc := shell w (length (spawned s)) command).
  unfold create_subprocess_shell, lift, raise, mbind, M_bind, result_bind.
  simpl. fold proc.
  destruct (decide (returncode proc ≠ 0%Z));
    [destruct (decode (stderr proc))|destruct (decode (stdout proc))]; done.
Qed.

(** C9 (amended). The runner fails at once, with no process spawned,
    when the command is absent or empty. Otherwise it spawns the command,
    and fails exactly when the exit code is not zero or the captured
    standard output is not valid UTF-8; on a non-zero exit code the error
    carries the captured standard-error text when that text is valid UTF-8
    (a decoding error is raised when it is not); on exit code 0 with valid
    output it returns the decoded output and the exit code 0. *)
Theorem runner_outcome (w : World) (subtask : Task) (s : Executor) :
  let r := _execute_subtask w subtask s in
  match command_of subtask with
  | None => r = (Raise (ValueError "Subtask command is required"), s)
  | Some command =>
      let proc := shell w (length (spawned s)) command in
      spawned r.2 = spawned s ++ [command] ∧
      (raises r.1 ↔
         returncode proc ≠ 0%Z ∨ utf8_valid (Byte.to_N <$> stdout proc) = false) ∧
      (returncode proc ≠ 0%Z → utf8_valid (Byte.to_N <$> stderr proc) = true →
         r.1 = Raise (RuntimeError ("Command failed with exit code "
                        +:+ pretty (returncode proc) +:+ ": "
                        +:+ String.string_of_list_byte (stderr proc)))) ∧
      (returncode proc ≠ 0%Z → utf8_valid (Byte.to_N <$> stderr proc) = false →
         ∃ msg, r.1 = Raise (UnicodeDecodeError msg)) ∧
      (returncode proc = 0%Z → utf8_valid (Byte.to_N <$> stdout proc) = true →
         r.1 = Ok (String.string_of_list_byte (stdout proc), 0%Z))
  end.
Proof.
  intros r. destruct (command_of subtask) as [command|] eqn:Hcommand.
  - destruct (_execute_subtask_command w subtask s command Hcommand)
      as [Hr Hspawned].
    fold r in Hr, Hspawned. intros proc. fold proc in Hr.
    rewrite Hr. unfold decode.
    assert (∀ e : exn, raises (Raise e : result (string * Z))) as Hraises
      by (intros e; by exists e).
    assert (¬ raises (Ok (String.string_of_list_byte (stdout proc),
                          returncode proc))) as Hok
      by (intros [e He]; discriminate He).
    destruct (decide (returncode proc ≠ 0%Z)) as [Hrc|Hrc].
    + destruct (utf8_valid (Byte.to_N <$> stderr proc)); simpl;
        split_and!; try done; try naive_solver.
    + apply dec_stable in Hrc.
      destruct (utf8_valid (Byte.to_N <$> stdout proc)); simpl;
        split_and!; try done; try naive_solver.
      intros _ _. by rewrite Hrc.
  - unfold r, _execute_subtask. unfold command_of in Hcommand.
    destruct (t_command subtask) as [command|]; [|done].
    by case_decide.
Qed.

Lemma runner_outcome_witness :
  (_execute_subtask exit_1_world (subtask "a" "exit 1" []) (fresh_executor true)).1
    = Raise (RuntimeError "Command failed with exit code 1: boom").
Proof.
  pose proof (runner_outcome exit_1_world (subtask "a" "exit 1" [])
                (fresh_executor true)) as H.
  simpl in H. destruct H as (_ & _ & H & _).
  apply H; [done | vm_compute; reflexivity].
Defined.

(** C9, as stated, fails: a command that exits with 0 after writing a byte
    that is not UTF-8 makes the runner raise. *)
Lemma runner_fails_iff_counterexample :
  ¬ runner_fails_iff binary_output_world (subtask "a" "cat blob" [])
      (fresh_executor true).
Proof.
  unfold runner_fails_iff. intros [Hfails _].
  apply Hfails; [|reflexivity].
  eexists. vm_compute. reflexivity.
Qed.

End ExecutorSpec.

(** * Further properties of the dependency manager *)

Module PlannerExtra.

Import nx nx_facts TaskDependencyManager TaskDependencyManager_facts Scenarios
  PlannerSpec.

(** ** The mode of a node *)

Lemma mode_lookup_mode G t : mode G t = lookup_mode (g_node G) t.
Proof.
  unfold mode, node_attr, lookup_mode.
  by destruct (list_find _ (g_node G)) as [[? ?]|].
Qed.

Lemma lookup_mode_cons a b l t :
  lookup_mode ((a, b) :: l) t =
    if decide (a = t) then default "sequential" b else lookup_mode l t.
Proof.
  unfold lookup_mode. simpl. case_decide; [done|].
  by destruct (list_find _ l) as [[? ?]|].
Qed.

Lemma lookup_mode_absent l t : t ∉ l.*1 → lookup_mode l t = "sequential".
Proof.
  induction l as [|[a b] l IH]; [done|]. rewrite fmap_cons, not_elem_of_cons.
  intros [Hne Hl]. rewrite lookup_mode_cons, decide_False by done. auto.
Qed.

Lemma lookup_mode_app l k t :
  lookup_mode (l ++ k) t = if decide (t ∈ l.*1) then lookup_mode l t else lookup_mode k t.
Proof.
  induction l as [|[a b] l IH]; [done|]. simpl. rewrite !lookup_mode_cons.
  destruct (decide (a = t)) as [->|Hne].
  - rewrite decide_True by left. done.
  - rewrite IH. destruct (decide (t ∈ l.*1)).
    + rewrite decide_True by (by right). done.
    + rewrite decide_False; [done|]. rewrite not_elem_of_cons. naive_solver.
Qed.

Lemma lookup_mode_update l n m t :
  lookup_mode ((λ na : string * option string,
                  if decide (na.1 = n) then (n, Some m) else na) <$> l) t =
    if decide (t = n) then (if decide (n ∈ l.*1) then m else "sequential")
    else lookup_mode l t.
Proof.
  induction l as [|[a b] l IH].
  - simpl. by case_decide.
  - rewrite !fmap_cons. cbv beta. simpl fst.
    destruct (decide (a = n)) as [->|Hne]; rewrite !lookup_mode_cons, ?IH;
      repeat case_decide; simplify_eq; try done; set_solver.
Qed.

Lemma mode_add_node n m G t :
  mode (add_node n m G) t = if decide (t = n) then m else mode G t.
Proof.
  rewrite !mode_lookup_mode. unfold add_node, nodes.
  destruct (decide (n ∈ (g_node G).*1)) as [Hn|Hn]; simpl.
  - rewrite lookup_mode_update. repeat case_decide; simplify_eq; done.
  - rewrite lookup_mode_app, lookup_mode_cons.
    repeat case_decide; simplify_eq; try done.
    by rewrite (lookup_mode_absent (g_node G)).
Qed.

Lemma mode_touch_node n G t : mode (touch_node n G) t = mode G t.
Proof.
  rewrite !mode_lookup_mode. unfold touch_node, nodes.
  destruct (decide (n ∈ (g_node G).*1)) as [Hn|Hn]; [done|]. simpl.
  rewrite lookup_mode_app, lookup_mode_cons. simpl.
  repeat case_decide; simplify_eq; try done;
    by rewrite (lookup_mode_absent (g_node G)).
Qed.

Lemma mode_add_edge u v G t : mode (add_edge u v G) t = mode G t.
Proof.
  rewrite mode_lookup_mode. unfold add_edge. simpl.
  by rewrite <- mode_lookup_mode, !mode_touch_node.
Qed.

Lemma mode_add_task t deps m G x :
  ∀ G', add_task (Some t) deps m G = Ok G' →
  mode G' x = if decide (x = t) then m else mode G x.
Proof.
  intros G' [= <-]. rewrite <- (mode_add_node t m G x).
  generalize (add_node t m G). induction deps as [|d deps IH]; intros G0; simpl;
    [done|]. by rewrite IH, mode_add_edge.
Qed.

Lemma mode_add_tasks tasks G G' t :
  add_tasks tasks G = Ok G' →
  mode G' t =
    match last (filter (λ task, t_id task = Some t) tasks) with
    | Some task => default "sequential" (t_executionMode task)
    | None => mode G t
    end.
Proof.
  revert G. induction tasks as [|task tasks IH]; intros G; simpl.
  - by intros [= <-].
  - destruct (t_id task) as [t'|] eqn:Hid; [|done].
    destruct (add_task (Some t') (default [] (t_dependencies task))
                (default "sequential" (t_executionMode task)) G)
      as [G1| |] eqn:HG1; [|done..]. simpl.
    intros HG'. rewrite (IH G1 HG'), filter_cons, Hid.
    rewrite (mode_add_task _ _ _ _ t _ HG1).
    destruct (decide (Some t' = Some t)) as [[= ->]|Hne].
    + rewrite last_cons. rewrite decide_True by done.
      by destruct (last (filter _ tasks)).
    + rewrite decide_False by congruence. done.
Qed.

(** X1. A node takes the execution mode of the last descriptor that has
    its id, [sequential] when that descriptor gives none; a node that is
    only named as a dependency is sequential. *)
Theorem last_descriptor_sets_mode (tasks : list Task) (G : DiGraph) (t : string) :
  add_tasks tasks empty = Ok G →
  mode G t = stated_mode tasks t.
Proof.
  intros HG. rewrite (mode_add_tasks tasks empty G t HG). unfold stated_mode.
  by destruct (last (filter _ tasks)).
Qed.

Lemma last_descriptor_sets_mode_witness :
  ∃ G, add_tasks [descriptor "a" [] "sequential"; descriptor "b" ["a"; "c"] "parallel";
                  descriptor "a" ["c"] "parallel"] empty = Ok G ∧
       mode G "a" = "parallel" ∧ mode G "c" = "sequential".
Proof.
  eexists. split; [vm_compute; reflexivity|].
  split; (etrans; [apply (last_descriptor_sets_mode
     [descriptor "a" [] "sequential"; descriptor "b" ["a"; "c"] "parallel";
      descriptor "a" ["c"] "parallel"]); vm_compute; reflexivity|]);
    vm_compute; reflexivity.
Defined.

(** ** The graph of a task list *)

Lemma NoDup_edges_add_edge u v G : NoDup (g_edges G) → NoDup (g_edges (add_edge u v G)).
Proof.
  intros Hnd. unfold add_edge. simpl. rewrite !edges_touch_node.
  case_decide; [done|]. apply NoDup_app.
  split_and!; [done|set_solver|apply NoDup_singleton].
Qed.

Lemma NoDup_edges_add_tasks tasks G G' :
  add_tasks tasks G = Ok G' → NoDup (g_edges G) → NoDup (g_edges G').
Proof.
  revert G. induction tasks as [|task tasks IH]; intros G; simpl.
  - by intros [= <-].
  - destruct (t_id task) as [t|]; [|done]. simpl. intros HG' Hnd.
    apply (IH _ HG'). rewrite <- (edges_add_node t
      (default "sequential" (t_executionMode task)) G) in Hnd.
    generalize dependent (add_node t (default "sequential" (t_executionMode task)) G).
    clear. intros G0 _. induction (default [] (t_dependencies task))
      as [|d deps IH] in G0 |- *; simpl; [done|].
    intros Hnd. by apply IH, NoDup_edges_add_edge.
Qed.

(** X2. The graph built from a task list has one node per id, declared
    or only named as a dependency, and one edge per stated dependency:
    descriptors that repeat an id are merged, their dependency lists
    united. *)
Theorem graph_merges_descriptors (tasks : list Task) (G : DiGraph) :
  add_tasks tasks empty = Ok G →
  NoDup (nodes G) ∧ NoDup (g_edges G) ∧
  (∀ x, x ∈ nodes G ↔ x ∈ declared tasks ∨ ∃ t, depends tasks x t) ∧
  (∀ d t, (d, t) ∈ g_edges G ↔ depends tasks d t).
Proof.
  intros HG. pose proof (graph_of_tasks tasks G HG) as (Hwf & He & Hn).
  split_and!; [apply Hwf| |done|done].
  apply (NoDup_edges_add_tasks tasks empty G HG). constructor.
Qed.

Lemma graph_merges_descriptors_witness :
  let tasks := [descriptor "a" ["b"] "sequential";
                descriptor "a" ["c"; "b"] "parallel"] in
  let G := {| g_node := [("a", Some "parallel"); ("b", None); ("c", None)];
              g_edges := [("b", "a"); ("c", "a")] |} in
  NoDup (nodes G) ∧ NoDup (g_edges G) ∧
  (∀ x, x ∈ nodes G ↔ x ∈ declared tasks ∨ ∃ t, depends tasks x t) ∧
  (∀ d t, (d, t) ∈ g_edges G ↔ depends tasks d t).
Proof.
  intros tasks G. apply (graph_merges_descriptors tasks G).
  vm_compute. reflexivity.
Defined.

(** ** Outcomes of validation and planning *)

Lemma add_tasks_outcome tasks G :
  match add_tasks tasks G with
  | Ok _ => Forall has_id tasks
  | Raise e => e = ValueError "None cannot be a node" ∧ ¬ Forall has_id tasks
  | OutOfFuel => False
  end.
Proof.
  revert G. induction tasks as [|task tasks IH]; intros G; simpl; [done|].
  destruct (t_id task) as [t|] eqn:Hid; simpl.
  - specialize (IH (foldl (λ G dep, add_edge dep t G)
       (add_node t (default "sequential" (t_executionMode task)) G)
       (default [] (t_dependencies task)))).
    destruct (add_tasks tasks _) as [G'|e|]; [|destruct IH as [-> Hno]; split; [done|]|done].
    + constructor; [unfold has_id; rewrite Hid; eauto|done].
    + intros Hall. apply Hno. by inversion Hall.
  - split; [done|]. intros Hall. inversion Hall as [|? ? [? Hsome] ?]; subst.
    congruence.
Qed.

(** X3. On the graph of any task list [validate_dependencies] returns
    either the empty list, and then no task depends on itself through any
    chain, or exactly the one cycle message, and then some task does. *)
Theorem validate_reports_cycle_only (tasks : list Task) (G : DiGraph) :
  add_tasks tasks empty = Ok G →
  (validate_dependencies G = [] ∧ ∀ t, ¬ tc (depends tasks) t t) ∨
  (validate_dependencies G = [cycle_error] ∧ ∃ t, tc (depends tasks) t t).
Proof.
  intros HG. pose proof (graph_of_tasks tasks G HG) as (Hwf & _).
  rewrite validate_dependencies_wf by done.
  destruct (find_cycle G) eqn:Hfc.
  - right. split; [done|]. apply (has_cycle_depends tasks G HG).
    by apply find_cycle_spec.
  - left. split; [done|]. intros t Ht.
    apply (find_cycle_false G Hwf) in Hfc. apply Hfc.
    apply (has_cycle_depends tasks G HG). eauto.
Qed.

Lemma validate_reports_cycle_only_witness :
  ∃ G, add_tasks test_3_tasks empty = Ok G ∧ validate_dependencies G = [].
Proof.
  eexists. split; [vm_compute; reflexivity|].
  destruct (validate_reports_cycle_only test_3_tasks _ eq_refl)
    as [[Hnil _]|[Hcyc _]]; [exact Hnil|].
  vm_compute in Hcyc. discriminate Hcyc.
Defined.

(** X4. [create_execution_plan] always comes to an end, and its outcome
    is decided by the task list alone: it raises networkx's [ValueError]
    when some descriptor has no id, the dependency error with the cycle
    message when all have one and the dependencies hold a cycle, and
    returns a plan otherwise. *)
Theorem create_execution_plan_outcome (o : SetOrder) (tasks : list Task) :
  match create_execution_plan o tasks with
  | Ok plan => Forall has_id tasks ∧ ∀ t, ¬ tc (depends tasks) t t
  | Raise e =>
      (e = ValueError "None cannot be a node" ∧ ¬ Forall has_id tasks) ∨
      (e = TaskDependencyError cycle_error ∧ Forall has_id tasks ∧
       ∃ t, tc (depends tasks) t t)
  | OutOfFuel => False
  end.
Proof.
  unfold create_execution_plan.
  pose proof (add_tasks_outcome tasks empty) as Hadd.
  destruct (add_tasks tasks empty) as [G|e|] eqn:HG; simpl; [|by left|done].
  pose proof (graph_of_tasks tasks G HG) as (Hwf & _).
  destruct (find_cycle G) eqn:Hfc.
  - apply find_cycle_spec in Hfc; [|done].
    rewrite plan_graph_cycle by done. right. split_and!; [done..|].
    by apply (has_cycle_depends tasks G HG).
  - apply find_cycle_false in Hfc; [|done].
    destruct (plan_graph_Ok o G Hwf Hfc) as (plan & -> & _). split; [done|].
    intros t Ht. apply Hfc, (has_cycle_depends tasks G HG). eauto.
Qed.

(** ** The shape of a plan *)

Lemma plan_loop_preserves o G (I : list (list string) → Prop) :
  (∀ plan l, I plan → l ≠ [] → NoDup l → I (plan ++ round_stages G l)) →
  ∀ fuel plan (R : gset string) plan',
    (∀ x, x ∈ R → x ∈ nodes G) → I plan →
    plan_loop o G fuel plan R = Ok plan' → I plan'.
Proof.
  intros Hround. induction fuel as [|fuel IH]; intros plan R plan' HR HI; simpl.
  - case_decide; [by intros [= <-]|done].
  - case_decide; [by intros [= <-]|].
    destruct (decide (ready_tasks o G R = [])) as [Hnil|Hne].
    + unfold plan_round. by rewrite decide_True.
    + rewrite plan_round_Ok by done. simpl. apply IH.
      * intros x [Hx _]%elem_of_difference. auto.
      * apply Hround; [done..|apply NoDup_ready_tasks].
Qed.

(** What a returned plan comes from. *)
Lemma create_execution_plan_Ok o tasks plan :
  create_execution_plan o tasks = Ok plan →
  ∃ G, add_tasks tasks empty = Ok G ∧ wf G ∧ plan_inv G plan ∅ ∧
       plan_loop o G (length (nodes G)) [] (list_to_set (nodes G)) = Ok plan.
Proof.
  unfold create_execution_plan.
  destruct (add_tasks tasks empty) as [G|e|] eqn:HG; simpl; [|done..].
  intros Hplan. pose proof (graph_of_tasks tasks G HG) as (Hwf & _).
  exists G. split_and!; [done..| |].
  - destruct (find_cycle G) eqn:Hfc.
    + apply find_cycle_spec in Hfc; [|done].
      by rewrite plan_graph_cycle in Hplan.
    + apply find_cycle_false in Hfc; [|done].
      destruct (plan_graph_Ok o G Hwf Hfc) as (plan' & Hplan' & Hinv).
      congruence.
  - unfold plan_graph in Hplan. by case_decide.
Qed.

Lemma elem_of_round_stages G l stage :
  stage ∈ round_stages G l →
  stage ≠ [] ∧ ∀ t, t ∈ stage → mode G t ≠ "parallel" → stage = [t].
Proof.
  unfold round_stages. rewrite elem_of_app, list_elem_of_fmap.
  intros [(t & -> & Ht)|Hpar].
  - split; [done|]. by intros t' ->%list_elem_of_singleton _.
  - case_decide as Hnil; [by apply elem_of_nil in Hpar|].
    apply list_elem_of_singleton in Hpar as ->. split; [done|].
    by intros t [Hp _]%list_elem_of_filter Hnp.
Qed.

(** X5. In a returned plan no stage is empty, and a task whose stated
    mode is not [parallel] is alone in its stage: a stage of several
    tasks holds parallel tasks only. *)
Theorem stages_are_singletons_or_parallel (o : SetOrder) (tasks : list Task)
    (plan : list (list string)) :
  create_execution_plan o tasks = Ok plan →
  ∀ stage, stage ∈ plan →
    stage ≠ [] ∧
    ∀ t, t ∈ stage → stated_mode tasks t ≠ "parallel" → stage = [t].
Proof.
  intros (G & HG & Hwf & _ & Hloop)%create_execution_plan_Ok.
  assert (∀ stage, stage ∈ plan →
            stage ≠ [] ∧ ∀ t, t ∈ stage → mode G t ≠ "parallel" → stage = [t])
    as Hshape.
  { apply (plan_loop_preserves o G
             (λ plan, ∀ stage, stage ∈ plan →
                stage ≠ [] ∧ ∀ t, t ∈ stage → mode G t ≠ "parallel" → stage = [t])
             ltac:(intros p l Hp _ _ stage [?|?]%elem_of_app;
                   [by apply Hp|by eapply elem_of_round_stages])
             _ _ _ _ ltac:(by intros x ?%elem_of_list_to_set)
             ltac:(by intros stage ?%elem_of_nil) Hloop). }
  intros stage Hstage. destruct (Hshape stage Hstage) as [Hne Halone].
  split; [done|]. intros t Ht Hmode. apply Halone; [done|].
  rewrite (mode_add_tasks tasks empty G t HG). unfold stated_mode in Hmode.
  destruct (last (filter _ tasks)); [done|].
  by rewrite mode_lookup_mode.
Qed.

Lemma stages_are_singletons_or_parallel_witness :
  create_execution_plan reverse_order scenario_A
    = Ok [["1"]; ["2"; "3"]; ["4"]] ∧
  ["4"] ≠ [] ∧ ["4"] = ["4"].
Proof.
  assert (create_execution_plan reverse_order scenario_A
            = Ok [["1"]; ["2"; "3"]; ["4"]]) as Hplan
    by (vm_compute; reflexivity).
  split; [exact Hplan|].
  destruct (stages_are_singletons_or_parallel reverse_order scenario_A _ Hplan
              ["4"]) as [Hne Halone];
    [apply list_elem_of_In; right; right; left; reflexivity|].
  split; [exact Hne|].
  apply Halone;
    [apply list_elem_of_In; left; reflexivity | vm_compute; discriminate].
Defined.

Lemma NoDup_concat_stage (plan : list (list string)) i j si sj x :
  NoDup (concat plan) → plan !! i = Some si → plan !! j = Some sj →
  x ∈ si → x ∈ sj → i = j.
Proof.
  revert i j. induction plan as [|s plan IH]; intros i j Hnd Hi Hj Hxi Hxj;
    [done|].
  simpl in Hnd. apply NoDup_app in Hnd as (_ & Hdis & Hnd).
  destruct i as [|i], j as [|j]; simpl in *; simplify_eq; [done| | |].
  - exfalso. apply (Hdis x Hxi), elem_of_concat. eauto.
  - exfalso. apply (Hdis x Hxj), elem_of_concat. eauto.
  - f_equal. eauto.
Qed.

(** X6. Tasks that share a stage of a returned plan do not depend on one
    another. *)
Theorem stage_members_are_independent (o : SetOrder) (tasks : list Task)
    (plan : list (list string)) :
  create_execution_plan o tasks = Ok plan →
  ∀ stage a b, stage ∈ plan → a ∈ stage → b ∈ stage → ¬ depends tasks a b.
Proof.
  intros (G & HG & Hwf & [Hnd _ _ Hearly] & _)%create_execution_plan_Ok.
  intros stage a b [j Hj]%list_elem_of_lookup Ha Hb Hdep.
  pose proof (graph_of_tasks tasks G HG) as (_ & He & _).
  destruct (Hearly j stage b a Hj Hb) as (i & si & Hi & Hai & Hij);
    [by apply He|].
  assert (i = j) by eauto using NoDup_concat_stage. lia.
Qed.

Lemma stage_members_are_independent_witness :
  create_execution_plan reverse_order scenario_A
    = Ok [["1"]; ["2"; "3"]; ["4"]] ∧
  ¬ depends scenario_A "2" "3".
Proof.
  assert (create_execution_plan reverse_order scenario_A
            = Ok [["1"]; ["2"; "3"]; ["4"]]) as Hplan
    by (vm_compute; reflexivity).
  split; [exact Hplan|].
  apply (stage_members_are_independent reverse_order scenario_A _ Hplan
           ["2"; "3"]); apply list_elem_of_In.
  - right; left; reflexivity.
  - left; reflexivity.
  - right; left; reflexivity.
Defined.

(** X7. A returned plan holds every declared id and every id that is
    only named as a dependency, each exactly once, with each dependency in
    a strictly earlier stage than its dependent; an id that no descriptor
    declares gets a stage of its own. *)
Theorem plan_schedules_named_dependencies (o : SetOrder) (tasks : list Task)
    (plan : list (list string)) :
  create_execution_plan o tasks = Ok plan →
  NoDup (concat plan) ∧
  (∀ t, t ∈ concat plan ↔ t ∈ declared tasks ∨ ∃ t', depends tasks t t') ∧
  (∀ d t, depends tasks d t → earlier plan d t) ∧
  (∀ stage t, stage ∈ plan → t ∈ stage → t ∉ declared tasks → stage = [t]).
Proof.
  intros Hplan.
  pose proof Hplan as (G & HG & Hwf & [Hnd Hcov _ Hearly] & Hloop)%create_execution_plan_Ok.
  pose proof (graph_of_tasks tasks G HG) as (_ & He & Hn).
  assert (∀ t, t ∈ concat plan ↔ t ∈ nodes G) as Hmem.
  { intros t. rewrite Hcov. split; [auto|]. by intros [?|?%not_elem_of_empty]. }
  split_and!; [done| | |].
  - intros t. by rewrite Hmem, Hn.
  - intros d t Hdt.
    assert (t ∈ concat plan) as (j & sj & Hj & Ht)%elem_of_concat.
    { apply Hmem, Hn. left. destruct Hdt as (task & ? & ? & _).
      apply elem_of_declared. eauto. }
    destruct (Hearly j sj t d Hj Ht) as (i & si & Hi & Hd & Hij);
      [by apply He|].
    by exists i, j, si, sj.
  - intros stage t Hstage Ht Hundeclared.
    assert (∀ stage, stage ∈ plan →
              stage ≠ [] ∧ ∀ t, t ∈ stage → mode G t ≠ "parallel" → stage = [t])
      as Hshape.
    { apply (plan_loop_preserves o G
               (λ plan, ∀ stage, stage ∈ plan →
                  stage ≠ [] ∧ ∀ t, t ∈ stage → mode G t ≠ "parallel" → stage = [t])
               ltac:(intros p l Hp _ _ stage' [?|?]%elem_of_app;
                     [by apply Hp|by eapply elem_of_round_stages])
               _ _ _ _ ltac:(by intros x ?%elem_of_list_to_set)
               ltac:(by intros stage' ?%elem_of_nil) Hloop). }
    apply (Hshape stage Hstage); [done|].
    rewrite (mode_add_tasks tasks empty G t HG).
    assert (filter (λ task, t_id task = Some t) tasks = []) as ->.
    { destruct (filter _ tasks) as [|task l] eqn:Hf; [done|].
      assert (task ∈ filter (λ task, t_id task = Some t) tasks) as [Hid Hin]%list_elem_of_filter
        by (rewrite Hf; left).
      exfalso. apply Hundeclared, elem_of_declared. eauto. }
    simpl. rewrite mode_lookup_mode. done.
Qed.

Lemma plan_schedules_named_dependencies_witness :
  let plan := [["missing-task"]; ["task-1"]; ["task-3"]; ["task-2"]] in
  NoDup (concat plan) ∧
  (∀ t, t ∈ concat plan ↔
        t ∈ declared test_3_tasks ∨ ∃ t', depends test_3_tasks t t') ∧
  (∀ d t, depends test_3_tasks d t → earlier plan d t) ∧
  (∀ stage t, stage ∈ plan → t ∈ stage → t ∉ declared test_3_tasks →
              stage = [t]).
Proof.
  intros plan. apply (plan_schedules_named_dependencies elements_order).
  vm_compute. reflexivity.
Defined.

(** ** The dependency map of a task *)

Lemma foldl_insert_lookup (subtasks : list Task)
    (m : gmap (option string) (list string)) k :
  foldl (λ dependencies subtask,
           <[t_id subtask := default [] (t_dependencies subtask)]> dependencies)
        m subtasks !! k =
    match last (filter (λ subtask, t_id subtask = k) subtasks) with
    | Some subtask => Some (default [] (t_dependencies subtask))
    | None => m !! k
    end.
Proof.
  induction subtasks as [|subtask subtasks IH] using rev_ind; [done|].
  rewrite foldl_app, filter_app, last_app. simpl.
  rewrite filter_cons, filter_nil. rewrite lookup_insert.
  destruct (decide (t_id subtask = k)) as [Hk|Hk]; simpl.
  - done.
  - by rewrite IH.
Qed.

Lemma filter_id_unique (subtasks : list Task) t :
  NoDup (declared subtasks) →
  ∀ a b, a ∈ subtasks → b ∈ subtasks → t_id a = Some t → t_id b = Some t → a = b.
Proof.
  unfold declared. induction subtasks as [|x l IH]; intros Hnd a b Ha Hb Hta Htb.
  - by apply elem_of_nil in Ha.
  - simpl in Hnd. apply elem_of_cons in Ha as [->|Ha], Hb as [->|Hb]; [done| | |].
    + rewrite Hta in Hnd. simpl in Hnd. apply NoDup_cons in Hnd as [Hx _].
      exfalso. apply Hx, list_elem_of_omap. eauto.
    + rewrite Htb in Hnd. simpl in Hnd. apply NoDup_cons in Hnd as [Hx _].
      exfalso. apply Hx, list_elem_of_omap. eauto.
    + apply IH; [|done..]. destruct (t_id x); simpl in Hnd; [|done].
      by apply NoDup_cons in Hnd as [_ ?].
Qed.

(** X8. [get_task_dependencies] maps a key, an id or [None] for the
    subtasks without one, to the dependency list of the last subtask that
    has it, the empty list when that subtask gives none, and has no entry
    for a key no subtask has. Every dependency it gives for an id is one
    the planner sees; when the subtask ids are distinct it gives all of
    them, so the map and the planner's graph agree. *)
Theorem get_task_dependencies_agrees (task_data : TaskExecutor.TaskData)
    (t : string) :
  let subtasks := default [] (TaskExecutor.td_subtasks task_data) in
  let dependencies := TaskDependencyHelpers.get_task_dependencies task_data in
  (∀ key, dependencies !! key =
            (λ subtask, default [] (t_dependencies subtask)) <$>
              last (filter (λ subtask, t_id subtask = key) subtasks)) ∧
  (t ∈ declared subtasks ↔ is_Some (dependencies !! Some t)) ∧
  (∀ deps d, dependencies !! Some t = Some deps → d ∈ deps → depends subtasks d t) ∧
  (NoDup (declared subtasks) →
   ∀ deps d, dependencies !! Some t = Some deps → depends subtasks d t → d ∈ deps).
Proof.
  intros subtasks dependencies.
  assert (∀ key, dependencies !! key =
            (λ subtask, default [] (t_dependencies subtask)) <$>
              last (filter (λ subtask, t_id subtask = key) subtasks)) as Hlookup.
  { intros key. unfold dependencies, TaskDependencyHelpers.get_task_dependencies.
    fold subtasks. rewrite foldl_insert_lookup.
    by destruct (last (filter _ subtasks)). }
  split; [exact Hlookup|]. rewrite (Hlookup (Some t)). split_and!.
  - rewrite elem_of_declared, fmap_is_Some, last_is_Some. split.
    + intros (task & Hin & Hid) Hnil.
      by eapply (filter_nil_not_elem_of (λ subtask, t_id subtask = Some t)).
    + intros Hne. destruct (filter _ subtasks) as [|task l] eqn:Hf; [done|].
      assert (task ∈ filter (λ subtask, t_id subtask = Some t) subtasks)
        as [? ?]%list_elem_of_filter by (rewrite Hf; left).
      eauto.
  - intros deps d Hl Hd.
    destruct (last (filter _ subtasks)) as [task|] eqn:Hlast; [|done].
    injection Hl as <-.
    apply last_Some_elem_of, list_elem_of_filter in Hlast as [Hid Hin].
    by exists task.
  - intros Hnd deps d Hl (task' & Hin' & Hid' & Hd).
    destruct (last (filter _ subtasks)) as [task|] eqn:Hlast; [|done].
    injection Hl as <-.
    apply last_Some_elem_of, list_elem_of_filter in Hlast as [Hid Hin].
    by rewrite (filter_id_unique subtasks t Hnd task task' Hin Hin' Hid Hid').
Qed.

End PlannerExtra.

(** * Further properties of the task executor *)

Module ExecutorExtra.

Import nx nx_facts TaskDependencyManager TaskDependencyManager_facts
  TaskExecutor TaskExecutor_facts OnDisk_facts mcp_integration Scenarios
  PlannerSpec ExecutorSpec PlannerExtra.

(** ** What subtask processing keeps *)

(** Subtask processing changes the executor through three kinds of status
    update and through the shell only: a property kept by those is kept
    by the whole of it. *)
Section processing.
Context (w : World) (task_id : string) (P : Executor → Prop).
Context (P_running : ∀ sid,
  preserves P (_update_subtask_status task_id sid RUNNING None None)).
Context (P_completed : ∀ sid output,
  preserves P (_update_subtask_status task_id sid COMPLETED (Some output) None)).
Context (P_failed : ∀ sid error,
  preserves P (_update_subtask_status task_id sid FAILED None (Some error))).
Context (P_spawn : ∀ command, preserves P (create_subprocess_shell w command)).

Lemma kept_by_execute_subtask subtask : preserves P (_execute_subtask w subtask).
Proof.
  unfold _execute_subtask. destruct (t_command subtask) as [command|];
    [|apply preserves_raise].
  case_decide; [apply preserves_raise|].
  apply preserves_bind; [apply P_spawn|]. intros proc.
  case_decide; (apply preserves_bind; [apply preserves_lift|]); intros ?;
    [apply preserves_raise | apply preserves_ret].
Qed.

Lemma kept_by_wrapper sid subtask :
  preserves P (_execute_subtask_wrapper w task_id sid subtask).
Proof.
  apply preserves_try_except.
  - apply preserves_bind; [apply kept_by_execute_subtask|].
    intros ?. apply P_completed.
  - intros e. apply P_failed.
Qed.

Lemma kept_by_sequential i subtasks :
  preserves P (_execute_sequential w task_id i subtasks).
Proof.
  revert i. induction subtasks as [|subtask subtasks IH]; intros i; simpl.
  - apply preserves_ret.
  - apply preserves_bind; [apply P_running|]. intros _.
    apply preserves_bind; [apply kept_by_wrapper|]. intros _. apply IH.
Qed.

Lemma kept_by_launch_all i subtasks tasks s :
  Forall (preserves P) tasks → P s →
  P (launch_all w task_id i subtasks tasks s).2 ∧
  ∀ tasks', (launch_all w task_id i subtasks tasks s).1 = Ok tasks' →
            Forall (preserves P) tasks'.
Proof.
  revert i tasks s. induction subtasks as [|subtask subtasks IH];
    intros i tasks s Htasks Hs; simpl.
  - split; [done|]. by intros ? [= <-].
  - pose proof (P_running (subtask_id_of i subtask) s Hs) as Hs1.
    destruct (always_ok_update task_id (subtask_id_of i subtask) RUNNING None None s)
      as ([] & s1 & Heq).
    unfold mbind at 1 2, M_bind at 1 2. rewrite Heq in *. simpl in Hs1.
    apply IH; [|done]. apply Forall_app. split; [done|].
    apply Forall_singleton, kept_by_wrapper.
Qed.

Lemma kept_by_parallel subtasks : preserves P (_execute_parallel w task_id subtasks).
Proof.
  intros s Hs. unfold _execute_parallel, mbind, M_bind.
  destruct (kept_by_launch_all 0 subtasks [] s) as [Hs1 Htasks];
    [constructor|done|].
  destruct (launch_all w task_id 0 subtasks [] s) as [[tasks| |] s1]; simpl in *;
    [|done..].
  apply preserves_gather; [|done]. by apply Htasks.
Qed.

Lemma kept_by_simple execution_mode subtasks :
  preserves P (execute_simple w task_id execution_mode subtasks).
Proof.
  unfold execute_simple. case_decide;
    [apply kept_by_parallel | apply kept_by_sequential].
Qed.

Lemma kept_by_launch_group m group tasks s :
  Forall (preserves P) tasks → P s →
  P (launch_group w task_id m group tasks s).2 ∧
  ∀ tasks', (launch_group w task_id m group tasks s).1 = Ok tasks' →
            Forall (preserves P) tasks'.
Proof.
  revert tasks s. induction group as [|sid group IH];
    intros tasks s Htasks Hs; simpl.
  - split; [done|]. by intros ? [= <-].
  - destruct (m !! sid) as [subtask|]; [|by apply IH].
    destruct (truthy subtask); [|by apply IH].
    pose proof (P_running sid s Hs) as Hs1.
    destruct (always_ok_update task_id sid RUNNING None None s)
      as ([] & s1 & Heq).
    unfold mbind at 1 2, M_bind at 1 2. rewrite Heq in *. simpl in Hs1.
    apply IH; [|done]. apply Forall_app. split; [done|].
    apply Forall_singleton, kept_by_wrapper.
Qed.

Lemma kept_by_several m group :
  preserves P (tasks ← launch_group w task_id m group []; gather tasks).
Proof.
  intros s Hs. unfold mbind, M_bind.
  destruct (kept_by_launch_group m group [] s) as [Hs1 Htasks];
    [constructor|done|].
  destruct (launch_group w task_id m group [] s) as [[tasks| |] s1]; simpl in *;
    [|done..].
  apply preserves_gather; [|done]. by apply Htasks.
Qed.

Lemma kept_by_group m group : preserves P (execute_group w task_id m group).
Proof.
  unfold execute_group.
  destruct group as [|sid [|? ?]]; [apply kept_by_several| |apply kept_by_several].
  destruct (m !! sid) as [subtask|]; [|apply preserves_ret].
  destruct (truthy subtask); [|apply preserves_ret].
  apply preserves_bind; [apply P_running|].
  intros _. apply preserves_try_except.
  - apply preserves_bind; [apply kept_by_execute_subtask|].
    intros ?. apply P_completed.
  - intros e. apply preserves_bind; [apply P_failed|].
    intros _. apply preserves_raise.
Qed.

Lemma kept_by_groups m execution_plan :
  preserves P (execute_groups w task_id m execution_plan).
Proof.
  induction execution_plan as [|group execution_plan IH]; simpl.
  - apply preserves_ret.
  - apply preserves_bind; [apply kept_by_group|]. by intros _.
Qed.

Lemma kept_by_process_subtasks o execution_mode subtasks :
  preserves P (process_subtasks w o task_id execution_mode subtasks).
Proof.
  intros s Hs. unfold process_subtasks.
  destruct (dependency_manager s); [|by apply kept_by_simple].
  apply preserves_try_except; [|intros e; apply kept_by_simple|done].
  apply preserves_bind; [apply preserves_lift|].
  intros plan. apply kept_by_groups.
Qed.
End processing.

(** ** [execute_task], step by step *)

(** [execute_task] in three steps: the record is made and stored, the
    subtasks are processed, and the record found in [active_tasks] after
    that is marked COMPLETED, closed with the next clock reading, written
    and returned. *)
Lemma execute_task_steps w o task_data s :
  let task_id := task_id_of w task_data in
  ∃ s1 record1,
    process_subtasks w o task_id (execution_mode_of task_data)
      (subtasks_of task_data) (begun w task_data s) = (Ok (), s1) ∧
    active_tasks s1 !! task_id = Some record1 ∧
    let record := set_endTime (isoformat_now w (clock s1))
                    (set_status COMPLETED None record1) in
    execute_task w o task_data s =
      (Ok record,
       {| dependency_manager := dependency_manager s1;
          active_tasks := <[task_id := record]> (active_tasks s1);
          storage := storage s1 ++ [(task_id, record)];
          spawned := spawned s1;
          clock := S (clock s1) |}).
Proof.
  intros task_id.
  destruct (always_ok_process_subtasks w o task_id (execution_mode_of task_data)
              (subtasks_of task_data) (begun w task_data s)) as ([] & s1 & Hp).
  assert (is_Some (active_tasks s1 !! task_id)) as [record1 Hrecord1].
  { pose proof (active_process_subtasks task_id w o task_id
                  (execution_mode_of task_data) (subtasks_of task_data)
                  (begun w task_data s)) as Hactive.
    rewrite Hp in Hactive. apply Hactive. simpl.
    unfold task_id. by rewrite lookup_insert_eq. }
  exists s1, record1. split_and!; [done..|].
  unfold execute_task, begin_task, try_processing, try_finally, try_except.
  unfold mbind at 1, M_bind at 1. simpl.
  fold (begun w task_data s). fold task_id.
  unfold mbind at 1, M_bind at 1. unfold mbind at 1, M_bind at 1.
  rewrite Hp. simpl. rewrite Hrecord1. simpl.
  unfold read_task_status, mbind, M_bind, get_active. simpl.
  rewrite !lookup_insert_eq. simpl. by rewrite insert_insert_eq.
Qed.

(** ** Triples *)

Section triple.
Context {A : Type}.
Implicit Types (P Q E : Executor → Prop) (m : M A).

Lemma triple_ret P E (a : A) : triple P (mret a) P E.
Proof. by intros s Hs. Qed.

Lemma triple_raise P Q e : triple P (raise e : M A) Q P.
Proof. by intros s Hs. Qed.

Lemma triple_lift P (r : result A) : r ≠ OutOfFuel → triple P (lift r) P P.
Proof. intros Hr s Hs. unfold lift; simpl. by destruct r. Qed.

Lemma triple_weaken P P' Q Q' E E' m :
  triple P m Q E → (∀ s, P' s → P s) → (∀ s, Q s → Q' s) → (∀ s, E s → E' s) →
  triple P' m Q' E'.
Proof.
  intros Hm HP HQ HE s Hs. specialize (Hm s (HP s Hs)).
  destruct (m s).1; auto.
Qed.

Lemma triple_try_except P Q E E' m (handler : exn → M A) :
  triple P m Q E' → (∀ e, triple E' (handler e) Q E) →
  triple P (try_except m handler) Q E.
Proof.
  intros Hm Hh s Hs. specialize (Hm s Hs). unfold try_except.
  destruct (m s) as [[a|e|] s']; simpl in *; [done| |done].
  by apply Hh.
Qed.

Lemma triple_always_ok P E m : preserves P m → always_ok m → triple P m P E.
Proof.
  intros Hp Hm s Hs. specialize (Hp s Hs).
  destruct (Hm s) as (a & s' & Heq). by rewrite Heq in *.
Qed.

Lemma triple_ok_or_raise P m : preserves P m → ok_or_raise m → triple P m P P.
Proof.
  intros Hp Hm s Hs. specialize (Hp s Hs). specialize (Hm s).
  by destruct (m s) as [[a|e|] s'].
Qed.
End triple.

Lemma triple_bind {A B} (P Q Q' E : Executor → Prop) (m : M A) (f : A → M B) :
  triple P m Q' E → (∀ a, triple Q' (f a) Q E) → triple P (m ≫= f) Q E.
Proof.
  intros Hm Hf s Hs. specialize (Hm s Hs). unfold mbind, M_bind.
  destruct (m s) as [[a|e|] s']; simpl in *; [by apply Hf|done..].
Qed.

Lemma triple_skip {A} (P Q E : Executor → Prop) (a : A) :
  (∀ s, P s → Q s) → triple P (mret a) Q E.
Proof. intros HPQ s Hs. by apply HPQ. Qed.

Lemma triple_post {A} (P Q Q' E : Executor → Prop) (m : M A) :
  triple P m Q E → (∀ s, Q s → Q' s) → triple P m Q' E.
Proof. intros Hm HQ. by apply (triple_weaken P P Q Q' E E). Qed.

(** A step that cannot fail, in front of a triple. *)
Lemma triple_step {B} (P Q Q' E : Executor → Prop) (m : M ()) (f : M B) :
  always_ok m → (∀ s, P s → Q' (m s).2) → triple Q' f Q E →
  triple P (m;; f) Q E.
Proof.
  intros Hok Hm Hf. apply (triple_bind P Q Q' E); [|by intros _].
  intros s Hs. specialize (Hm s Hs).
  destruct (Hok s) as (a & s' & Heq). by rewrite Heq in *.
Qed.

(** ** The entries of a record under [_update_subtask_status] *)

Lemma entries_ok_seen R U R' U' seen entries :
  (∀ x, x ∈ R → x ∈ seen ∨ x ∈ R') → (∀ x, x ∈ U → x ∈ seen ∨ x ∈ U') →
  entries_ok R U seen entries → entries_ok R' U' seen entries.
Proof.
  revert seen. induction entries as [|entry entries IH]; intros seen HR HU;
    simpl; [done|].
  intros [Hentry Hentries]. split.
  - case_decide; [done|]. unfold entry_ok in *.
    destruct (s_status entry); [| |done..].
    + destruct Hentry as (Hin & ? & ?). split_and!; [|done..].
      by destruct (HU _ Hin).
    + by destruct (HR _ Hentry).
  - apply IH; [| |done]; intros x Hx; [destruct (HR x Hx)|destruct (HU x Hx)];
      set_solver.
Qed.

Lemma entries_ok_mono R U R' U' seen entries :
  R ⊆ R' → U ⊆ U' →
  entries_ok R U seen entries → entries_ok R' U' seen entries.
Proof. intros HR HU. apply entries_ok_seen; set_solver. Qed.

Lemma entries_ok_running R U seen entries sid :
  sid ∉ seen → entries_ok R U seen entries →
  entries_ok ({[sid]} ∪ R) (U ∖ {[sid]}) seen
    (update_entry entries sid RUNNING None None).
Proof.
  revert seen. induction entries as [|entry entries IH]; intros seen Hsid;
    simpl; [done|].
  intros [Hentry Hentries].
  destruct (decide (s_id entry = sid)) as [Hid|Hid]; simpl.
  - rewrite decide_False in Hentry by (by rewrite Hid).
    rewrite decide_False by (by rewrite Hid). split.
    + unfold entry_ok; simpl. set_solver.
    + revert Hentries.
      apply entries_ok_seen; intros x Hx; destruct (decide (x = sid)); set_solver.
  - split.
    + destruct (decide (s_id entry ∈ seen)); [done|]. unfold entry_ok in *.
      destruct (s_status entry); set_solver.
    + apply IH; [set_solver|done].
Qed.

Lemma entries_ok_settled R U seen entries sid status output error :
  (status = COMPLETED ∧ is_Some output) ∨ (status = FAILED ∧ is_Some error) →
  sid ∉ seen → entries_ok R U seen entries →
  entries_ok (R ∖ {[sid]}) U seen (update_entry entries sid status output error).
Proof.
  intros Hstatus. revert seen.
  induction entries as [|entry entries IH]; intros seen Hsid; simpl; [done|].
  intros [Hentry Hentries].
  destruct (decide (s_id entry = sid)) as [Hid|Hid]; simpl.
  - rewrite decide_False in Hentry by (by rewrite Hid).
    rewrite decide_False by (by rewrite Hid). split.
    + unfold entry_ok; simpl.
      by destruct Hstatus as [[-> [? ->]]|[-> [? ->]]].
    + revert Hentries.
      apply entries_ok_seen; intros x Hx; destruct (decide (x = sid)); set_solver.
  - split.
    + destruct (decide (s_id entry ∈ seen)); [done|]. unfold entry_ok in *.
      destruct (s_status entry); set_solver.
    + apply IH; [set_solver|done].
Qed.

Lemma entries_ok_untouched R U seen entries :
  Forall (λ entry, untouched entry ∧ s_id entry ∈ U) entries →
  entries_ok R U seen entries.
Proof.
  intros Hall. revert seen.
  induction Hall as [|entry entries [Hentry Hin] _ IH]; intros seen; simpl;
    [done|].
  split; [|apply IH]. case_decide; [done|].
  unfold entry_ok. by destruct Hentry as (-> & ? & ?).
Qed.

(** What the entries look like once nothing is in flight and nothing is
    waiting. *)
Lemma entries_ok_lookup R U seen entries i entry :
  entries_ok R U seen entries → entries !! i = Some entry →
  if decide (s_id entry ∈ seen ∨ s_id entry ∈ s_id <$> take i entries)
  then untouched entry else entry_ok R U entry.
Proof.
  revert seen i. induction entries as [|entry' entries IH]; intros seen i;
    simpl; [done|].
  intros [Hentry Hentries]. destruct i as [|i]; simpl.
  - intros [= <-]. repeat case_decide; try done; set_solver.
  - intros Hi. specialize (IH _ _ Hentries Hi).
    repeat case_decide; try done; set_solver.
Qed.

Lemma entry_ok_settled entry : entry_ok ∅ ∅ entry → settled entry.
Proof.
  unfold entry_ok, settled. destruct (s_status entry); set_solver.
Qed.

(** ** What the executor's steps do to the entries *)

Section tracks.
Context (w : World) (task_id : string).

Local Abbreviation nothing := (λ _ : Executor, False).

Lemma tracks_mono R U R' U' s :
  R ⊆ R' → U ⊆ U' → tracks task_id R U s → tracks task_id R' U' s.
Proof.
  intros HR HU (record & Hrecord & Hentries). exists record. split; [done|].
  by apply (entries_ok_mono R U).
Qed.

Lemma tracks_update R U R' U' sid status output error s :
  (∀ entries, entries_ok R U ∅ entries →
              entries_ok R' U' ∅ (update_entry entries sid status output error)) →
  tracks task_id R U s →
  tracks task_id R' U' (_update_subtask_status task_id sid status output error s).2.
Proof.
  intros Hupdate (record & Hrecord & Hentries).
  unfold _update_subtask_status, mbind, M_bind, get_active. simpl.
  rewrite Hrecord. unfold _save_task_status, tracks. simpl.
  eexists. split; [apply lookup_insert_eq|]. simpl. by apply Hupdate.
Qed.

Lemma tracks_running R U sid s :
  tracks task_id R U s →
  tracks task_id ({[sid]} ∪ R) (U ∖ {[sid]})
    (_update_subtask_status task_id sid RUNNING None None s).2.
Proof.
  apply tracks_update. intros entries.
  apply entries_ok_running. set_solver.
Qed.

Lemma tracks_settled R U sid status output error s :
  (status = COMPLETED ∧ is_Some output) ∨ (status = FAILED ∧ is_Some error) →
  tracks task_id R U s →
  tracks task_id (R ∖ {[sid]}) U
    (_update_subtask_status task_id sid status output error s).2.
Proof.
  intros Hstatus. apply tracks_update. intros entries.
  apply entries_ok_settled; [done|set_solver].
Qed.

Lemma tracks_execute_subtask R U subtask :
  preserves (tracks task_id R U) (_execute_subtask w subtask).
Proof. apply kept_by_execute_subtask. by intros command s Hs. Qed.

(** The runner's outcome is recorded, whatever it is. *)
Lemma triple_record_outcome R U sid subtask :
  triple (tracks task_id R U)
    (result ← _execute_subtask w subtask;
     _update_subtask_status task_id sid COMPLETED (Some result.1) None)
    (tracks task_id (R ∖ {[sid]}) U) (tracks task_id R U).
Proof.
  apply (triple_bind _ _ (tracks task_id R U)).
  - apply triple_ok_or_raise;
      [apply tracks_execute_subtask|apply ok_or_raise_execute_subtask].
  - intros result s Hs.
    pose proof (tracks_settled R U sid COMPLETED (Some result.1) None s) as H.
    destruct (always_ok_update task_id sid COMPLETED (Some result.1) None s)
      as ([] & s' & Heq).
    rewrite Heq in *. simpl. apply H; [|done]. left. by eauto.
Qed.

Lemma triple_record_failure R U sid e E :
  triple (tracks task_id R U)
    (_update_subtask_status task_id sid FAILED None (Some (str e)))
    (tracks task_id (R ∖ {[sid]}) U) E.
Proof.
  intros s Hs.
  pose proof (tracks_settled R U sid FAILED None (Some (str e)) s) as H.
  destruct (always_ok_update task_id sid FAILED None (Some (str e)) s)
    as ([] & s' & Heq).
  rewrite Heq in *. simpl. apply H; [|done]. right. by eauto.
Qed.

Lemma triple_wrapper R U sid subtask :
  triple (tracks task_id R U) (_execute_subtask_wrapper w task_id sid subtask)
    (tracks task_id (R ∖ {[sid]}) U) nothing.
Proof.
  eapply triple_try_except; [apply triple_record_outcome|].
  intros e. apply triple_record_failure.
Qed.

Lemma triple_mark_running {B} R U sid (f : M B) Q E :
  triple (tracks task_id ({[sid]} ∪ R) (U ∖ {[sid]})) f Q E →
  triple (tracks task_id R U)
    (_update_subtask_status task_id sid RUNNING None None;; f) Q E.
Proof.
  apply triple_step; [apply always_ok_update|].
  intros s. apply tracks_running.
Qed.

Lemma subtask_ids_cons i subtask subtasks :
  subtask_ids i (subtask :: subtasks) =
    subtask_id_of i subtask :: subtask_ids (S i) subtasks.
Proof.
  unfold subtask_ids. rewrite imap_cons. f_equal; [by rewrite Nat.add_0_r|].
  apply imap_ext. intros j x _. simpl. f_equal. lia.
Qed.

Lemma triple_sequential R U i subtasks :
  triple (tracks task_id R U) (_execute_sequential w task_id i subtasks)
    (tracks task_id (R ∖ list_to_set (subtask_ids i subtasks))
                    (U ∖ list_to_set (subtask_ids i subtasks)))
    nothing.
Proof.
  revert R U i. induction subtasks as [|subtask subtasks IH]; intros R U i.
  - simpl. apply triple_skip. intros s. apply tracks_mono; set_solver.
  - rewrite subtask_ids_cons. simpl. apply triple_mark_running.
    eapply triple_bind; [apply triple_wrapper|]. intros _.
    eapply triple_post; [apply IH|].
    intros s. apply tracks_mono; set_solver.
Qed.

Lemma triple_gather tasks sids R U :
  Forall2 (settles task_id) tasks sids →
  triple (tracks task_id R U) (gather tasks)
    (tracks task_id (R ∖ list_to_set sids) U) nothing.
Proof.
  intros Hall. revert R.
  induction Hall as [|task sid tasks sids Htask _ IH]; intros R; simpl.
  - apply triple_skip. intros s. apply tracks_mono; set_solver.
  - eapply triple_bind; [apply Htask|]. intros _.
    eapply triple_post; [apply IH|].
    intros s. apply tracks_mono; set_solver.
Qed.

Lemma launch_all_tracks i subtasks tasks sids R U s :
  Forall2 (settles task_id) tasks sids → tracks task_id R U s →
  ∃ tasks' s',
    launch_all w task_id i subtasks tasks s = (Ok tasks', s') ∧
    Forall2 (settles task_id) tasks' (sids ++ subtask_ids i subtasks) ∧
    tracks task_id (list_to_set (subtask_ids i subtasks) ∪ R)
                   (U ∖ list_to_set (subtask_ids i subtasks)) s'.
Proof.
  revert i tasks sids R U s.
  induction subtasks as [|subtask subtasks IH]; intros i tasks sids R U s Htasks Hs.
  - simpl. exists tasks, s. rewrite app_nil_r. split_and!; [done..|].
    revert Hs. apply tracks_mono; set_solver.
  - rewrite subtask_ids_cons. simpl.
    pose proof (tracks_running R U (subtask_id_of i subtask) s Hs) as Hs1.
    destruct (always_ok_update task_id (subtask_id_of i subtask) RUNNING None None s)
      as ([] & s1 & Heq).
    unfold mbind at 1, M_bind at 1. rewrite Heq in *. simpl in Hs1.
    assert (Forall2 (settles task_id)
              (tasks ++ [_execute_subtask_wrapper w task_id
                           (subtask_id_of i subtask) subtask])
              (sids ++ [subtask_id_of i subtask])) as Htasks1.
    { apply Forall2_app; [done|]. constructor; [|constructor].
      intros R' U'. apply triple_wrapper. }
    destruct (IH (S i) _ _ _ _ s1 Htasks1 Hs1) as
      (tasks' & s' & Hl & Htasks' & Hs').
    exists tasks', s'. rewrite <- (assoc_L (++)) in Htasks'.
    split_and!; [done..|]. revert Hs'. apply tracks_mono; set_solver.
Qed.

Lemma triple_parallel R U subtasks :
  triple (tracks task_id R U) (_execute_parallel w task_id subtasks)
    (tracks task_id (R ∖ list_to_set (subtask_ids 0 subtasks))
                    (U ∖ list_to_set (subtask_ids 0 subtasks)))
    nothing.
Proof.
  intros s Hs. unfold _execute_parallel, mbind, M_bind.
  destruct (launch_all_tracks 0 subtasks [] [] R U s) as
    (tasks & s1 & -> & Htasks & Hs1); [constructor|done|].
  simpl in Htasks.
  pose proof (triple_gather tasks _ _ _ Htasks s1 Hs1) as Hg.
  destruct (gather tasks s1) as [[[]|e|] s2]; simpl in *; [|done..].
  revert Hg. apply tracks_mono; set_solver.
Qed.

Lemma triple_simple R U execution_mode subtasks :
  triple (tracks task_id R U) (execute_simple w task_id execution_mode subtasks)
    (tracks task_id (R ∖ list_to_set (subtask_ids 0 subtasks))
                    (U ∖ list_to_set (subtask_ids 0 subtasks)))
    nothing.
Proof.
  unfold execute_simple. case_decide;
    [apply triple_parallel | apply triple_sequential].
Qed.

(** *** Along a plan *)

Section plan.
Context (m : gmap string Task).
Context (m_truthy : ∀ sid subtask, m !! sid = Some subtask → truthy subtask = true).

Lemma named_cons_Some sid subtask group :
  m !! sid = Some subtask → named m (sid :: group) = {[sid]} ∪ named m group.
Proof.
  intros Hsid. unfold named. by rewrite filter_cons, decide_True by eauto.
Qed.

Lemma named_cons_None sid group :
  m !! sid = None → named m (sid :: group) = named m group.
Proof.
  intros Hsid. unfold named. rewrite filter_cons, decide_False; [done|].
  rewrite Hsid. by intros [? ?].
Qed.

Lemma named_app group group' : named m (group ++ group') = named m group ∪ named m group'.
Proof. unfold named. rewrite filter_app. set_solver. Qed.

Lemma launch_group_tracks group tasks sids R U s :
  Forall2 (settles task_id) tasks sids → tracks task_id R U s →
  ∃ tasks' sids' s',
    launch_group w task_id m group tasks s = (Ok tasks', s') ∧
    Forall2 (settles task_id) tasks' sids' ∧
    list_to_set sids' = list_to_set sids ∪ named m group ∧
    tracks task_id (named m group ∪ R) (U ∖ named m group) s'.
Proof.
  revert tasks sids R U s.
  induction group as [|sid group IH]; intros tasks sids R U s Htasks Hs.
  - simpl. exists tasks, sids, s. split_and!; [done..|set_solver|].
    revert Hs. apply tracks_mono; set_solver.
  - simpl. destruct (m !! sid) as [subtask|] eqn:Hsid.
    + rewrite (m_truthy _ _ Hsid), (named_cons_Some _ _ _ Hsid).
      pose proof (tracks_running R U sid s Hs) as Hs1.
      destruct (always_ok_update task_id sid RUNNING None None s)
        as ([] & s1 & Heq).
      unfold mbind at 1, M_bind at 1. rewrite Heq in *. simpl in Hs1.
      assert (Forall2 (settles task_id)
                (tasks ++ [_execute_subtask_wrapper w task_id sid subtask])
                (sids ++ [sid])) as Htasks1.
      { apply Forall2_app; [done|]. constructor; [|constructor].
        intros R' U'. apply triple_wrapper. }
      destruct (IH _ _ _ _ s1 Htasks1 Hs1) as
        (tasks' & sids' & s' & Hl & Htasks' & Hsids' & Hs').
      exists tasks', sids', s'. split_and!; [done..| |].
      * rewrite Hsids', list_to_set_app_L. set_solver.
      * revert Hs'. apply tracks_mono; set_solver.
    + rewrite (named_cons_None _ _ Hsid). by apply IH.
Qed.

Lemma triple_several R U group :
  triple (tracks task_id R U)
    (tasks ← launch_group w task_id m group []; gather tasks)
    (tracks task_id (R ∖ named m group) (U ∖ named m group))
    (tracks task_id R U).
Proof.
  intros s Hs. unfold mbind, M_bind.
  destruct (launch_group_tracks group [] [] R U s) as
    (tasks & sids & s1 & -> & Htasks & Hsids & Hs1); [constructor|done|].
  pose proof (triple_gather tasks _ _ _ Htasks s1 Hs1) as Hg.
  destruct (gather tasks s1) as [[[]|e|] s2]; simpl in *; [|done..].
  revert Hg. rewrite Hsids. apply tracks_mono; set_solver.
Qed.

Lemma triple_group R U group :
  triple (tracks task_id R U) (execute_group w task_id m group)
    (tracks task_id (R ∖ named m group) (U ∖ named m group))
    (tracks task_id R U).
Proof.
  unfold execute_group.
  destruct group as [|sid [|sid' group]]; [apply triple_several| |apply triple_several].
  destruct (m !! sid) as [subtask|] eqn:Hsid.
  - rewrite (m_truthy _ _ Hsid), (named_cons_Some _ _ _ Hsid).
    apply triple_mark_running. eapply triple_try_except.
    + eapply triple_post; [apply triple_record_outcome|].
      intros s. apply tracks_mono; set_solver.
    + intros e. eapply triple_bind; [apply triple_record_failure|].
      intros _ s Hs. simpl. revert Hs. apply tracks_mono; set_solver.
  - rewrite (named_cons_None _ _ Hsid).
    apply triple_skip. intros s. apply tracks_mono; set_solver.
Qed.

Lemma triple_groups R U execution_plan :
  triple (tracks task_id R U) (execute_groups w task_id m execution_plan)
    (tracks task_id (R ∖ named m (concat execution_plan))
                    (U ∖ named m (concat execution_plan)))
    (tracks task_id R U).
Proof.
  revert R U. induction execution_plan as [|group execution_plan IH];
    intros R U; simpl.
  - apply triple_skip. intros s. apply tracks_mono; set_solver.
  - rewrite named_app. eapply triple_bind; [apply triple_group|].
    intros _. eapply triple_weaken; [apply IH|done| |].
    + intros s. apply tracks_mono; set_solver.
    + intros s. apply tracks_mono; set_solver.
Qed.
End plan.
End tracks.

(** ** The subtasks after "Extract dependencies" *)

Lemma subtask_ids_normalize execution_mode i subtasks :
  subtask_ids i (imap (λ j, normalize execution_mode (i + j)) subtasks) =
    subtask_ids i subtasks.
Proof.
  revert i. induction subtasks as [|subtask subtasks IH]; intros i; [done|].
  rewrite imap_cons, !subtask_ids_cons, Nat.add_0_r. f_equal.
  rewrite <- (IH (S i)). f_equal. apply imap_ext. intros j x _. simpl.
  f_equal. lia.
Qed.

Lemma subtask_ids_imap_normalize execution_mode subtasks :
  subtask_ids 0 (imap (normalize execution_mode) subtasks) = subtask_ids 0 subtasks.
Proof. apply (subtask_ids_normalize execution_mode 0). Qed.

Lemma declared_normalize execution_mode i subtasks :
  declared (imap (λ j, normalize execution_mode (i + j)) subtasks) =
    subtask_ids i subtasks.
Proof.
  revert i. induction subtasks as [|subtask subtasks IH]; intros i; [done|].
  rewrite imap_cons, subtask_ids_cons, Nat.add_0_r. unfold declared. simpl.
  f_equal. rewrite <- (IH (S i)). unfold declared. f_equal.
  apply imap_ext. intros j x _. simpl. f_equal. lia.
Qed.

Lemma has_id_normalize execution_mode subtasks :
  Forall has_id (imap (normalize execution_mode) subtasks).
Proof.
  apply Forall_forall. intros task (i & subtask & -> & _)%elem_of_lookup_imap.
  unfold has_id. simpl. eauto.
Qed.

Lemma omap_command_of_imap (f : nat → Task → Task) subtasks :
  (∀ i x, command_of (f i x) = command_of x) →
  omap command_of (imap f subtasks) = omap command_of subtasks.
Proof.
  revert f. induction subtasks as [|subtask subtasks IH]; intros f Hcmd; [done|].
  rewrite imap_cons. simpl. rewrite Hcmd, IH; [done|]. intros i x. apply Hcmd.
Qed.

Lemma command_of_normalize execution_mode subtasks :
  omap command_of (imap (normalize execution_mode) subtasks) =
    omap command_of subtasks.
Proof. by apply omap_command_of_imap. Qed.

Lemma fst_imap_subtask_map subtasks :
  (imap (λ i subtask, (subtask_id_of i subtask, subtask)) subtasks).*1 =
    subtask_ids 0 subtasks.
Proof.
  unfold subtask_ids. rewrite fmap_imap. by apply imap_ext.
Qed.

Lemma subtask_map_is_Some subtasks sid :
  is_Some (subtask_map subtasks !! sid) ↔ sid ∈ subtask_ids 0 subtasks.
Proof.
  unfold subtask_map. rewrite <- fst_imap_subtask_map.
  rewrite <- not_eq_None_Some, <- not_elem_of_list_to_map, fmap_reverse.
  rewrite elem_of_reverse. split; [apply dec_stable|auto].
Qed.

Lemma subtask_map_elem_of subtasks sid subtask :
  subtask_map subtasks !! sid = Some subtask → subtask ∈ subtasks.
Proof.
  unfold subtask_map.
  intros Hin%elem_of_list_to_map_2. rewrite elem_of_reverse in Hin.
  apply elem_of_lookup_imap in Hin as (i & x & [= _ ->] & Hx).
  by eapply list_elem_of_lookup_2.
Qed.

Lemma subtask_map_truthy execution_mode subtasks sid subtask :
  subtask_map (imap (normalize execution_mode) subtasks) !! sid = Some subtask →
  truthy subtask = true.
Proof.
  intros (i & x & -> & _)%subtask_map_elem_of%elem_of_lookup_imap.
  unfold truthy. apply bool_decide_eq_true. left. simpl. eauto.
Qed.

(** A returned plan schedules every declared id. *)
Lemma plan_covers_declared o tasks plan x :
  create_execution_plan o tasks = Ok plan → x ∈ declared tasks → x ∈ concat plan.
Proof.
  intros (G & HG & _ & Hinv & _)%create_execution_plan_Ok Hx.
  apply graph_of_tasks in HG as (_ & _ & Hnodes).
  destruct (proj1 (inv_cover _ _ _ Hinv x)) as [?|Hin]; [|done|set_solver].
  apply Hnodes. by left.
Qed.

(** A dependency cycle makes the planner raise. *)
Lemma create_execution_plan_cycle o tasks :
  Forall has_id tasks → (∃ t, tc (depends tasks) t t) →
  create_execution_plan o tasks = Raise (TaskDependencyError cycle_error).
Proof.
  intros Hids Hcyc. destruct (add_tasks_has_id tasks empty Hids) as [G HG].
  pose proof HG as (Hwf & _)%graph_of_tasks.
  unfold create_execution_plan. rewrite HG. simpl.
  apply plan_graph_cycle; [done|]. by apply (has_cycle_depends tasks G HG).
Qed.

(** ** Every subtask settles *)

Lemma triple_process_subtasks w o task_id execution_mode subtasks :
  triple (tracks task_id ∅ (list_to_set (subtask_ids 0 subtasks)))
    (process_subtasks w o task_id execution_mode subtasks)
    (tracks task_id ∅ ∅) (λ _, False).
Proof.
  set (ids := list_to_set (subtask_ids 0 subtasks) : gset string).
  assert (triple (tracks task_id ∅ ids)
            (execute_simple w task_id execution_mode subtasks)
            (tracks task_id ∅ ∅) (λ _, False)) as Hsimple.
  { eapply triple_post; [apply triple_simple|].
    intros s. apply tracks_mono; set_solver. }
  assert (triple (tracks task_id ∅ ids)
            (execute_simple w task_id execution_mode
               (imap (normalize execution_mode) subtasks))
            (tracks task_id ∅ ∅) (λ _, False)) as Hfallback.
  { eapply triple_post; [apply triple_simple|].
    intros s. rewrite subtask_ids_imap_normalize.
    apply tracks_mono; set_solver. }
  assert (triple (tracks task_id ∅ ids)
            (try_except
               (execution_plan ←
                  lift (create_execution_plan o
                          (imap (normalize execution_mode) subtasks));
                _execute_with_dependencies w task_id
                  (imap (normalize execution_mode) subtasks) execution_plan)
               (λ e, execute_simple w task_id execution_mode
                       (imap (normalize execution_mode) subtasks)))
            (tracks task_id ∅ ∅) (λ _, False)) as Hplanned; last first.
  { intros s Hs. unfold process_subtasks.
    destruct (dependency_manager s); [by apply Hplanned|by apply Hsimple]. }
  eapply triple_try_except; [|intros e; apply Hfallback].
  destruct (create_execution_plan_total o
              (imap (normalize execution_mode) subtasks))
    as [[plan Hplan]|[e Hplan]]; rewrite Hplan.
  - intros s Hs.
    pose proof (triple_groups w task_id _
                  (subtask_map_truthy execution_mode subtasks) ∅ ids plan s Hs)
      as Hgroups.
    unfold _execute_with_dependencies, lift, mbind, M_bind. simpl.
    destruct (execute_groups _ _ _ _ s) as [[[]|e|] s']; simpl in *; [|done..].
    revert Hgroups. apply tracks_mono; [set_solver|].
    intros x [Hx Hnot]%elem_of_difference. exfalso. apply Hnot.
    unfold named. apply elem_of_list_to_set, list_elem_of_filter. split.
    + apply subtask_map_is_Some. rewrite subtask_ids_imap_normalize.
      by apply elem_of_list_to_set in Hx.
    + apply (plan_covers_declared o _ _ _ Hplan).
      rewrite (declared_normalize execution_mode 0).
      by apply elem_of_list_to_set in Hx.
  - by intros s Hs.
Qed.

Lemma tracks_begun w task_data s :
  tracks (task_id_of w task_data) ∅
    (list_to_set (subtask_ids 0 (subtasks_of task_data))) (begun w task_data s).
Proof.
  eexists. split; [apply lookup_insert_eq|]. simpl.
  apply entries_ok_untouched, Forall_forall.
  intros entry (i & subtask & -> & Hi)%elem_of_lookup_imap. split; [done|].
  simpl. apply elem_of_list_to_set, elem_of_lookup_imap.
  by exists i, subtask.
Qed.

(** X9. [execute_task] returns a record in which the first entry under
    each subtask id has settled: it is COMPLETED and has an output, or it
    is FAILED and has an error. No entry is left RUNNING or CANCELLED,
    whichever way the subtasks were run. An entry whose id repeats that of
    an earlier entry is never updated: it stays PENDING, without output
    and error. *)
Theorem every_subtask_settles (w : World) (o : SetOrder) (task_data : TaskData)
    (s : Executor) :
  ∃ record s',
    execute_task w o task_data s = (Ok record, s') ∧
    ∀ i entry, r_subtasks record !! i = Some entry →
      if decide (s_id entry ∈ s_id <$> take i (r_subtasks record))
      then untouched entry else settled entry.
Proof.
  destruct (execute_task_steps w o task_data s) as (s1 & record1 & Hp & Hr & He).
  simpl in He. eexists _, _. split; [exact He|]. simpl.
  pose proof (triple_process_subtasks w o (task_id_of w task_data)
                (execution_mode_of task_data) (subtasks_of task_data)
                _ (tracks_begun w task_data s)) as Ht.
  rewrite Hp in Ht. simpl in Ht. destruct Ht as (record & Hrecord & Hentries).
  assert (record = record1) as -> by congruence.
  intros i entry Hi.
  pose proof (entries_ok_lookup _ _ _ _ _ _ Hentries Hi) as Hentry.
  repeat case_decide; try done; [set_solver|set_solver|].
  by apply entry_ok_settled.
Qed.

(** ** One task at a time *)

(** What [execute_task] of [TaskExecutor] touches. *)
Lemma execute_task_own_task w o task_data s :
  let task_id := task_id_of w task_data in
  let s' := (execute_task w o task_data s).2 in
  (∀ k, k ≠ task_id → active_tasks s' !! k = active_tasks s !! k) ∧
  ∃ written, storage s' = storage s ++ written ∧
             Forall (λ entry, entry.1 = task_id) written.
Proof.
  intros task_id s'.
  set (P := λ s1 : Executor,
         (∀ k, k ≠ task_id → active_tasks s1 !! k = active_tasks s !! k) ∧
         ∃ written, storage s1 = storage s ++ written ∧
                    Forall (λ entry : string * TaskRecord, entry.1 = task_id)
                      written).
  assert (∀ sid status output error,
            preserves P (_update_subtask_status task_id sid status output error))
    as Hupdate.
  { intros sid status output error s1 [Hactive (written & Hstorage & Hwritten)].
    unfold _update_subtask_status, mbind, M_bind, get_active. simpl.
    destruct (active_tasks s1 !! task_id) as [record|]; simpl; [|by split; eauto].
    unfold P. simpl. split.
    - intros k Hk. by rewrite lookup_insert_ne; auto.
    - eexists. rewrite Hstorage, <- (assoc_L (++)). split; [done|].
      apply Forall_app. split; [done|]. by apply Forall_singleton. }
  destruct (execute_task_steps w o task_data s) as (s1 & record1 & Hp & _ & He).
  assert (P s1) as [Hactive (written & Hstorage & Hwritten)].
  { pose proof (kept_by_process_subtasks w task_id P) as Hkept.
    specialize (Hkept (λ sid, Hupdate sid _ _ _) (λ sid output, Hupdate sid _ _ _)
                  (λ sid error, Hupdate sid _ _ _)).
    specialize (Hkept (λ command s1 Hs1, Hs1) o (execution_mode_of task_data)
                  (subtasks_of task_data) (begun w task_data s)).
    fold task_id in Hp. rewrite Hp in Hkept. apply Hkept. split; simpl.
    - intros k Hk. by rewrite lookup_insert_ne; auto.
    - eexists. split; [done|]. by apply Forall_singleton. }
  unfold s'. simpl in He. rewrite He. split; simpl.
  - intros k Hk. fold task_id. by rewrite lookup_insert_ne; auto.
  - eexists. rewrite Hstorage, <- (assoc_L (++)). split; [done|].
    apply Forall_app. split; [done|]. by apply Forall_singleton.
Qed.

Lemma on_disk_read_file_app d task_id storage written :
  Forall (λ entry : string * TaskRecord,
            OnDisk.status_file d entry.1 ≠ OnDisk.status_file d task_id) written →
  OnDisk.read_file d task_id (storage ++ written) = OnDisk.read_file d task_id storage.
Proof.
  intros Hall. unfold OnDisk.read_file. rewrite filter_app.
  replace (filter (λ entry : string * TaskRecord,
                     OnDisk.status_file d entry.1 = OnDisk.status_file d task_id)
                  written)
    with (@nil (string * TaskRecord)); [by rewrite app_nil_r|].
  induction Hall as [|entry written Hentry _ IH]; [done|].
  by rewrite filter_cons, decide_False.
Qed.

(** X10. [execute_task] works on its own task only, whether its status
    file can be written or not: the records of the other task ids in
    [active_tasks] are left as they were, every snapshot it writes is
    written under its own task id, and [get_task_status] answers as it
    did before for every task id whose status file is another file. (Two
    ids can name one file, as [a] and [./a] do; for such an id the answer
    can change.) *)
Theorem execute_task_touches_one_task (d : OnDisk.Directory) (w : World)
    (o : SetOrder) (task_data : TaskData) (s : Executor) :
  let task_id := task_id_of w task_data in
  let s' := (OnDisk.execute_task d w o task_data s).2 in
  (∀ k, k ≠ task_id → active_tasks s' !! k = active_tasks s !! k) ∧
  (∃ written, storage s' = storage s ++ written ∧
              Forall (λ entry, entry.1 = task_id) written) ∧
  (∀ k, OnDisk.status_file d k ≠ OnDisk.status_file d task_id →
        (OnDisk.get_task_status d k s').1 = (OnDisk.get_task_status d k s).1).
Proof.
  intros task_id s'.
  assert ((∀ k, k ≠ task_id → active_tasks s' !! k = active_tasks s !! k) ∧
          ∃ written, storage s' = storage s ++ written ∧
                     Forall (λ entry : string * TaskRecord, entry.1 = task_id)
                       written) as [Hactive (written & Hstorage & Hwritten)].
  { unfold s'.
    destruct (OnDisk.open_w d (OnDisk.status_file d task_id)) as [e|] eqn:Hd.
    - rewrite (on_disk_unwritable d w o task_data s e Hd). simpl. split.
      + intros k Hk. fold task_id. by rewrite lookup_insert_ne; auto.
      + exists []. by rewrite app_nil_r.
    - rewrite (on_disk_execute_task d w o task_data s Hd).
      apply execute_task_own_task. }
  split_and!; [done|by eauto|].
  intros k Hk. unfold OnDisk.get_task_status. simpl.
  rewrite Hactive by (by intros ->).
  rewrite Hstorage, on_disk_read_file_app; [done|].
  eapply Forall_impl; [exact Hwritten|]. simpl. by intros entry ->.
Qed.

(** ** The shape of the record *)

Lemma s_id_update_entry entries sid status output error :
  s_id <$> update_entry entries sid status output error = s_id <$> entries.
Proof.
  induction entries as [|entry entries IH]; [done|]. simpl.
  case_decide; [done|]. by rewrite !fmap_cons, IH.
Qed.

(** The entries of the returned record are those of the request. *)
Lemma returned_ids w o task_data s :
  ∃ record s',
    execute_task w o task_data s = (Ok record, s') ∧
    s_id <$> r_subtasks record = imap subtask_id_of (subtasks_of task_data).
Proof.
  destruct (execute_task_steps w o task_data s) as (s1 & record1 & Hp & Hr & He).
  simpl in He. eexists _, _. split; [exact He|]. simpl.
  set (task_id := task_id_of w task_data) in *.
  set (P := λ s1 : Executor,
         ∃ record, active_tasks s1 !! task_id = Some record ∧
           s_id <$> r_subtasks record = imap subtask_id_of (subtasks_of task_data)).
  assert (∀ sid status output error,
            preserves P (_update_subtask_status task_id sid status output error))
    as Hupdate.
  { intros sid status output error s2 (record & Hrecord & Hshape).
    unfold _update_subtask_status, mbind, M_bind, get_active. simpl.
    rewrite Hrecord. simpl. eexists.
    split; [apply lookup_insert_eq|]. simpl. by rewrite s_id_update_entry. }
  assert (P s1) as (record & Hrecord & Hshape).
  { pose proof (kept_by_process_subtasks w task_id P) as Hkept.
    specialize (Hkept (λ sid, Hupdate sid _ _ _) (λ sid output, Hupdate sid _ _ _)
                  (λ sid error, Hupdate sid _ _ _)).
    specialize (Hkept (λ command s1 Hs1, Hs1) o (execution_mode_of task_data)
                  (subtasks_of task_data) (begun w task_data s)).
    rewrite Hp in Hkept. apply Hkept. eexists.
    split; [apply lookup_insert_eq|]. simpl.
    rewrite fmap_imap. by apply imap_ext. }
  by assert (record = record1) as -> by congruence.
Qed.

(** X11. The record [execute_task] returns carries the task id, the
    requested execution mode, the first clock reading as start time and
    the next one as end time, no error, and one entry per subtask of the
    request, in the order of the request, each under the id of the subtask
    or [subtask-<position>] when it has none. *)
Theorem returned_record_shape (w : World) (o : SetOrder) (task_data : TaskData)
    (s : Executor) :
  ∃ record s',
    execute_task w o task_data s = (Ok record, s') ∧
    r_taskId record = task_id_of w task_data ∧
    r_executionMode record = execution_mode_of task_data ∧
    r_startTime record = isoformat_now w (clock s) ∧
    r_endTime record = Some (isoformat_now w (S (clock s))) ∧
    r_error record = None ∧
    s_id <$> r_subtasks record = imap subtask_id_of (subtasks_of task_data).
Proof.
  destruct (execute_task_steps w o task_data s) as (s1 & record1 & Hp & Hr & He).
  simpl in He. eexists _, _. split; [exact He|]. simpl.
  set (task_id := task_id_of w task_data) in *.
  set (P := λ s1 : Executor,
         clock s1 = S (clock s) ∧
         ∃ record, active_tasks s1 !! task_id = Some record ∧
           r_taskId record = task_id ∧
           r_executionMode record = execution_mode_of task_data ∧
           r_startTime record = isoformat_now w (clock s) ∧
           r_error record = None ∧
           s_id <$> r_subtasks record = imap subtask_id_of (subtasks_of task_data)).
  assert (∀ sid status output error,
            preserves P (_update_subtask_status task_id sid status output error))
    as Hupdate.
  { intros sid status output error s2 [Hclock (record & Hrecord & Hshape)].
    unfold _update_subtask_status, mbind, M_bind, get_active. simpl.
    rewrite Hrecord. simpl. split; [done|]. eexists.
    split; [apply lookup_insert_eq|]. simpl. by rewrite s_id_update_entry. }
  assert (P s1) as [Hclock (record & Hrecord & Hshape)].
  { pose proof (kept_by_process_subtasks w task_id P) as Hkept.
    specialize (Hkept (λ sid, Hupdate sid _ _ _) (λ sid output, Hupdate sid _ _ _)
                  (λ sid error, Hupdate sid _ _ _)).
    specialize (Hkept (λ command s1 Hs1, Hs1) o (execution_mode_of task_data)
                  (subtasks_of task_data) (begun w task_data s)).
    rewrite Hp in Hkept. apply Hkept. split; [done|]. eexists.
    split; [apply lookup_insert_eq|]. simpl. split_and!; try done.
    rewrite fmap_imap. by apply imap_ext. }
  assert (record = record1) as -> by congruence. rewrite Hclock.
  by destruct Hshape as (? & ? & ? & ? & ?).
Qed.

(** ** The commands handed to the shell *)

Section runs.
Context (w : World) (task_id : string).

Local Abbreviation ran := (λ (commands : list string) (s : Executor),
                             spawned s = commands).

Lemma ran_update commands sid status output error :
  preserves (ran commands)
    (_update_subtask_status task_id sid status output error).
Proof.
  intros s Hs. unfold _update_subtask_status, mbind, M_bind, get_active. simpl.
  by destruct (active_tasks s !! task_id).
Qed.

Lemma ran_execute_subtask commands subtask :
  triple (ran commands) (_execute_subtask w subtask)
    (ran (commands ++ option_list (command_of subtask)))
    (ran (commands ++ option_list (command_of subtask))).
Proof.
  intros s Hs. pose proof (ok_or_raise_execute_subtask w subtask s) as Hok.
  assert (spawned (_execute_subtask w subtask s).2 =
            commands ++ option_list (command_of subtask)) as Hspawned.
  { destruct (command_of subtask) as [command|] eqn:Hcommand.
    - destruct (_execute_subtask_command w subtask s command Hcommand) as [_ ->].
      by rewrite Hs.
    - simpl. rewrite app_nil_r, <- Hs. unfold command_of, _execute_subtask in *.
      destruct (t_command subtask) as [command|]; [|done]. by case_decide. }
  by destruct (_execute_subtask w subtask s).1.
Qed.

Lemma ran_wrapper commands sid subtask :
  triple (ran commands) (_execute_subtask_wrapper w task_id sid subtask)
    (ran (commands ++ option_list (command_of subtask))) (λ _, False).
Proof.
  eapply triple_try_except.
  - eapply triple_bind; [apply ran_execute_subtask|]. intros result.
    apply triple_always_ok; [apply ran_update|apply always_ok_update].
  - intros e. apply triple_always_ok; [apply ran_update|apply always_ok_update].
Qed.

Lemma ran_sequential commands i subtasks :
  triple (ran commands) (_execute_sequential w task_id i subtasks)
    (ran (commands ++ omap command_of subtasks)) (λ _, False).
Proof.
  revert commands i. induction subtasks as [|subtask subtasks IH];
    intros commands i; simpl.
  - apply triple_skip. intros s. by rewrite app_nil_r.
  - apply (triple_step _ _ (ran commands));
      [apply always_ok_update|apply ran_update|].
    eapply triple_bind; [apply ran_wrapper|]. intros _.
    eapply triple_post; [apply IH|]. intros s ->.
    rewrite <- (assoc_L (++)). f_equal. by destruct (command_of subtask).
Qed.
End runs.

(** X12. Without a dependency manager and in any mode but [parallel],
    [execute_task] hands the commands of the subtasks to the shell one
    after the other in the order of the request, each once, and goes on
    after a failure; a subtask without a command, or with an empty one,
    hands over nothing. *)
Theorem sequential_mode_runs_in_request_order (w : World) (o : SetOrder)
    (task_data : TaskData) (s : Executor) :
  dependency_manager s = false →
  execution_mode_of task_data ≠ "parallel" →
  spawned (execute_task w o task_data s).2 =
    spawned s ++ omap command_of (subtasks_of task_data).
Proof.
  intros Hdm Hmode.
  destruct (execute_task_steps w o task_data s) as (s1 & record1 & Hp & _ & He).
  simpl in He. rewrite He. simpl.
  pose proof (ran_sequential w (task_id_of w task_data) (spawned s) 0
                (subtasks_of task_data) (begun w task_data s) eq_refl) as Hran.
  unfold process_subtasks in Hp. simpl in Hp. rewrite Hdm in Hp.
  unfold execute_simple in Hp. rewrite decide_False in Hp by done.
  by rewrite Hp in Hran.
Qed.

Lemma sequential_mode_runs_in_request_order_witness :
  spawned (execute_task exit_1_world elements_order fail_then_dependent
             (fresh_executor false)).2 = ["exit 1"; "echo b"].
Proof.
  apply (sequential_mode_runs_in_request_order exit_1_world elements_order
           fail_then_dependent (fresh_executor false));
    [reflexivity | vm_compute; discriminate].
Defined.

(** X13. A dependency cycle among the subtasks is not reported: the
    planner's error is caught, the dependencies are dropped, and in any
    mode but [parallel] the subtasks are run one after the other in the
    order of the request; the task ends COMPLETED. *)
Theorem dependency_cycle_falls_back (w : World) (o : SetOrder)
    (task_data : TaskData) (s : Executor) :
  dependency_manager s = true →
  execution_mode_of task_data ≠ "parallel" →
  (∃ t, tc (depends (imap (normalize (execution_mode_of task_data))
                          (subtasks_of task_data))) t t) →
  ∃ record s',
    execute_task w o task_data s = (Ok record, s') ∧
    r_status record = COMPLETED ∧
    spawned s' = spawned s ++ omap command_of (subtasks_of task_data).
Proof.
  intros Hdm Hmode Hcycle.
  destruct (execute_task_steps w o task_data s) as (s1 & record1 & Hp & _ & He).
  simpl in He. eexists _, _. split; [exact He|]. simpl. split; [done|].
  pose proof (ran_sequential w (task_id_of w task_data) (spawned s) 0
                (imap (normalize (execution_mode_of task_data))
                      (subtasks_of task_data))
                (begun w task_data s) eq_refl) as Hran.
  unfold process_subtasks in Hp. simpl in Hp. rewrite Hdm in Hp.
  unfold try_except, mbind, M_bind, lift in Hp.
  rewrite (create_execution_plan_cycle o _ (has_id_normalize _ _) Hcycle) in Hp.
  unfold execute_simple in Hp. rewrite decide_False in Hp by done.
  rewrite Hp in Hran. simpl in Hran. by rewrite command_of_normalize in Hran.
Qed.

Lemma dependency_cycle_falls_back_witness :
  ∃ record s',
    execute_task exit_1_world elements_order mutual_dependency
      (fresh_executor true) = (Ok record, s') ∧
    r_status record = COMPLETED ∧
    spawned s' = ["echo a"; "echo b"].
Proof.
  apply (dependency_cycle_falls_back exit_1_world elements_order
           mutual_dependency (fresh_executor true));
    [reflexivity | vm_compute; discriminate |].
  exists "a". apply (tc_l _ "a" "b" "a"); [|apply tc_once].
  - eexists. split_and!; [apply list_elem_of_In; right; left; reflexivity| |];
      [reflexivity|]. simpl. set_solver.
  - eexists. split_and!; [apply list_elem_of_In; left; reflexivity| |];
      [reflexivity|]. simpl. set_solver.
Defined.

(** ** Asking for the status *)

(** X14. Once [execute_task] has returned, [get_task_status] gives the
    returned record for the task id, and so does the status endpoint,
    which makes a new executor and reads the snapshot from disk. The
    endpoint refuses the empty task id, which [execute_task] accepts. *)
Theorem status_endpoint_reports_final_record (w : World) (o : SetOrder)
    (task_data : TaskData) (s : Executor) :
  let task_id := task_id_of w task_data in
  ∃ record s',
    execute_task w o task_data s = (Ok record, s') ∧
    get_task_status task_id s' = (Ok (Some record), s') ∧
    handle_task_status (Some task_id) (storage s') =
      if decide (task_id = "") then Failed "taskId parameter is required"
      else Found record.
Proof.
  intros task_id.
  destruct (execute_task_steps w o task_data s) as (s1 & record1 & _ & _ & He).
  simpl in He. fold task_id in He. eexists _, _. split; [exact He|]. split.
  - unfold get_task_status. simpl. by rewrite lookup_insert_eq.
  - unfold handle_task_status. case_decide; [done|].
    unfold get_task_status. simpl. rewrite lookup_empty.
    by rewrite (read_file_last task_id _ _ (last_snoc _ _)).
Qed.

(** ** When every command succeeds *)

Lemma unfailed_update_entry entries sid status output error :
  status ≠ FAILED →
  Forall (λ entry, s_status entry ≠ FAILED) entries →
  Forall (λ entry, s_status entry ≠ FAILED)
         (update_entry entries sid status output error).
Proof.
  intros Hstatus.
  induction 1 as [|entry entries Hentry Hentries IH]; simpl; [done|].
  case_decide; constructor; done.
Qed.

Section unfailed.
Context (w : World) (task_id : string) (w_succeeds : succeeds w).

Local Abbreviation nothing := (λ _ : Executor, False).

Lemma unfailed_update commands sid status output error :
  status ≠ FAILED →
  preserves (unfailed task_id commands)
    (_update_subtask_status task_id sid status output error).
Proof.
  intros Hstatus s [Hspawned (record & Hrecord & Hentries)].
  unfold _update_subtask_status, mbind, M_bind, get_active. simpl.
  rewrite Hrecord. unfold _save_task_status, unfailed. simpl.
  split; [done|]. eexists. split; [apply lookup_insert_eq|]. simpl.
  by apply unfailed_update_entry.
Qed.

Lemma unfailed_execute_subtask commands subtask command :
  command_of subtask = Some command →
  triple (unfailed task_id commands) (_execute_subtask w subtask)
    (unfailed task_id (commands ++ [command])) nothing.
Proof.
  intros Hcommand s [Hspawned Hrecord].
  destruct (_execute_subtask_command w subtask s command Hcommand)
    as [Hresult Hspawned'].
  destruct (w_succeeds (length (spawned s)) command) as [Hcode Hutf8].
  simpl in Hresult. rewrite Hcode in Hresult.
  rewrite decide_False in Hresult by (by intros []).
  unfold decode in Hresult. rewrite Hutf8 in Hresult. rewrite Hresult. simpl.
  split; [by rewrite Hspawned', Hspawned|].
  revert Hrecord.
  apply (kept_by_execute_subtask w
           (λ s, ∃ record, active_tasks s !! task_id = Some record ∧
                   Forall (λ entry, s_status entry ≠ FAILED) (r_subtasks record))).
  by intros c s1 Hs1.
Qed.

Lemma unfailed_outcome commands sid subtask command :
  command_of subtask = Some command →
  triple (unfailed task_id commands)
    (result ← _execute_subtask w subtask;
     _update_subtask_status task_id sid COMPLETED (Some result.1) None)
    (unfailed task_id (commands ++ [command])) nothing.
Proof.
  intros Hcommand.
  eapply triple_bind; [by apply unfailed_execute_subtask|]. intros result.
  apply triple_always_ok; [by apply unfailed_update|apply always_ok_update].
Qed.

Lemma unfailed_wrapper sid subtask command :
  command_of subtask = Some command →
  runs_command task_id (_execute_subtask_wrapper w task_id sid subtask) command.
Proof.
  intros Hcommand commands.
  eapply triple_try_except; [by apply unfailed_outcome|]. by intros e s.
Qed.

Lemma unfailed_gather tasks tasks_commands commands :
  Forall2 (runs_command task_id) tasks tasks_commands →
  triple (unfailed task_id commands) (gather tasks)
    (unfailed task_id (commands ++ tasks_commands)) nothing.
Proof.
  intros Hall. revert commands.
  induction Hall as [|task command tasks tasks_commands Htask _ IH];
    intros commands; simpl.
  - apply triple_skip. intros s. by rewrite app_nil_r.
  - eapply triple_bind; [apply Htask|]. intros _.
    eapply triple_post; [apply IH|]. intros s.
    by rewrite <- (assoc_L (++)).
Qed.

Section plan.
Context (m : gmap string Task).
Context (m_truthy : ∀ sid subtask, m !! sid = Some subtask → truthy subtask = true).
Context (m_command : ∀ sid subtask, m !! sid = Some subtask →
                                    is_Some (command_of subtask)).

Lemma unfailed_launch_group group tasks tasks_commands commands s :
  Forall2 (runs_command task_id) tasks tasks_commands →
  unfailed task_id commands s →
  ∃ tasks' s',
    launch_group w task_id m group tasks s = (Ok tasks', s') ∧
    Forall2 (runs_command task_id) tasks'
            (tasks_commands ++ omap (command_in m) group) ∧
    unfailed task_id commands s'.
Proof.
  revert tasks tasks_commands s.
  induction group as [|sid group IH]; intros tasks tasks_commands s Htasks Hs.
  - simpl. exists tasks, s. by rewrite app_nil_r.
  - simpl. unfold command_in at 1. destruct (m !! sid) as [subtask|] eqn:Hsid;
      simpl; [|by apply IH].
    rewrite (m_truthy _ _ Hsid).
    destruct (m_command _ _ Hsid) as [command Hcommand]. rewrite Hcommand.
    pose proof (unfailed_update commands sid RUNNING None None
                  ltac:(done) s Hs) as Hs1.
    destruct (always_ok_update task_id sid RUNNING None None s)
      as ([] & s1 & Heq).
    unfold mbind at 1, M_bind at 1. rewrite Heq in *. simpl in Hs1.
    assert (Forall2 (runs_command task_id)
              (tasks ++ [_execute_subtask_wrapper w task_id sid subtask])
              (tasks_commands ++ [command])) as Htasks1.
    { apply Forall2_app; [done|]. constructor; [|constructor].
      by apply unfailed_wrapper. }
    destruct (IH _ _ s1 Htasks1 Hs1) as (tasks' & s' & Hl & Htasks' & Hs').
    exists tasks', s'. rewrite <- (assoc_L (++)) in Htasks'. done.
Qed.

Lemma unfailed_several commands group :
  triple (unfailed task_id commands)
    (tasks ← launch_group w task_id m group []; gather tasks)
    (unfailed task_id (commands ++ omap (command_in m) group)) nothing.
Proof.
  intros s Hs. unfold mbind, M_bind.
  destruct (unfailed_launch_group group [] [] commands s) as
    (tasks & s1 & -> & Htasks & Hs1); [constructor|done|].
  simpl in Htasks. by apply (unfailed_gather tasks _ _ Htasks s1).
Qed.

Lemma unfailed_group commands group :
  triple (unfailed task_id commands) (execute_group w task_id m group)
    (unfailed task_id (commands ++ omap (command_in m) group)) nothing.
Proof.
  unfold execute_group.
  destruct group as [|sid [|sid' group]];
    [apply unfailed_several| |apply unfailed_several].
  simpl. unfold command_in. destruct (m !! sid) as [subtask|] eqn:Hsid; simpl.
  - rewrite (m_truthy _ _ Hsid).
    destruct (m_command _ _ Hsid) as [command Hcommand]. rewrite Hcommand.
    apply (triple_step _ _ (unfailed task_id commands));
      [apply always_ok_update|by apply unfailed_update|].
    eapply triple_try_except; [by apply unfailed_outcome|]. by intros e s.
  - apply triple_skip. intros s. by rewrite app_nil_r.
Qed.

Lemma unfailed_groups commands execution_plan :
  triple (unfailed task_id commands) (execute_groups w task_id m execution_plan)
    (unfailed task_id (commands ++ omap (command_in m) (concat execution_plan)))
    nothing.
Proof.
  revert commands. induction execution_plan as [|group execution_plan IH];
    intros commands; simpl.
  - apply triple_skip. intros s. by rewrite app_nil_r.
  - eapply triple_bind; [apply unfailed_group|]. intros _.
    eapply triple_post; [apply IH|]. intros s.
    by rewrite omap_app, (assoc_L (++)).
Qed.

Lemma stagewise_concat execution_plan :
  stagewise m execution_plan (omap (command_in m) (concat execution_plan)).
Proof.
  exists ((λ stage : list string, omap (command_in m) stage : list string)
            <$> execution_plan). split.
  - apply Forall2_fmap_r, Forall_Forall2_diag, Forall_forall.
    intros stage _. simpl. reflexivity.
  - induction execution_plan as [|group execution_plan IH]; [done|].
    simpl. by rewrite omap_app, IH.
Qed.
End plan.
End unfailed.

(** X15. With a dependency manager, a plan for the subtasks, a command in
    every subtask and a shell in which every command succeeds,
    [execute_task] hands to the shell the commands of the planned
    subtasks, stage after stage in the order of the plan, those of one
    stage in some order, and nothing else; when the subtask ids are
    different as well, every entry of the returned record is COMPLETED
    and has an output. *)
Theorem plan_is_followed_when_commands_succeed (w : World) (o : SetOrder)
    (task_data : TaskData) (s : Executor) (plan : list (list string)) :
  let subtasks := imap (normalize (execution_mode_of task_data))
                       (subtasks_of task_data) in
  dependency_manager s = true →
  succeeds w →
  Forall (λ subtask, is_Some (command_of subtask)) (subtasks_of task_data) →
  create_execution_plan o subtasks = Ok plan →
  ∃ record s' commands,
    execute_task w o task_data s = (Ok record, s') ∧
    spawned s' = spawned s ++ commands ∧
    stagewise (subtask_map subtasks) plan commands ∧
    (NoDup (imap subtask_id_of (subtasks_of task_data)) →
     Forall (λ entry, s_status entry = COMPLETED ∧ is_Some (s_output entry))
            (r_subtasks record)).
Proof.
  intros subtasks Hdm Hw Hcommands Hplan.
  set (task_id := task_id_of w task_data).
  destruct (execute_task_steps w o task_data s) as (s1 & record1 & Hp & Hr & He).
  simpl in He. fold task_id in He, Hp, Hr.
  assert (∀ sid subtask, subtask_map subtasks !! sid = Some subtask →
                         is_Some (command_of subtask)) as Hm.
  { intros sid subtask (i & x & -> & Hx)%subtask_map_elem_of%elem_of_lookup_imap.
    rewrite Forall_forall in Hcommands.
    apply (Hcommands x). by eapply list_elem_of_lookup_2. }
  (* the commands, and no failure *)
  assert (unfailed task_id
            (spawned s ++ omap (command_in (subtask_map subtasks)) (concat plan))
            s1) as [Hspawned (record & Hrecord & Hunfailed)].
  { pose proof (unfailed_groups w task_id Hw (subtask_map subtasks)
                  (subtask_map_truthy _ _) Hm (spawned s) plan
                  (begun w task_data s)) as Hgroups.
    unfold process_subtasks in Hp. simpl in Hp. rewrite Hdm in Hp.
    unfold try_except, mbind, M_bind, lift in Hp. fold subtasks in Hp.
    rewrite Hplan in Hp. unfold _execute_with_dependencies in Hp.
    destruct (execute_groups w task_id (subtask_map subtasks) plan
                (begun w task_data s)) as [[[]|e|] s2] eqn:Hg; simpl in *.
    - injection Hp as <-. apply Hgroups. split; [done|]. eexists.
      split; [apply lookup_insert_eq|]. simpl. apply Forall_forall.
      by intros entry (i & x & -> & _)%elem_of_lookup_imap.
    - exfalso. apply Hgroups. split; [done|]. eexists.
      split; [apply lookup_insert_eq|]. simpl. apply Forall_forall.
      by intros entry (i & x & -> & _)%elem_of_lookup_imap.
    - done. }
  assert (record = record1) as -> by congruence.
  (* every entry has settled *)
  pose proof (triple_process_subtasks w o task_id (execution_mode_of task_data)
                (subtasks_of task_data) _ (tracks_begun w task_data s)) as Ht.
  fold task_id in Ht. rewrite Hp in Ht. simpl in Ht.
  destruct Ht as (record & Hrecord' & Hentries).
  assert (record = record1) as -> by congruence.
  (* the ids of the entries are those of the request *)
  destruct (returned_ids w o task_data s) as (record & s' & He' & Hshape).
  rewrite He in He'. injection He' as <- <-. simpl in Hshape.
  eexists _, _, _. split; [exact He|]. simpl. split_and!; [exact Hspawned| |].
  - apply stagewise_concat.
  - intros Hids. apply Forall_lookup. intros i entry Hi.
    pose proof (entries_ok_lookup _ _ _ _ _ _ Hentries Hi) as Hentry.
    rewrite decide_False in Hentry.
    + apply entry_ok_settled in Hentry as [[? ?]|[Hfailed _]]; [done|].
      rewrite Forall_lookup in Hunfailed. by destruct (Hunfailed i entry Hi).
    + intros [?|Hin]; [set_solver|].
      rewrite <- Hshape in Hids. rewrite NoDup_alt in Hids.
      apply list_elem_of_lookup in Hin as [j Hj].
      rewrite list_lookup_fmap in Hj.
      destruct (take i (r_subtasks record1) !! j) as [entry'|] eqn:Hj';
        [|done].
      pose proof (lookup_lt_Some _ _ _ Hj') as Hlt. rewrite length_take in Hlt.
      rewrite lookup_take_lt in Hj' by lia.
      assert (i = j); [|lia]. apply (Hids i j (s_id entry)).
      * by rewrite list_lookup_fmap, Hi.
      * rewrite list_lookup_fmap, Hj'. simpl. by injection Hj as ->.
Qed.

Lemma plan_is_followed_when_commands_succeed_witness :
  ∃ record s' commands,
    execute_task ok_world elements_order build_then_test (fresh_executor true)
      = (Ok record, s') ∧
    spawned s' = spawned (fresh_executor true) ++ commands ∧
    stagewise
      (subtask_map (imap (normalize (execution_mode_of build_then_test))
                         (subtasks_of build_then_test)))
      [["build"]; ["test"]] commands ∧
    Forall (λ entry, s_status entry = COMPLETED ∧ is_Some (s_output entry))
           (r_subtasks record).
Proof.
  destruct (plan_is_followed_when_commands_succeed ok_world elements_order
              build_then_test (fresh_executor true) [["build"]; ["test"]])
    as (record & s' & commands & Hrun & Hspawned & Hstages & Hentries).
  - reflexivity.
  - intros n command. split; vm_compute; reflexivity.
  - repeat constructor; vm_compute; eauto.
  - vm_compute. reflexivity.
  - exists record, s', commands. split_and!; [done..|].
    apply Hentries. apply (bool_decide_unpack _). vm_compute. reflexivity.
Defined.

End ExecutorExtra.
